(** * A disk-resident B-tree: the node engine of [b_tree_disk.hpp]

    Shallow embedding of the class template [B_tree_disk<tkey, tvalue,
    compare, t>]: the two files, the node store ([disk_read], [disk_write],
    [print_root_position]), the search ([find_index], [find_path]), the
    mutations ([insert], [split_node], [update], [erase], [rebalance_node]),
    the forward iterator and [find_range], the validator [check_tree] and the
    constructor.

    Conventions.
    - [size_t] is a 64-bit word: a value of [N] below [2^64]; [++], [--],
      [+] and [-] on it wrap around.
    - A [std::vector] is a [list]; an access outside its bounds, which is
      undefined behaviour in C++, is the fault [OutOfRange].
    - A [std::stack] is a [list] whose head is the top of the stack.
    - The tree file is a two-word header followed by fixed-size slots; the
      data file is a sequence of bytes that only grows.
    - Loops whose termination depends on the content of the files take a
      [fuel] argument.

    Not embedded: [compare_pairs], [insert_array] and [remove_array], which
    nothing calls, [begin], which cannot be instantiated, [is_valid], which
    has no body, the printing functions, and the member [_current_node],
    which is written by the constructor and never read. *)

From Stdlib Require Import NArith ZArith Lia Strings.String Strings.Byte.
From stdpp Require Import base option list gmap.

Open Scope N_scope.

(** ** Faults and the two monads *)

Inductive fault : Type :=
  | OutOfRange                              (* undefined behaviour: index or top() out of bounds *)
  | ReadFailure                             (* a stream read that does not get its bytes *)
  | OutOfFuel                               (* the loop did not finish within the fuel *)
  | logic_error (what : string) (pos : N)   (* std::logic_error thrown by check_tree *)
  | out_of_range (what : string).           (* std::out_of_range thrown by operator* *)

Inductive result (A : Type) : Type :=
  | Ok (a : A)
  | Fail (f : fault).
Arguments Ok {A} a.
Arguments Fail {A} f.

#[export] Instance result_ret : MRet result := λ A a, Ok a.
#[export] Instance result_bind : MBind result := λ A B k m,
  match m with
  | Ok a => k a
  | Fail f => Fail f
  end.
#[export] Instance result_fmap : FMap result := λ A B g m,
  match m with
  | Ok a => Ok (g a)
  | Fail f => Fail f
  end.

(** ** [size_t] *)

Definition SIZE_MOD : N := 2 ^ 64.
Definition sz_add (a b : N) : N := (a + b) mod SIZE_MOD.
Definition sz_sub (a b : N) : N := (a + (SIZE_MOD - b mod SIZE_MOD)) mod SIZE_MOD.
Definition sz_mul (a b : N) : N := (a * b) mod SIZE_MOD.
Definition sz_incr (a : N) : N := sz_add a 1.
Definition sz_decr (a : N) : N := sz_sub a 1.

(** [static_cast<size_t>(-1)], the root position of an empty tree. *)
Definition NONE : N := SIZE_MOD - 1.

(** ** [std::vector] *)

Section vector.
Context {A : Type}.

Definition vec_size (v : list A) : N := N.of_nat (length v).

(** [v[i]] *)
Definition vec_at (v : list A) (i : N) : result A :=
  if i <? vec_size v then
    match v !! N.to_nat i with
    | Some x => Ok x
    | None => Fail OutOfRange
    end
  else Fail OutOfRange.

(** [v[i] = x] *)
Definition vec_set (v : list A) (i : N) (x : A) : result (list A) :=
  if i <? vec_size v then Ok (<[N.to_nat i := x]> v) else Fail OutOfRange.

(** [v.insert(v.begin() + i, x)] *)
Definition vec_insert (v : list A) (i : N) (x : A) : result (list A) :=
  if i <=? vec_size v
  then Ok (take (N.to_nat i) v ++ x :: drop (N.to_nat i) v)
  else Fail OutOfRange.

(** [v.erase(v.begin() + i)] *)
Definition vec_erase (v : list A) (i : N) : result (list A) :=
  if i <? vec_size v
  then Ok (take (N.to_nat i) v ++ drop (S (N.to_nat i)) v)
  else Fail OutOfRange.

(** the range [[v.begin() + i, v.end())] *)
Definition vec_from (v : list A) (i : N) : result (list A) :=
  if i <=? vec_size v then Ok (drop (N.to_nat i) v) else Fail OutOfRange.

(** [v.erase(v.begin() + i, v.end())] *)
Definition vec_erase_from (v : list A) (i : N) : result (list A) :=
  if i <=? vec_size v then Ok (take (N.to_nat i) v) else Fail OutOfRange.

(** [v.pop_back()] *)
Definition vec_pop_back (v : list A) : result (list A) :=
  match v with
  | [] => Fail OutOfRange
  | _ => Ok (removelast v)
  end.

(** [v.front()] and [v.back()] *)
Definition vec_front (v : list A) : result A :=
  match v with
  | [] => Fail OutOfRange
  | x :: _ => Ok x
  end.

Definition vec_back (v : list A) : result A :=
  match last v with
  | Some x => Ok x
  | None => Fail OutOfRange
  end.

(** [v.resize(n, fill)] *)
Fixpoint resize_nat (n : nat) (fill : A) (v : list A) : list A :=
  match n with
  | O => []
  | S n' =>
      match v with
      | [] => fill :: resize_nat n' fill []
      | x :: v' => x :: resize_nat n' fill v'
      end
  end.

Definition vec_resize (v : list A) (n : N) (fill : A) : list A :=
  resize_nat (N.to_nat n) fill v.

(** [s.top()] together with [s.pop()] *)
Definition stack_top (s : list A) : result A :=
  match s with
  | [] => Fail OutOfRange
  | x :: _ => Ok x
  end.

Definition stack_pop (s : list A) : result (list A) :=
  match s with
  | [] => Fail OutOfRange
  | _ :: s' => Ok s'
  end.
End vector.

(** ** The codec contract (concept [serializable]) *)

Class Serializable (T : Type) : Type := {
  serialize : T → list byte;
  (* reads one value at the current position of the stream: the bytes from
     there on; returns the value and the bytes after it *)
  deserialize : list byte → result (T * list byte);
  serialize_size : T → N;
}.

(** [struct SerializableInt]: the raw four bytes of an [int], host order
    (little endian). *)
Definition byte_of (n : N) : byte :=
  match Byte.of_N (n mod 256) with
  | Some b => b
  | None => x00
  end.

Definition int_bytes (data : Z) : list byte :=
  let u := Z.to_N (data mod 2 ^ 32) in
  [byte_of u; byte_of (u / 256); byte_of (u / 65536); byte_of (u / 16777216)].

Definition int_of_bytes (b0 b1 b2 b3 : byte) : Z :=
  let u := Z.of_N (Byte.to_N b0 + 256 * Byte.to_N b1
                   + 65536 * Byte.to_N b2 + 16777216 * Byte.to_N b3) in
  (if u <? 2 ^ 31 then u else u - 2 ^ 32)%Z.

#[export] Instance SerializableInt : Serializable Z := {|
  serialize data := int_bytes data;
  deserialize stream :=
    match stream with
    | b0 :: b1 :: b2 :: b3 :: rest => Ok (int_of_bytes b0 b1 b2 b3, rest)
    | _ => Fail ReadFailure
    end;
  serialize_size _ := 4;
|}.

(** ** The two files *)

(** One node slot of the tree file, in the order of the layout: [size],
    the [is_leaf] byte, [position_in_disk], the table of children and the
    table of payload offsets. *)
Record slot : Type := {
  slot_size : N;
  slot_is_leaf : bool;
  slot_position : N;
  slot_pointers : list N;
  slot_offsets : list N;
}.

(** The tree file: the word at offset 0 ([_count_of_node]), the word at
    offset [sizeof(size_t)] ([_position_root]) and the slots by the byte
    offset they were written at. A header word is [None] while the file is
    shorter than it. The slots are kept apart from the header and from each
    other: this is the file as long as every slot in it begins at
    [header_size + p * node_size] for a position [p] and ends within [2^63]
    bytes, the range of [std::streamoff] ([slots_in_place] below). *)
Record tree_file : Type := {
  header_count : option N;
  header_root : option N;
  slots : gmap N slot;
}.

Definition empty_tree_file : tree_file :=
  {| header_count := None; header_root := None; slots := ∅ |}.

(** What the file system holds at [file_path + ".tree"] and
    [file_path + ".data"]. *)
Record file_system : Type := {
  tree_path : option tree_file;
  data_path : option (list byte);
}.

(** ** The tree object *)

Record B_tree_disk : Type := {
  _file_for_tree : tree_file;
  _file_for_key_value : list byte;
  _position_root : N;
  _count_of_node : N;
}.

(** Member functions that write run in a state monad over the object. *)
Definition M (A : Type) : Type := B_tree_disk → result (A * B_tree_disk).

#[export] Instance M_ret : MRet M := λ A a tree, Ok (a, tree).
#[export] Instance M_bind : MBind M := λ A B k m tree,
  match m tree with
  | Ok (a, tree') => k a tree'
  | Fail f => Fail f
  end.

(** a member function that only reads *)
Definition reading {A : Type} (f : B_tree_disk → result A) : M A :=
  λ tree, match f tree with Ok a => Ok (a, tree) | Fail e => Fail e end.

Definition lift {A : Type} (r : result A) : M A := reading (λ _, r).

Definition get_position_root : M N := λ tree, Ok (_position_root tree, tree).

Definition set_position_root (pos : N) : M unit := λ tree,
  Ok ((), {| _file_for_tree := _file_for_tree tree;
             _file_for_key_value := _file_for_key_value tree;
             _position_root := pos;
             _count_of_node := _count_of_node tree |}).

(** [this->_count_of_node++] *)
Definition post_incr_count_of_node : M N := λ tree,
  Ok (_count_of_node tree,
      {| _file_for_tree := _file_for_tree tree;
         _file_for_key_value := _file_for_key_value tree;
         _position_root := _position_root tree;
         _count_of_node := sz_incr (_count_of_node tree) |}).

(** [print_root_position]: seek to [sizeof(size_t)], write [_position_root]. *)
Definition write_header_root (f : tree_file) (pos : N) : tree_file :=
  {| header_count := Some (default 0 (header_count f));
     header_root := Some pos;
     slots := slots f |}.

Definition print_root_position : M unit := λ tree,
  Ok ((), {| _file_for_tree := write_header_root (_file_for_tree tree) (_position_root tree);
             _file_for_key_value := _file_for_key_value tree;
             _position_root := _position_root tree;
             _count_of_node := _count_of_node tree |}).

Section B_tree_disk.
Context {tkey tvalue : Type} `{!Serializable tkey, !Serializable tvalue}.
(** the comparator (concept [compator]) and the minimum degree *)
Variable compare : tkey → tkey → bool.
Variable t : N.

Definition tree_data_type : Type := tkey * tvalue.

Definition minimum_keys_in_node : N := sz_sub t 1.
Definition maximum_keys_in_node : N := sz_sub (sz_mul 2 t) 1.

Definition compare_keys (lhs rhs : tkey) : bool := compare lhs rhs.

Record btree_disk_node : Type := {
  size : N;
  _is_leaf : bool;
  position_in_disk : N;
  keys : list tree_data_type;
  pointers : list N;
}.

(** [btree_disk_node(bool is_leaf)] *)
Definition new_node (is_leaf : bool) : btree_disk_node :=
  {| size := 0; _is_leaf := is_leaf; position_in_disk := 0; keys := [];
     pointers := vec_resize [] (sz_add maximum_keys_in_node 2) 0 |}.

(** *** Slot addressing *)

Definition sizeof_size_t : N := 8.
Definition header_size : N := sz_mul 2 sizeof_size_t.

(** [node_size] as [disk_write] computes it ... *)
Definition node_size_write : N :=
  sz_add (sz_add (sz_add (sz_add sizeof_size_t 1) sizeof_size_t)
            (sz_mul (sz_add maximum_keys_in_node 1) sizeof_size_t))
         (sz_mul (sz_add maximum_keys_in_node 2) sizeof_size_t).

(** ... and as [disk_read] computes it. *)
Definition node_size_read : N :=
  sz_add (sz_add (sz_add (sz_add sizeof_size_t 1) sizeof_size_t)
            (sz_mul (sz_add maximum_keys_in_node 2) sizeof_size_t))
         (sz_mul (sz_add maximum_keys_in_node 1) sizeof_size_t).

Definition slot_offset_write (pos : N) : N := sz_add header_size (sz_mul pos node_size_write).
Definition slot_offset_read (pos : N) : N := sz_add header_size (sz_mul pos node_size_read).

(** *** [btree_disk_node::serialize] and [disk_write] *)

(** the table of children: [maximum_keys_in_node + 2] words, zero where
    the vector has no entry *)
Definition serialize_pointers (ptrs : list N) : list N :=
  vec_resize ptrs (sz_add maximum_keys_in_node 2) 0.

(** the table of payload offsets: for each of the first
    [maximum_keys_in_node + 1] indices, a key that exists is appended to the
    data file and its offset recorded; the others get zero *)
Fixpoint serialize_keys (n : nat) (ks : list tree_data_type) (data_stream : list byte)
  : list N * list byte :=
  match n with
  | O => ([], data_stream)
  | S n' =>
      match ks with
      | [] =>
          let '(offsets, data_stream') := serialize_keys n' [] data_stream in
          (0 :: offsets, data_stream')
      | kv :: ks' =>
          let pos := vec_size data_stream in
          let '(offsets, data_stream') :=
            serialize_keys n' ks' (data_stream ++ serialize kv.1 ++ serialize kv.2) in
          (pos :: offsets, data_stream')
      end
  end.

Definition node_serialize (node : btree_disk_node) (data_stream : list byte)
  : slot * list byte :=
  let '(offsets, data_stream') :=
    serialize_keys (N.to_nat (sz_add maximum_keys_in_node 1)) (keys node) data_stream in
  ({| slot_size := size node;
      slot_is_leaf := _is_leaf node;
      slot_position := position_in_disk node;
      slot_pointers := serialize_pointers (pointers node);
      slot_offsets := offsets |}, data_stream').

Definition write_slot (f : tree_file) (offset : N) (s : slot) : tree_file :=
  {| header_count := Some (default 0 (header_count f));
     header_root := Some (default 0 (header_root f));
     slots := <[offset := s]> (slots f) |}.

(** [disk_write]: the slot goes to the offset as the code computes it, in
    64 bits. For a position that is not in place ([position_in_place]
    below) the computed offset wraps around or is beyond the range of
    [std::streamoff], and the file then differs from this map; the
    statements that depend on it are about positions in place. *)
Definition disk_write (node : btree_disk_node) : M unit := λ tree,
  let '(s, data_stream') := node_serialize node (_file_for_key_value tree) in
  Ok ((), {| _file_for_tree :=
               write_slot (_file_for_tree tree) (slot_offset_write (position_in_disk node)) s;
             _file_for_key_value := data_stream';
             _position_root := _position_root tree;
             _count_of_node := _count_of_node tree |}).

(** *** [btree_disk_node::deserialize] and [disk_read] *)

(** [seekg(pos)] on the data file, then one key and one value *)
Definition read_pair (data_stream : list byte) (pos : N) : result tree_data_type :=
  if pos <=? vec_size data_stream then
    '(k, rest) ← deserialize (drop (N.to_nat pos) data_stream);
    '(v, _) ← deserialize rest;
    Ok (k, v)
  else Fail ReadFailure.

(** the loop over the offset table: a pair is read while the vector of
    keys is shorter than [size] *)
Fixpoint deserialize_keys (offsets : list N) (node_size : N) (data_stream : list byte)
    (acc : list tree_data_type) : result (list tree_data_type) :=
  match offsets with
  | [] => Ok acc
  | pos :: offsets' =>
      if vec_size acc <? node_size then
        pair ← read_pair data_stream pos;
        deserialize_keys offsets' node_size data_stream (acc ++ [pair])
      else deserialize_keys offsets' node_size data_stream acc
  end.

Definition node_deserialize (s : slot) (data_stream : list byte) : result btree_disk_node :=
  let ptrs := vec_resize (slot_pointers s) (sz_add maximum_keys_in_node 2) 0 in
  ks ← deserialize_keys (slot_offsets s) (slot_size s) data_stream [];
  Ok {| size := slot_size s;
        _is_leaf := slot_is_leaf s;
        position_in_disk := slot_position s;
        keys := ks;
        pointers := ptrs |}.

Definition disk_read (tree : B_tree_disk) (node_position : N) : result btree_disk_node :=
  match slots (_file_for_tree tree) !! slot_offset_read node_position with
  | Some s => node_deserialize s (_file_for_key_value tree)
  | None => Fail ReadFailure
  end.

(** *** Search: [find_index] and [find_path] *)

Definition path_type : Type := list (N * N).

Fixpoint find_index_from (key : tkey) (ks : list tree_data_type) (i : N) : N * bool :=
  match ks with
  | [] => (i, false)
  | kv :: ks' =>
      if compare_keys kv.1 key then find_index_from key ks' (sz_incr i)
      else (i, negb (compare_keys key kv.1))
  end.

Definition find_index (key : tkey) (node : btree_disk_node) : N * bool :=
  find_index_from key (keys node) 0.

(** the [while (true)] loop of [find_path] *)
Fixpoint find_path_loop (fuel : nat) (tree : B_tree_disk) (key : tkey)
    (current_position : N) (current_node : btree_disk_node) (path : path_type)
  : result (path_type * (N * bool)) :=
  match fuel with
  | O => Fail OutOfFuel
  | S fuel' =>
      let '(index, key_found) := find_index key current_node in
      if key_found then Ok ((current_position, index) :: path, (index, true))
      else
        let path := (current_position, index) :: path in
        if _is_leaf current_node then Ok (path, (index, false))
        else
          next_position ← vec_at (pointers current_node) index;
          next_node ← disk_read tree next_position;
          find_path_loop fuel' tree key next_position next_node path
  end.

Definition find_path (fuel : nat) (tree : B_tree_disk) (key : tkey)
  : result (path_type * (N * bool)) :=
  if _position_root tree =? NONE then Ok ([], (0, false))
  else
    current_node ← disk_read tree (_position_root tree);
    find_path_loop fuel tree key (_position_root tree) current_node [].

(** *** [at] *)

Definition at_ (fuel : nat) (tree : B_tree_disk) (key : tkey) : result (option tvalue) :=
  '(path, (index, found)) ← find_path fuel tree key;
  if negb found then Ok None
  else
    top ← stack_top path;
    current_node ← disk_read tree top.1;
    pair ← vec_at (keys current_node) index;
    Ok (Some pair.2).

(** *** [update] *)

Definition update (fuel : nat) (data : tree_data_type) : M bool :=
  '(path, (index, found)) ← reading (λ tree, find_path fuel tree data.1);
  if negb found then mret false
  else
    top ← lift (stack_top path);
    node ← reading (λ tree, disk_read tree top.1);
    old ← lift (vec_at (keys node) index);
    keys' ← lift (vec_set (keys node) index (old.1, data.2));
    disk_write {| size := size node; _is_leaf := _is_leaf node;
                  position_in_disk := position_in_disk node;
                  keys := keys'; pointers := pointers node |};;
    mret true.

(** *** [insert] and [split_node] *)

Fixpoint split_node (path : path_type) : M unit :=
  match path with
  | [] => mret ()
  | (current_pos, _) :: path =>
      current ← reading (λ tree, disk_read tree current_pos);
      let current_pointers := vec_resize (pointers current) (sz_add maximum_keys_in_node 2) 0 in
      right_position ← post_incr_count_of_node;
      let mid := vec_size (keys current) / 2 in
      middle_key ← lift (vec_at (keys current) mid);
      right_keys ← lift (vec_from (keys current) (sz_add mid 1));
      current_keys ← lift (vec_erase_from (keys current) mid);
      '(current_pointers, right_pointers) ←
        (if negb (_is_leaf current) then
           right_pointers ← lift (vec_from current_pointers (sz_add mid 1));
           current_pointers ← lift (vec_erase_from current_pointers (sz_add mid 1));
           mret (vec_resize current_pointers (sz_add maximum_keys_in_node 2) 0,
                 vec_resize right_pointers (sz_add maximum_keys_in_node 2) 0)
         else
           mret (current_pointers, pointers (new_node (_is_leaf current))));
      let current :=
        {| size := vec_size current_keys; _is_leaf := _is_leaf current;
           position_in_disk := position_in_disk current;
           keys := current_keys; pointers := current_pointers |} in
      let right :=
        {| size := vec_size right_keys; _is_leaf := _is_leaf current;
           position_in_disk := right_position;
           keys := right_keys; pointers := right_pointers |} in
      disk_write current;;
      disk_write right;;
      match path with
      | [] =>
          root_position ← post_incr_count_of_node;
          root_pointers ← lift (vec_set (pointers (new_node false)) 0 current_pos);
          root_pointers ← lift (vec_set root_pointers 1 right_position);
          set_position_root root_position;;
          disk_write {| size := 1; _is_leaf := false; position_in_disk := root_position;
                        keys := [middle_key];
                        pointers := vec_resize root_pointers (sz_add maximum_keys_in_node 2) 0 |};;
          print_root_position
      | (parent_pos, parent_idx) :: _ =>
          parent ← reading (λ tree, disk_read tree parent_pos);
          parent_keys ← lift (vec_insert (keys parent) parent_idx middle_key);
          parent_pointers ←
            lift (vec_insert (pointers parent) (sz_add parent_idx 1) right_position);
          let parent :=
            {| size := sz_incr (size parent); _is_leaf := _is_leaf parent;
               position_in_disk := position_in_disk parent;
               keys := parent_keys;
               pointers := vec_resize parent_pointers (sz_add maximum_keys_in_node 2) 0 |} in
          disk_write parent;;
          if maximum_keys_in_node <? size parent then split_node path else mret ()
      end
  end.

Definition insert (fuel : nat) (data : tree_data_type) : M bool :=
  '(path, (index, found)) ← reading (λ tree, find_path fuel tree data.1);
  if (found : bool) then mret false
  else
    top ← lift (stack_top path);
    let current_position := top.1 in
    path ← lift (stack_pop path);
    current_node ← reading (λ tree, disk_read tree current_position);
    keys' ← lift (vec_insert (keys current_node) index data);
    let current_node :=
      {| size := sz_incr (size current_node); _is_leaf := _is_leaf current_node;
         position_in_disk := position_in_disk current_node;
         keys := keys';
         pointers := vec_resize (pointers current_node) (sz_add maximum_keys_in_node 2) 0 |} in
    disk_write current_node;;
    (if maximum_keys_in_node <? size current_node
     then split_node ((current_position, index) :: path)
     else mret ());;
    mret true.

(** *** [erase] and [rebalance_node] *)

(** the elements [v[0]], ..., [v[n-1]], read one by one *)
Definition vec_prefix {A : Type} (v : list A) (n : N) : result (list A) :=
  if n <=? vec_size v then Ok (take (N.to_nat n) v) else Fail OutOfRange.

Definition with_keys (node : btree_disk_node) (sz : N) (ks : list tree_data_type)
  : btree_disk_node :=
  {| size := sz; _is_leaf := _is_leaf node; position_in_disk := position_in_disk node;
     keys := ks; pointers := pointers node |}.

Definition with_pointers (node : btree_disk_node) (ptrs : list N) : btree_disk_node :=
  {| size := size node; _is_leaf := _is_leaf node; position_in_disk := position_in_disk node;
     keys := keys node; pointers := ptrs |}.

(** [while (node_idx <= parent.size && parent.pointers[node_idx] !=
    node.position_in_disk) node_idx++], on the pointers from [node_idx] on *)
Fixpoint find_child_slot (ptrs : list N) (node_idx parent_size target : N) : result N :=
  if node_idx <=? parent_size then
    match ptrs with
    | [] => Fail OutOfRange
    | p :: ptrs' =>
        if p =? target then Ok node_idx
        else find_child_slot ptrs' (sz_incr node_idx) parent_size target
    end
  else Ok node_idx.

Fixpoint rebalance_node (path : path_type) (node : btree_disk_node) (index : N) : M unit :=
  match path with
  | [] => mret ()
  | (parent_pos, parent_idx) :: path =>
      if minimum_keys_in_node <=? size node then mret ()
      else
        parent ← reading (λ tree, disk_read tree parent_pos);
        node_idx ← lift (find_child_slot (pointers parent) 0 (size parent)
                           (position_in_disk node));
        (* strategy 1: a key from the left sibling *)
        returned ←
          (if 0 <? node_idx then
             left_sibling_pos ← lift (vec_at (pointers parent) (sz_sub node_idx 1));
             left_sibling ← reading (λ tree, disk_read tree left_sibling_pos);
             if minimum_keys_in_node <? size left_sibling then
               separator ← lift (vec_at (keys parent) (sz_sub node_idx 1));
               let node := with_keys node (sz_incr (size node)) (separator :: keys node) in
               donated ← lift (vec_at (keys left_sibling) (sz_sub (size left_sibling) 1));
               parent_keys ← lift (vec_set (keys parent) (sz_sub node_idx 1) donated);
               let parent := with_keys parent (size parent) parent_keys in
               '(node, left_sibling) ←
                 (if negb (_is_leaf node) then
                    child ← lift (vec_at (pointers left_sibling) (size left_sibling));
                    left_pointers ← lift (vec_pop_back (pointers left_sibling));
                    mret (with_pointers node (child :: pointers node),
                          with_pointers left_sibling left_pointers)
                  else mret (node, left_sibling));
               left_keys ← lift (vec_pop_back (keys left_sibling));
               let left_sibling := with_keys left_sibling (sz_decr (size left_sibling)) left_keys in
               disk_write left_sibling;;
               disk_write parent;;
               disk_write node;;
               mret true
             else mret false
           else mret false);
        if (returned : bool) then mret ()
        else
        (* strategy 2: a key from the right sibling *)
        returned ←
          (if node_idx <? size parent then
             right_sibling_pos ← lift (vec_at (pointers parent) (sz_add node_idx 1));
             right_sibling ← reading (λ tree, disk_read tree right_sibling_pos);
             if minimum_keys_in_node <? size right_sibling then
               separator ← lift (vec_at (keys parent) node_idx);
               let node := with_keys node (sz_incr (size node)) (keys node ++ [separator]) in
               donated ← lift (vec_at (keys right_sibling) 0);
               parent_keys ← lift (vec_set (keys parent) node_idx donated);
               let parent := with_keys parent (size parent) parent_keys in
               '(node, right_sibling) ←
                 (if negb (_is_leaf node) then
                    child ← lift (vec_at (pointers right_sibling) 0);
                    right_pointers ← lift (vec_erase (pointers right_sibling) 0);
                    mret (with_pointers node (pointers node ++ [child]),
                          with_pointers right_sibling right_pointers)
                  else mret (node, right_sibling));
               right_keys ← lift (vec_erase (keys right_sibling) 0);
               let right_sibling :=
                 with_keys right_sibling (sz_decr (size right_sibling)) right_keys in
               disk_write right_sibling;;
               disk_write parent;;
               disk_write node;;
               mret true
             else mret false
           else mret false);
        if (returned : bool) then mret ()
        else
        (* strategy 3.1: merge into the left sibling *)
        if 0 <? node_idx then
          left_sibling_pos ← lift (vec_at (pointers parent) (sz_sub node_idx 1));
          left_sibling ← reading (λ tree, disk_read tree left_sibling_pos);
          separator ← lift (vec_at (keys parent) (sz_sub node_idx 1));
          node_keys ← lift (vec_prefix (keys node) (size node));
          let left_sibling :=
            with_keys left_sibling (sz_add (sz_incr (size left_sibling)) (size node))
              (keys left_sibling ++ [separator] ++ node_keys) in
          left_sibling ←
            (if negb (_is_leaf node) then
               node_pointers ← lift (vec_prefix (pointers node) (size node + 1));
               mret (with_pointers left_sibling (pointers left_sibling ++ node_pointers))
             else mret left_sibling);
          disk_write left_sibling;;
          parent_keys ← lift (vec_erase (keys parent) (sz_sub node_idx 1));
          parent_pointers ← lift (vec_erase (pointers parent) node_idx);
          let parent :=
            with_pointers (with_keys parent (sz_decr (size parent)) parent_keys)
              parent_pointers in
          disk_write parent;;
          position_root ← get_position_root;
          if (parent_pos =? position_root) && (size parent =? 0) then
            set_position_root left_sibling_pos;;
            print_root_position
          else if (size parent <? minimum_keys_in_node) && negb (parent_pos =? position_root)
          then rebalance_node path parent parent_idx
          else mret ()
        (* strategy 3.2: merge the right sibling into the node *)
        else if node_idx <=? size parent then
          right_sibling_pos ← lift (vec_at (pointers parent) (sz_add node_idx 1));
          right_sibling ← reading (λ tree, disk_read tree right_sibling_pos);
          separator ← lift (vec_at (keys parent) node_idx);
          right_keys ← lift (vec_prefix (keys right_sibling) (size right_sibling));
          let node :=
            with_keys node (sz_add (sz_incr (size node)) (size right_sibling))
              (keys node ++ [separator] ++ right_keys) in
          node ←
            (if negb (_is_leaf node) then
               right_pointers ←
                 lift (vec_prefix (pointers right_sibling) (size right_sibling + 1));
               mret (with_pointers node (pointers node ++ right_pointers))
             else mret node);
          disk_write node;;
          parent_keys ← lift (vec_erase (keys parent) node_idx);
          parent_pointers ← lift (vec_erase (pointers parent) (sz_add node_idx 1));
          let parent :=
            with_pointers (with_keys parent (sz_decr (size parent)) parent_keys)
              parent_pointers in
          disk_write parent;;
          position_root ← get_position_root;
          if (parent_pos =? position_root) && (size parent =? 0) then
            set_position_root (position_in_disk node);;
            print_root_position
          else if (size parent <? minimum_keys_in_node) && negb (parent_pos =? position_root)
          then rebalance_node path parent parent_idx
          else mret ()
        else mret ()
  end.

(** [while (!pred_node._is_leaf)]: down the rightmost spine *)
Fixpoint rightmost_leaf (fuel : nat) (tree : B_tree_disk) (pred_node : btree_disk_node)
    (pred_pos : N) (pred_path : path_type) : result (btree_disk_node * N * path_type) :=
  if _is_leaf pred_node then Ok (pred_node, pred_pos, pred_path)
  else
    match fuel with
    | O => Fail OutOfFuel
    | S fuel' =>
        let pred_path := (pred_pos, size pred_node) :: pred_path in
        pred_pos ← vec_at (pointers pred_node) (size pred_node);
        pred_node ← disk_read tree pred_pos;
        rightmost_leaf fuel' tree pred_node pred_pos pred_path
    end.

(** [while (!succ_node._is_leaf)]: down the leftmost spine *)
Fixpoint leftmost_leaf (fuel : nat) (tree : B_tree_disk) (succ_node : btree_disk_node)
    (succ_pos : N) (succ_path : path_type) : result (btree_disk_node * N * path_type) :=
  if _is_leaf succ_node then Ok (succ_node, succ_pos, succ_path)
  else
    match fuel with
    | O => Fail OutOfFuel
    | S fuel' =>
        let succ_path := (succ_pos, 0) :: succ_path in
        succ_pos ← vec_at (pointers succ_node) 0;
        succ_node ← disk_read tree succ_pos;
        leftmost_leaf fuel' tree succ_node succ_pos succ_path
    end.

Definition erase (fuel : nat) (key : tkey) : M bool :=
  position_root ← get_position_root;
  if position_root =? NONE then mret false
  else
    '(path, (index, found)) ← reading (λ tree, find_path fuel tree key);
    if negb found then mret false
    else
      top ← lift (stack_top path);
      let current_pos := top.1 in
      path ← lift (stack_pop path);
      current ← reading (λ tree, disk_read tree current_pos);
      (* case 1: the key is in a leaf *)
      if _is_leaf current then
        current_keys ← lift (vec_erase (keys current) index);
        let current := with_keys current (sz_decr (size current)) current_keys in
        disk_write current;;
        (if (size current <? minimum_keys_in_node) && negb (current_pos =? position_root)
         then rebalance_node path current index
         else if (current_pos =? position_root) && (size current =? 0) then
           set_position_root NONE;;
           print_root_position
         else mret ());;
        mret true
      else
      (* case 2: the key is in an internal node *)
      left_child_pos ← lift (vec_at (pointers current) index);
      left_child ← reading (λ tree, disk_read tree left_child_pos);
      (* case 2.1: the predecessor *)
      if minimum_keys_in_node <? size left_child then
        '(pred_node, pred_pos, pred_path) ←
          reading (λ tree, rightmost_leaf fuel tree left_child left_child_pos
                             [(current_pos, index)]);
        predecessor ← lift (vec_at (keys pred_node) (sz_sub (size pred_node) 1));
        current_keys ← lift (vec_set (keys current) index predecessor);
        disk_write (with_keys current (size current) current_keys);;
        pred_keys ← lift (vec_erase (keys pred_node) (sz_sub (size pred_node) 1));
        let pred_node := with_keys pred_node (sz_decr (size pred_node)) pred_keys in
        disk_write pred_node;;
        (if (size pred_node <? minimum_keys_in_node) && negb (pred_pos =? position_root)
         then rebalance_node pred_path pred_node (size pred_node)
         else mret ());;
        mret true
      else
      right_child_pos ← lift (vec_at (pointers current) (sz_add index 1));
      right_child ← reading (λ tree, disk_read tree right_child_pos);
      (* case 2.2: the successor *)
      if minimum_keys_in_node <? size right_child then
        '(succ_node, succ_pos, succ_path) ←
          reading (λ tree, leftmost_leaf fuel tree right_child right_child_pos
                             [(current_pos, sz_add index 1)]);
        successor ← lift (vec_at (keys succ_node) 0);
        current_keys ← lift (vec_set (keys current) index successor);
        disk_write (with_keys current (size current) current_keys);;
        succ_keys ← lift (vec_erase (keys succ_node) 0);
        let succ_node := with_keys succ_node (sz_decr (size succ_node)) succ_keys in
        disk_write succ_node;;
        (if (size succ_node <? minimum_keys_in_node) && negb (succ_pos =? position_root)
         then rebalance_node succ_path succ_node 0
         else mret ());;
        mret true
      else
      (* case 2.3: both children have the minimum *)
      right_keys ← lift (vec_prefix (keys right_child) (size right_child));
      let left_child :=
        with_keys left_child (sz_add (size left_child) (size right_child))
          (keys left_child ++ right_keys) in
      left_child ←
        (if negb (_is_leaf left_child) then
           right_pointers ← lift (vec_prefix (pointers right_child) (size right_child + 1));
           mret (with_pointers left_child (pointers left_child ++ right_pointers))
         else mret left_child);
      disk_write left_child;;
      current_keys ← lift (vec_erase (keys current) index);
      current_pointers ← lift (vec_erase (pointers current) (sz_add index 1));
      let current :=
        with_pointers (with_keys current (sz_decr (size current)) current_keys)
          current_pointers in
      disk_write current;;
      (if (current_pos =? position_root) && (size current =? 0) then
         set_position_root left_child_pos;;
         print_root_position
       else if (size current <? minimum_keys_in_node) && negb (current_pos =? position_root)
       then rebalance_node path current index
       else mret ());;
      mret true.

(** *** The iterator [btree_disk_const_iterator] *)

Record btree_disk_const_iterator : Type := {
  _path : path_type;
  _index : N;
}.

(** [operator==] compares the stacks only *)
Definition iterator_eqb (a b : btree_disk_const_iterator) : bool :=
  bool_decide (_path a = _path b).

(** [end()]. The member [begin()] has no embedding: its last statement
    passes [*this] to a constructor that takes a pointer to the tree, so the
    member template cannot be instantiated and no program calls it. A client
    has the iterators of [find_range] and [end()]. *)
Definition end_ : btree_disk_const_iterator := {| _path := []; _index := 0 |}.

(** [child = disk_read(child_pos); while (!child._is_leaf) ...;
    _path.push({child_pos, 0})] *)
Definition descend (fuel : nat) (tree : B_tree_disk) (child_pos : N) (path : path_type)
  : result path_type :=
  child ← disk_read tree child_pos;
  '(_, child_pos, path) ← leftmost_leaf fuel tree child child_pos path;
  Ok ((child_pos, 0) :: path).

(** step 4 of [operator++]: [while (!_path.empty())] after the leaf has
    been popped *)
Fixpoint ascend (fuel : nat) (tree : B_tree_disk) (path : path_type) : result path_type :=
  match path with
  | [] => Ok []
  | (parent_pos, parent_idx) :: rest =>
      parent ← disk_read tree parent_pos;
      if parent_idx <? vec_size (keys parent) then Ok path
      else if vec_size (keys parent) <=? parent_idx then Ok rest
      else if sz_add parent_idx 1 <? vec_size (pointers parent) then
        child_pos ← vec_at (pointers parent) (sz_add parent_idx 1);
        descend fuel tree child_pos ((parent_pos, sz_add parent_idx 1) :: rest)
      else ascend fuel tree rest
  end.

Definition increment (fuel : nat) (tree : B_tree_disk) (it : btree_disk_const_iterator)
  : result btree_disk_const_iterator :=
  match _path it with
  | [] => Ok it
  | (pos, idx) :: rest =>
      node ← disk_read tree pos;
      if negb (_is_leaf node) then
        child_pos ← vec_at (pointers node) (sz_add idx 1);
        path ← descend fuel tree child_pos ((pos, sz_add idx 1) :: rest);
        Ok {| _path := path; _index := _index it |}
      else if sz_add idx 1 <? vec_size (keys node) then
        Ok {| _path := (pos, sz_add idx 1) :: rest; _index := _index it |}
      else
        path ← ascend fuel tree rest;
        Ok {| _path := path; _index := _index it |}
  end.

(** [operator*] *)
Definition dereference (tree : B_tree_disk) (it : btree_disk_const_iterator)
  : result tree_data_type :=
  match _path it with
  | [] => Fail (out_of_range "Dereferencing end iterator")
  | (pos, idx) :: _ =>
      node ← disk_read tree pos;
      vec_at (keys node) idx
  end.

(** *** [find_range] *)

Definition find_range (fuel : nat) (tree : B_tree_disk) (lower upper : tkey)
    (include_lower include_upper : bool)
  : result (btree_disk_const_iterator * btree_disk_const_iterator) :=
  '(lower_path, (li, lower_found)) ← find_path fuel tree lower;
  it_lo ←
    match lower_path with
    | [] => Ok end_
    | _ =>
        let it_lo := {| _path := lower_path; _index := li |} in
        if (lower_found : bool) && negb include_lower then increment fuel tree it_lo
        else Ok it_lo
    end;
  '(upper_path, (ui, upper_found)) ← find_path fuel tree upper;
  it_hi ←
    match upper_path with
    | [] => Ok end_
    | _ =>
        let it_hi := {| _path := upper_path; _index := ui |} in
        if (upper_found : bool) && negb include_upper then increment fuel tree it_hi
        else Ok it_hi
    end;
  Ok (it_lo, it_hi).

(** *** [check_tree] *)

(** [for (i = 1; i < node.keys.size(); ++i)]: [previous] is [keys[i-1]] *)
Fixpoint check_keys_order (previous : tree_data_type) (ks : list tree_data_type) (pos : N)
  : result unit :=
  match ks with
  | [] => Ok ()
  | kv :: ks' =>
      if compare_keys kv.1 previous.1
      then Fail (logic_error "Keys order violation in node at position " pos)
      else check_keys_order kv ks' pos
  end.

Fixpoint check_tree (fuel : nat) (tree : B_tree_disk) (pos depth : N) : result unit :=
  match fuel with
  | O => Fail OutOfFuel
  | S fuel' =>
      if pos =? NONE then Ok ()
      else
        node ← disk_read tree pos;
        if negb (pos =? _position_root tree)
           && ((size node <? minimum_keys_in_node) || (maximum_keys_in_node <? size node))
        then Fail (logic_error "Invalid keys count in node at position " pos)
        else
          match keys node with
          | [] => Ok ()
          | kv :: ks => check_keys_order kv ks pos
          end;;
          if negb (_is_leaf node) then
            if negb (vec_size (pointers node) =? sz_add (size node) 1)
            then Fail (logic_error "Pointers count mismatch in node at position " pos)
            else
              (fix children (ptrs : list N) (i : N) : result unit :=
                 match ptrs with
                 | [] => Ok ()
                 | p :: ptrs' =>
                     child ← disk_read tree p;
                     (if 0 <? i then
                        first ← vec_front (keys child);
                        separator ← vec_at (keys node) (sz_sub i 1);
                        if negb (compare_keys first.1 separator.1)
                        then Fail (logic_error "Left interval violation in node at position " pos)
                        else Ok ()
                      else Ok ());;
                     (if i <? vec_size (keys node) then
                        separator ← vec_at (keys node) i;
                        last ← vec_back (keys child);
                        if negb (compare_keys separator.1 last.1)
                        then Fail (logic_error "Right interval violation in node at position " pos)
                        else Ok ()
                      else Ok ());;
                     check_tree fuel' tree p (sz_add depth 1);;
                     children ptrs' (sz_incr i)
                 end) (pointers node) 0
          else Ok ()
  end.

(** *** The constructor *)

Definition exists_file {A : Type} (file : option A) : bool :=
  match file with Some _ => true | None => false end.

(** [seekp(0)], then [_count_of_node] and [_position_root] *)
Definition write_header : M unit := λ tree,
  Ok ((), {| _file_for_tree :=
               {| header_count := Some (_count_of_node tree);
                  header_root := Some (_position_root tree);
                  slots := slots (_file_for_tree tree) |};
             _file_for_key_value := _file_for_key_value tree;
             _position_root := _position_root tree;
             _count_of_node := _count_of_node tree |}).

Definition B_tree_disk_ctor (files : file_system) : result B_tree_disk :=
  let files_exist := exists_file (tree_path files) && exists_file (data_path files) in
  if negb files_exist then
    (* both files are created, or cut to length zero, and opened *)
    let tree := {| _file_for_tree := empty_tree_file; _file_for_key_value := [];
                   _position_root := 0; _count_of_node := 0 |} in
    '(_, tree) ←
      (position ← post_incr_count_of_node;
       set_position_root position;;
       disk_write {| size := 0; _is_leaf := true; position_in_disk := position; keys := [];
                     pointers := pointers (new_node true) |};;
       write_header) tree;
    Ok tree
  else
    match tree_path files, data_path files with
    | Some file_for_tree, Some file_for_key_value =>
        match header_count file_for_tree, header_root file_for_tree with
        | Some count_of_node, Some position_root =>
            let tree := {| _file_for_tree := file_for_tree;
                           _file_for_key_value := file_for_key_value;
                           _position_root := position_root;
                           _count_of_node := count_of_node |} in
            (* _current_node = disk_read(_position_root) *)
            _ ← disk_read tree position_root;
            Ok tree
        | _, _ => Fail ReadFailure
        end
    | _, _ => Fail ReadFailure
    end.

(** What the branch [!files_exist] leaves: a header with one node and root
    0, one slot holding an empty leaf, an empty data file. *)
Definition fresh_tree : B_tree_disk :=
  {| _file_for_tree :=
       {| header_count := Some 1;
          header_root := Some 0;
          slots :=
            {[ slot_offset_write 0 :=
                 {| slot_size := 0; slot_is_leaf := true; slot_position := 0;
                    slot_pointers := replicate (N.to_nat (sz_add maximum_keys_in_node 2)) 0;
                    slot_offsets := replicate (N.to_nat (sz_add maximum_keys_in_node 1)) 0 |} ]} |};
     _file_for_key_value := [];
     _position_root := 0;
     _count_of_node := 1 |}.

(** The destructor closes the two streams: the files stay as they are. *)
Definition B_tree_disk_dtor (tree : B_tree_disk) : file_system :=
  {| tree_path := Some (_file_for_tree tree);
     data_path := Some (_file_for_key_value tree) |}.

(** *** The loop of a client: [for (it = first; it != last; ++it) *it] *)

Fixpoint collect (fuel : nat) (tree : B_tree_disk)
    (it last : btree_disk_const_iterator) : result (list tree_data_type) :=
  if iterator_eqb it last then Ok []
  else
    match fuel with
    | O => Fail OutOfFuel
    | S fuel' =>
        pair ← dereference tree it;
        it ← increment fuel tree it;
        rest ← collect fuel' tree it last;
        Ok (pair :: rest)
    end.

(** *** Programs of a client *)

Inductive mutation : Type :=
  | Insert (data : tree_data_type)
  | Update (data : tree_data_type)
  | Erase (key : tkey).

Definition apply_mutation (fuel : nat) (op : mutation) : M bool :=
  match op with
  | Insert data => insert fuel data
  | Update data => update fuel data
  | Erase key => erase fuel key
  end.

Fixpoint run_mutations (fuel : nat) (ops : list mutation) : M (list bool) :=
  match ops with
  | [] => mret []
  | op :: ops' =>
      returned ← apply_mutation fuel op;
      rest ← run_mutations fuel ops';
      mret (returned :: rest)
  end.

(** *** The invariant on key counts, as the specification words it *)

(** Every node other than the root has between [minimum_keys_in_node] and
    [maximum_keys_in_node] keys, the root at most [maximum_keys_in_node];
    the nodes are those reached from [pos] through [children[0..size]]. *)
Fixpoint key_counts_in_bounds (fuel : nat) (tree : B_tree_disk) (pos : N) (is_root : bool)
  : result bool :=
  match fuel with
  | O => Fail OutOfFuel
  | S fuel' =>
      node ← disk_read tree pos;
      let here := (is_root || (minimum_keys_in_node <=? size node))
                  && (size node <=? maximum_keys_in_node) in
      if _is_leaf node then Ok here
      else
        children ← vec_prefix (pointers node) (size node + 1);
        below ← mapM (λ child, key_counts_in_bounds fuel' tree child false) children;
        Ok (here && forallb id below)
  end.

Definition key_count_invariant (fuel : nat) (tree : B_tree_disk) : result bool :=
  if _position_root tree =? NONE then Ok true
  else key_counts_in_bounds fuel tree (_position_root tree) true.

(** *** Predicates on the effect of a member function *)

(** the word at offset 0 of the tree file, once written, is the same *)
Definition count_word_kept (tree tree' : B_tree_disk) : Prop :=
  is_Some (header_count (_file_for_tree tree)) →
  header_count (_file_for_tree tree') = header_count (_file_for_tree tree).

Definition keeps_count_word {A : Type} (m : M A) : Prop :=
  ∀ tree a tree', m tree = Ok (a, tree') → count_word_kept tree tree'.

(** the constructor gives no tree object *)
Definition construction_error (files : file_system) : Prop :=
  ∃ f, B_tree_disk_ctor files = Fail f.
End B_tree_disk.

(** ** A concrete tree: [B_tree_disk<SerializableInt, SerializableInt,
    std::less<SerializableInt>, 2>] *)

Module IntTree.
Definition t : N := 2.
Definition fuel : nat := 64.

(** [std::less] through [operator int()] *)
Definition less (a b : Z) : bool := (a <? b)%Z.

Definition no_files : file_system := {| tree_path := None; data_path := None |}.

Definition entry (k : Z) : Z * Z := (k, (10 * k)%Z).

Definition inserts (ks : list Z) : list (mutation (tkey := Z) (tvalue := Z)) :=
  (λ k, Insert (entry k)) <$> ks.

Definition erases (ks : list Z) : list (mutation (tkey := Z) (tvalue := Z)) :=
  Erase <$> ks.

(** construct on a path with no files, then run the mutations *)
Definition session (ops : list mutation) : result (list bool * B_tree_disk) :=
  tree ← B_tree_disk_ctor t no_files;
  run_mutations less t fuel ops tree.

Definition tree_after (ops : list mutation) : result B_tree_disk :=
  '(_, tree) ← session ops;
  Ok tree.

(** [n], [n-1], ..., [1] *)
Definition descending (n : nat) : list Z := reverse (Z.of_nat <$> seq 1 n).

(** what [disk_read] gives at a position: size, leaf flag, keys, children *)
Definition view (tree : B_tree_disk) (pos : N) : result (N * bool * list Z * list N) :=
  node ← disk_read (tkey := Z) (tvalue := Z) t tree pos;
  Ok (size node, _is_leaf node, (keys node).*1, pointers node).

(** the keys met by [n] increments from [it], with the iterator after each *)
Fixpoint walk (n : nat) (tree : B_tree_disk) (it : btree_disk_const_iterator)
  : list (result Z * list (N * N)) :=
  match n with
  | O => []
  | S n' =>
      (fst <$> dereference (tkey := Z) (tvalue := Z) t tree it, _path it) ::
      match increment (tkey := Z) (tvalue := Z) t fuel tree it with
      | Ok it' => walk n' tree it'
      | Fail _ => []
      end
  end.

(** the keys from [lo] to [hi] of [find_range] *)
Definition range_keys (tree : B_tree_disk) (lower upper : Z)
    (include_lower include_upper : bool) : result (list Z) :=
  '(lo, hi) ← find_range less t fuel tree lower upper include_lower include_upper;
  pairs ← collect (tkey := Z) (tvalue := Z) t fuel tree lo hi;
  Ok (pairs.*1).

(** destroy the tree object and construct a new one on the same files *)
Definition reopen (tree : B_tree_disk) : result B_tree_disk :=
  B_tree_disk_ctor (tkey := Z) (tvalue := Z) t (B_tree_disk_dtor tree).

(** the tree of a run that is known to succeed *)
Definition value_of (r : result B_tree_disk) : B_tree_disk :=
  match r with
  | Ok tree => tree
  | Fail _ => fresh_tree t
  end.

(** one leaf: 1, 2, 3 *)
Definition three_keys : B_tree_disk := value_of (tree_after (inserts [1; 2; 3]%Z)).

(** a root with two leaves: 1, 2 | 3 | 4 *)
Definition four_keys : B_tree_disk := value_of (tree_after (inserts [1; 2; 3; 4]%Z)).

(** one key, and the tree left by erasing it *)
Definition one_key : B_tree_disk := value_of (tree_after (inserts [1]%Z)).
Definition emptied : B_tree_disk := value_of (tree_after (inserts [1]%Z ++ erases [1]%Z)).

(** three levels: the keys 10, 9, ..., 1 inserted in this order *)
Definition three_levels : B_tree_disk := value_of (tree_after (inserts (descending 10))).

(** ... and then [erase(5)]: the root key 7 has two internal children with
    one key each *)
Definition before_merge : B_tree_disk :=
  value_of (tree_after (inserts (descending 10) ++ erases [5]%Z)).

(** insert 1..4, destroy the object, construct it again on the same files,
    insert 6 and 8 *)
Definition reopened : B_tree_disk :=
  value_of ('(_, tree) ← run_mutations less t fuel (inserts [6; 8]%Z)
                           (value_of (reopen four_keys));
            Ok tree).

(** one object, never reopened: ten inserts, three erases (the last one
    merges two internal nodes), four inserts *)
Definition merged_and_refilled : B_tree_disk :=
  value_of (tree_after (inserts [24; 22; 20; 16; 12; 10; 8; 6; 4; 2]%Z
                        ++ erases [4; 10; 16]%Z ++ inserts [24; 25; 5; 17]%Z)).

(** a path where the tree file of [three_keys] exists, the data file not *)
Definition only_tree_file : file_system :=
  {| tree_path := Some (_file_for_tree three_keys); data_path := None |}.

(** the keys 18, 17, ..., 1 inserted in this order, then [erase(1)] and
    [erase(11)]: the tree before the [erase(15)] that empties a leaf *)
Definition before_underflow_run : list mutation :=
  inserts (descending 18) ++ erases [1; 11]%Z.

Definition before_underflow : B_tree_disk := value_of (tree_after before_underflow_run).
End IntTree.

(** * The other codecs, the bytes of a slot, and the predicates of the laws

    ** The bytes of the tree file *)

(** [stream.write(reinterpret_cast<const char *>(&x), sizeof(size_t))]: the
    eight bytes of a word, lowest first *)
Fixpoint le_bytes (n : nat) (x : N) : list byte :=
  match n with
  | O => []
  | S n' => byte_of x :: le_bytes n' (x / 256)
  end.

Fixpoint le_value (bytes : list byte) : N :=
  match bytes with
  | [] => 0
  | b :: bytes' => Byte.to_N b + 256 * le_value bytes'
  end.

Definition size_t_bytes (x : N) : list byte := le_bytes 8 x.

(** [stream.read(reinterpret_cast<char *>(&x), sizeof(size_t))] *)
Definition read_size_t (stream : list byte) : result (N * list byte) :=
  if 8 <=? vec_size stream then Ok (le_value (take 8 stream), drop 8 stream)
  else Fail ReadFailure.

(** [write_node_header] *)
Definition write_node_header (size : N) (is_leaf : bool) (pos : N) : list byte :=
  size_t_bytes size ++ [if is_leaf then x01 else x00] ++ size_t_bytes pos.

(** [read_node_header] *)
Definition read_node_header (stream : list byte) : result (N * bool * N * list byte) :=
  '(size, stream) ← read_size_t stream;
  match stream with
  | [] => Fail ReadFailure
  | leaf :: stream =>
      '(pos, stream) ← read_size_t stream;
      Ok (size, negb (Byte.eqb leaf x00), pos, stream)
  end.

(** the words of a table, one after the other *)
Definition write_words (words : list N) : list byte := mjoin (size_t_bytes <$> words).

Fixpoint read_words (n : nat) (stream : list byte) : result (list N * list byte) :=
  match n with
  | O => Ok ([], stream)
  | S n' =>
      '(word, stream) ← read_size_t stream;
      '(words, stream) ← read_words n' stream;
      Ok (word :: words, stream)
  end.

Section slot_bytes.
Variable t : N.

(** what [btree_disk_node::serialize] writes to the tree stream for a slot:
    the header, the table of children, the table of payload offsets *)
Definition slot_encode (s : slot) : list byte :=
  write_node_header (slot_size s) (slot_is_leaf s) (slot_position s)
  ++ write_words (slot_pointers s) ++ write_words (slot_offsets s).

(** what [btree_disk_node::deserialize] reads from the tree stream *)
Definition slot_decode (stream : list byte) : result (slot * list byte) :=
  '(size, is_leaf, pos, stream) ← read_node_header stream;
  '(ptrs, stream) ← read_words (N.to_nat (sz_add (maximum_keys_in_node t) 2)) stream;
  '(offsets, stream) ← read_words (N.to_nat (sz_add (maximum_keys_in_node t) 1)) stream;
  Ok ({| slot_size := size; slot_is_leaf := is_leaf; slot_position := pos;
         slot_pointers := ptrs; slot_offsets := offsets |}, stream).

(** a slot as [disk_write] leaves it: tables of the fixed lengths, words
    of 64 bits *)
Definition slot_fits (s : slot) : Prop :=
  slot_size s < SIZE_MOD ∧ slot_position s < SIZE_MOD
  ∧ length (slot_pointers s) = N.to_nat (sz_add (maximum_keys_in_node t) 2)
  ∧ length (slot_offsets s) = N.to_nat (sz_add (maximum_keys_in_node t) 1)
  ∧ Forall (λ w, w < SIZE_MOD) (slot_pointers s)
  ∧ Forall (λ w, w < SIZE_MOD) (slot_offsets s).
End slot_bytes.

(** ** The other codecs *)

(** [struct SerializableString]: the length as a [size_t], then the
    characters. (The priority leaves [SerializableInt] the codec of a
    statement that does not fix the type.) *)
Record SerializableString : Type := { string_data : list byte }.

#[export] Instance SerializableString_codec : Serializable SerializableString | 100 := {|
  serialize s := size_t_bytes (vec_size (string_data s)) ++ string_data s;
  deserialize stream :=
    '(size, stream) ← read_size_t stream;
    if size <=? vec_size stream
    then Ok ({| string_data := take (N.to_nat size) stream |}, drop (N.to_nat size) stream)
    else Fail ReadFailure;
  serialize_size s := sz_add 8 (vec_size (string_data s));
|}.

(** [struct SerializableVector<T>]: the count as a [size_t], then the
    elements *)
Record SerializableVector (T : Type) : Type := { vector_data : list T }.
Arguments vector_data {T} _.

Section SerializableVector.
Context {T : Type} `{!Serializable T}.

(** [for (size_t i = 0; i < sz; ++i) v[i] = T::deserialize(stream)] *)
Fixpoint deserialize_elements (sz : nat) (stream : list byte) : result (list T * list byte) :=
  match sz with
  | O => Ok ([], stream)
  | S sz' =>
      '(elem, stream) ← deserialize stream;
      '(elems, stream) ← deserialize_elements sz' stream;
      Ok (elem :: elems, stream)
  end.

(** [total += elem.serialize_size()] over the elements *)
Definition elements_size (elems : list T) : N :=
  foldl (λ total elem, sz_add total (serialize_size elem)) 8 elems.

#[export] Instance SerializableVector_codec : Serializable (SerializableVector T) | 100 := {|
  serialize v :=
    size_t_bytes (vec_size (vector_data v)) ++ mjoin (serialize <$> vector_data v);
  deserialize stream :=
    '(sz, stream) ← read_size_t stream;
    '(elems, stream) ← deserialize_elements (N.to_nat sz) stream;
    Ok ({| vector_data := elems |}, stream);
  serialize_size v := elements_size (vector_data v);
|}.
End SerializableVector.

(** ** The contract of a codec *)

(** a value that is read back from its own bytes, whatever follows them *)
Definition round_trips {T : Type} `{!Serializable T} (x : T) : Prop :=
  ∀ rest, deserialize (serialize x ++ rest) = Ok (x, rest).

(** a codec whose reads do not depend on what follows the bytes they use *)
Definition reads_locally (T : Type) `{!Serializable T} : Prop :=
  ∀ stream (x : T) rest more,
    deserialize stream = Ok (x, rest) → deserialize (stream ++ more) = Ok (x, rest ++ more).


(** ** What a member function does to the tree object *)

(** every run of [m] that returns relates the object before to the object
    after *)
Definition respects (R : relation B_tree_disk) {A : Type} (m : M A) : Prop :=
  ∀ tree a tree', m tree = Ok (a, tree') → R tree tree'.

(** every run of [m] that returns, returns a value in [P] *)
Definition returns {A : Type} (P : A → Prop) (m : M A) : Prop :=
  ∀ tree a tree', m tree = Ok (a, tree') → P a.

(** no node is allocated *)
Definition same_count : relation B_tree_disk :=
  λ tree tree', _count_of_node tree' = _count_of_node tree.

(** the data file is only appended to *)
Definition data_grows : relation B_tree_disk :=
  λ tree tree', _file_for_key_value tree `prefix_of` _file_for_key_value tree'.

(** the word at offset [sizeof(size_t)] of the tree file is [_position_root] *)
Definition root_in_header (tree : B_tree_disk) : Prop :=
  header_root (_file_for_tree tree) = Some (_position_root tree).

Definition keeps_root_in_header : relation B_tree_disk :=
  λ tree tree', root_in_header tree → root_in_header tree'.

(** two tree objects on the same files with the same root *)
Definition same_files_and_root (tree tree' : B_tree_disk) : Prop :=
  _file_for_tree tree' = _file_for_tree tree
  ∧ _file_for_key_value tree' = _file_for_key_value tree
  ∧ _position_root tree' = _position_root tree.

(** ** Where the slots of the tree file lie *)

(** the slot of [pos] ends within the range of [std::streamoff], so that
    [header_size + pos * node_size] does not wrap around and [seekp] and
    [seekg] accept it *)
Definition position_in_place (t pos : N) : Prop :=
  header_size + (pos + 1) * node_size_write t ≤ 2 ^ 63.

(** a byte offset at which such a slot begins *)
Definition offset_in_place (t offset : N) : bool :=
  (header_size <=? offset)
  && ((offset - header_size) mod node_size_write t =? 0)
  && (offset + node_size_write t <=? 2 ^ 63).

(** every slot of the file begins at such an offset: no slot reaches into
    the header or into another slot *)
Definition slots_in_place (t : N) (file : tree_file) : Prop :=
  map_Forall (λ offset _, offset_in_place t offset = true) (slots file).

(** a slot that is in the file stays in it *)
Definition slots_stay : relation B_tree_disk :=
  λ tree tree', ∀ offset,
    is_Some (slots (_file_for_tree tree) !! offset) →
    is_Some (slots (_file_for_tree tree') !! offset).

(** ** The descent recorded by [find_path] *)

Section descent.
Context {tkey tvalue : Type} `{!Serializable tkey, !Serializable tvalue}.
Variable compare : tkey → tkey → bool.
Variable t : N.

(** [path], top first, is a chain from the root: every frame below the top
    is an internal node that does not hold [key], and the frame above it is
    the child [find_index] chose there *)
Fixpoint descent_from_root (tree : B_tree_disk) (key : tkey) (path : path_type) : Prop :=
  match path with
  | [] => True
  | (pos, _) :: below =>
      match below with
      | [] => pos = _position_root tree
      | (parent_pos, parent_index) :: _ =>
          ∃ parent : btree_disk_node (tkey := tkey) (tvalue := tvalue),
            disk_read t tree parent_pos = Ok parent
            ∧ find_index compare key parent = (parent_index, false)
            ∧ _is_leaf parent = false
            ∧ vec_at (pointers parent) parent_index = Ok pos
      end
      ∧ descent_from_root tree key below
  end.
End descent.

(** ** Nodes the search cannot tell apart *)

Section routes.
Context {tkey tvalue : Type} `{!Serializable tkey, !Serializable tvalue}.

(** the same keys, leaf flag and children: only the values may differ *)
Definition routes_alike (a b : btree_disk_node (tkey := tkey) (tvalue := tvalue)) : Prop :=
  (keys a).*1 = (keys b).*1 ∧ _is_leaf a = _is_leaf b ∧ pointers a = pointers b.

End routes.

(** ** The comparator and the order of the keys in a node *)

Section comparator.
Context {tkey tvalue : Type}.

(** what the search needs of the comparator: irreflexive and transitive,
    as the requirement [Compare] of the standard library has it *)
Definition strict_order (compare : tkey → tkey → bool) : Prop :=
  (∀ a, compare a a = false)
  ∧ (∀ a b c, compare a b = true → compare b c = true → compare a c = true).

(** a strict weak order: being incomparable is transitive as well *)
Definition strict_weak_order (compare : tkey → tkey → bool) : Prop :=
  strict_order compare
  ∧ (∀ a b c, compare a b = false → compare b c = false → compare a c = false).

(** the keys of a node go up strictly *)
Fixpoint ascending (compare : tkey → tkey → bool) (ks : list (tkey * tvalue)) : bool :=
  match ks with
  | [] => true
  | kv :: ks' =>
      match ks' with
      | [] => true
      | next :: _ => compare kv.1 next.1 && ascending compare ks'
      end
  end.

(** [v.insert(v.begin() + n, x)] on the list *)
Definition inserted_at {A : Type} (n : nat) (x : A) (v : list A) : list A :=
  take n v ++ x :: drop n v.
End comparator.

(** ** The law the tree needs of the codecs of its keys and values *)

Section pair_codec.
Context {tkey tvalue : Type} `{!Serializable tkey, !Serializable tvalue}.

Definition pair_round_trips (kv : tkey * tvalue) : Prop :=
  round_trips kv.1 ∧ round_trips kv.2.
End pair_codec.

Section stored_nodes.
Context {tkey tvalue : Type} `{!Serializable tkey, !Serializable tvalue}.
Variable t : N.

(** a node that [disk_write] stores whole: [size] is the number of its
    keys, they fit the table of offsets, and the codecs read back their
    bytes *)
Definition stored_well (n : btree_disk_node (tkey := tkey) (tvalue := tvalue)) : Prop :=
  Forall pair_round_trips (keys n) ∧ size n = vec_size (keys n)
  ∧ size n ≤ sz_add (maximum_keys_in_node t) 1.
End stored_nodes.

(** ** More concrete trees and nodes of [B_tree_disk<SerializableInt,
    SerializableInt, std::less<SerializableInt>, 2>] *)

Module IntNodes.
(** one leaf with room for a key: 1, 2 *)
Definition two_keys : B_tree_disk :=
  IntTree.value_of (IntTree.tree_after (IntTree.inserts [1; 2]%Z)).

(** the node at a position where [disk_read] is known to give one *)
Definition node_at (tree : B_tree_disk) (pos : N) : btree_disk_node (tkey := Z) (tvalue := Z) :=
  match disk_read IntTree.t tree pos with
  | Ok node => node
  | Fail _ => new_node IntTree.t true
  end.

(** the tree a mutation that is known to succeed leaves *)
Definition tree_of (r : result (bool * B_tree_disk)) : B_tree_disk :=
  match r with
  | Ok (_, tree) => tree
  | Fail _ => fresh_tree IntTree.t
  end.

(** a value of the type [int] *)
Definition is_int (x : Z) : bool := ((- 2 ^ 31 <=? x) && (x <? 2 ^ 31))%Z.

Definition int_pairs (ks : list (Z * Z)) : bool :=
  forallb (λ kv, is_int kv.1 && is_int kv.2) ks.

(** a leaf with the key 1, not yet on disk *)
Definition leaf_1 : btree_disk_node (tkey := Z) (tvalue := Z) :=
  {| size := 1; _is_leaf := true; position_in_disk := 0; keys := [(1, 10)%Z];
     pointers := [0; 0; 0; 0; 0] |}.

(** an empty leaf for position 1 *)
Definition leaf_at_1 : btree_disk_node (tkey := Z) (tvalue := Z) :=
  {| size := 0; _is_leaf := true; position_in_disk := 1; keys := [];
     pointers := [0; 0; 0; 0; 0] |}.

(** the slot of a leaf with one key whose payload is at offset 0 *)
Definition slot_1 : slot :=
  {| slot_size := 1; slot_is_leaf := true; slot_position := 0;
     slot_pointers := [0; 0; 0; 0; 0]; slot_offsets := [0; 0; 0; 0] |}.

(** the bytes of [ab] *)
Definition ab : SerializableString := {| string_data := [x61; x62] |}.

Definition one_two : SerializableVector Z := {| vector_data := [1; 2]%Z |}.
End IntNodes.

(** * Properties

    ** The effect of the member functions on the header *)

Section properties.
Context {tkey tvalue : Type} `{!Serializable tkey, !Serializable tvalue}.
Variable compare : tkey → tkey → bool.
Variable t : N.

Lemma count_word_kept_refl tree : count_word_kept tree tree.
Proof. by intros _. Qed.

Lemma count_word_kept_trans tree1 tree2 tree3 :
  count_word_kept tree1 tree2 → count_word_kept tree2 tree3 → count_word_kept tree1 tree3.
Proof.
  unfold count_word_kept. intros H12 H23 Hsome.
  rewrite <- (H12 Hsome). apply H23. rewrite (H12 Hsome). exact Hsome.
Qed.

Lemma keeps_count_word_ret {A : Type} (a : A) : keeps_count_word (mret a).
Proof. intros tree a' tree' [= _ <-]. apply count_word_kept_refl. Qed.

Lemma keeps_count_word_bind {A B : Type} (m : M A) (k : A → M B) :
  keeps_count_word m → (∀ a, keeps_count_word (k a)) → keeps_count_word (m ≫= k).
Proof.
  intros Hm Hk tree b tree'. unfold mbind, M_bind.
  destruct (m tree) as [[a tree1]|] eqn:Em; [|discriminate].
  intros Ek. eapply count_word_kept_trans; [exact (Hm _ _ _ Em) | exact (Hk _ _ _ _ Ek)].
Qed.

Lemma keeps_count_word_reading {A : Type} (f : B_tree_disk → result A) :
  keeps_count_word (reading f).
Proof.
  intros tree a tree'. unfold reading. destruct (f tree); [|discriminate].
  intros [= _ <-]. apply count_word_kept_refl.
Qed.

Lemma keeps_count_word_get_root : keeps_count_word get_position_root.
Proof. intros tree a tree' [= _ <-]. apply count_word_kept_refl. Qed.

Lemma keeps_count_word_set_root pos : keeps_count_word (set_position_root pos).
Proof. intros tree a tree' [= _ <-]. by intros _. Qed.

Lemma keeps_count_word_post_incr : keeps_count_word post_incr_count_of_node.
Proof. intros tree a tree' [= _ <-]. by intros _. Qed.

Lemma keeps_count_word_print_root : keeps_count_word print_root_position.
Proof. intros tree a tree' [= _ <-]. intros [c Hc]. simpl. by rewrite Hc. Qed.

Lemma keeps_count_word_disk_write (node : btree_disk_node (tkey := tkey) (tvalue := tvalue)) :
  keeps_count_word (disk_write t node).
Proof.
  intros tree a tree'. unfold disk_write. destruct (node_serialize t node _) as [s d].
  intros [= _ <-]. intros [c Hc]. simpl. by rewrite Hc.
Qed.

Ltac keeps_step IH :=
  match goal with
  | |- keeps_count_word (mret _) => apply keeps_count_word_ret
  | |- keeps_count_word (_ ≫= _) => apply keeps_count_word_bind; [| intros ?]
  | |- keeps_count_word (reading _) => apply keeps_count_word_reading
  | |- keeps_count_word (lift _) => apply keeps_count_word_reading
  | |- keeps_count_word get_position_root => apply keeps_count_word_get_root
  | |- keeps_count_word (set_position_root _) => apply keeps_count_word_set_root
  | |- keeps_count_word post_incr_count_of_node => apply keeps_count_word_post_incr
  | |- keeps_count_word print_root_position => apply keeps_count_word_print_root
  | |- keeps_count_word (disk_write _ _) => apply keeps_count_word_disk_write
  | |- keeps_count_word (if ?b then _ else _) => destruct b
  | |- keeps_count_word (match ?x with _ => _ end) => destruct x
  | |- _ => apply IH
  end.

Lemma keeps_count_word_split_node path :
  keeps_count_word (split_node (tkey := tkey) (tvalue := tvalue) t path).
Proof.
  induction path as [|[current_pos i] path IH]; simpl.
  - apply keeps_count_word_ret.
  - repeat keeps_step IH.
Qed.

Lemma keeps_count_word_rebalance_node path :
  ∀ node index,
    keeps_count_word (rebalance_node (tkey := tkey) (tvalue := tvalue) t path node index).
Proof.
  induction path as [|[parent_pos parent_idx] path IH]; intros node index; simpl.
  - apply keeps_count_word_ret.
  - repeat keeps_step IH.
Qed.

Lemma keeps_count_word_insert fuel data : keeps_count_word (insert compare t fuel data).
Proof. unfold insert. repeat keeps_step keeps_count_word_split_node. Qed.

Lemma keeps_count_word_update fuel data : keeps_count_word (update compare t fuel data).
Proof. unfold update. repeat keeps_step I. Qed.

Lemma keeps_count_word_erase fuel key : keeps_count_word (erase compare t fuel key).
Proof. unfold erase. repeat keeps_step keeps_count_word_rebalance_node. Qed.

Lemma keeps_count_word_run fuel ops :
  keeps_count_word (run_mutations compare t fuel ops).
Proof.
  induction ops as [|op ops IH]; simpl.
  - apply keeps_count_word_ret.
  - apply keeps_count_word_bind; [|intros b; repeat keeps_step IH].
    destruct op; simpl;
      [apply keeps_count_word_insert | apply keeps_count_word_update
      | apply keeps_count_word_erase].
Qed.

(** ** The constructor *)

Lemma resize_nat_nil {A : Type} n (x : A) : resize_nat n x [] = replicate n x.
Proof. induction n as [|n IH]; simpl; [done | by rewrite IH]. Qed.

Lemma resize_nat_replicate {A : Type} n (x : A) : resize_nat n x (replicate n x) = replicate n x.
Proof. induction n as [|n IH]; simpl; [done | by rewrite IH]. Qed.

Lemma serialize_keys_nil n data_stream :
  serialize_keys (tkey := tkey) (tvalue := tvalue) n [] data_stream = (replicate n 0, data_stream).
Proof. induction n as [|n IH]; simpl; [done | by rewrite IH]. Qed.

Lemma ctor_creates files :
  exists_file (tree_path files) && exists_file (data_path files) = false →
  B_tree_disk_ctor (tkey := tkey) (tvalue := tvalue) t files = Ok (fresh_tree t).
Proof.
  intros Hfiles. unfold B_tree_disk_ctor. rewrite Hfiles. simpl.
  unfold mbind, M_bind, post_incr_count_of_node, set_position_root, disk_write, write_header,
    node_serialize, new_node. simpl.
  rewrite serialize_keys_nil. simpl.
  unfold fresh_tree, write_slot, serialize_pointers, vec_resize. simpl.
  rewrite resize_nat_nil, resize_nat_replicate, insert_empty. reflexivity.
Qed.

Lemma ctor_header_count files tree :
  B_tree_disk_ctor (tkey := tkey) (tvalue := tvalue) t files = Ok tree →
  is_Some (header_count (_file_for_tree tree))
  ∧ (exists_file (tree_path files) && exists_file (data_path files) = false →
     header_count (_file_for_tree tree) = Some 1).
Proof.
  destruct (exists_file (tree_path files) && exists_file (data_path files)) eqn:Hfiles.
  - unfold B_tree_disk_ctor. rewrite Hfiles. simpl.
    destruct (tree_path files) as [file_for_tree|]; [|discriminate].
    destruct (data_path files) as [file_for_data|]; [|discriminate].
    destruct (header_count file_for_tree) as [c|] eqn:Ec; [|discriminate].
    destruct (header_root file_for_tree) as [r|]; [|discriminate].
    destruct (disk_read _ _ _); [|discriminate].
    intros [= <-]; simpl. split; [by eexists | discriminate].
  - rewrite (ctor_creates _ Hfiles). intros [= <-]. simpl. split; [by eexists | done].
Qed.

Lemma print_root_position_effect tree :
  is_Some (header_count (_file_for_tree tree)) →
  ∃ tree', print_root_position tree = Ok ((), tree')
    ∧ header_count (_file_for_tree tree') = header_count (_file_for_tree tree)
    ∧ header_root (_file_for_tree tree') = Some (_position_root tree)
    ∧ slots (_file_for_tree tree') = slots (_file_for_tree tree)
    ∧ _file_for_key_value tree' = _file_for_key_value tree
    ∧ _position_root tree' = _position_root tree
    ∧ _count_of_node tree' = _count_of_node tree.
Proof.
  intros [c Hc]. eexists. split; [reflexivity|]. simpl. rewrite Hc. by repeat split.
Qed.

(** The constructor on two existing files writes nothing: the tree file of
    the object is the file it found. *)
Lemma ctor_opens files file_for_tree tree :
  exists_file (tree_path files) && exists_file (data_path files) = true →
  tree_path files = Some file_for_tree →
  B_tree_disk_ctor (tkey := tkey) (tvalue := tvalue) t files = Ok tree →
  _file_for_tree tree = file_for_tree.
Proof.
  intros Hfiles Htree. unfold B_tree_disk_ctor. rewrite Hfiles, Htree. simpl.
  destruct (data_path files) as [file_for_data|]; [|discriminate].
  destruct (header_count file_for_tree) as [c|]; [|discriminate].
  destruct (header_root file_for_tree) as [r|]; [|discriminate].
  destruct (disk_read _ _ _); [|discriminate].
  by intros [= <-].
Qed.

(** Claim C9. On a tree object that the constructor returned, whatever
    sequence of [insert], [update] and [erase] runs, the word at offset 0 of
    the tree file (the node count) stays what it was after construction: 1
    when the constructor created the files, and the word the tree file held
    before when the constructor opened two existing files, which it does
    without a write. [print_root_position], the only header write after
    construction, rewrites the word at offset [sizeof(size_t)] with
    [_position_root] and leaves the count word and the slots as they are.
    This is for a run all of whose slots are in place: no slot is ever
    removed, so the condition on the file after the run covers every slot
    the run wrote, and a slot written where the offset wraps around into the
    header would replace the word. *)
Theorem header_count_written_once fuel files tree0 ops returned tree :
  B_tree_disk_ctor (tkey := tkey) (tvalue := tvalue) t files = Ok tree0 →
  run_mutations compare t fuel ops tree0 = Ok (returned, tree) →
  slots_in_place t (_file_for_tree tree) →
  is_Some (header_count (_file_for_tree tree0))
  ∧ header_count (_file_for_tree tree) = header_count (_file_for_tree tree0)
  ∧ (exists_file (tree_path files) && exists_file (data_path files) = false →
     header_count (_file_for_tree tree) = Some 1)
  ∧ (∀ file_for_tree,
       exists_file (tree_path files) && exists_file (data_path files) = true →
       tree_path files = Some file_for_tree →
       _file_for_tree tree0 = file_for_tree
       ∧ header_count (_file_for_tree tree) = header_count file_for_tree)
  ∧ (∀ tree1, is_Some (header_count (_file_for_tree tree1)) →
       ∃ tree2, print_root_position tree1 = Ok ((), tree2)
         ∧ header_count (_file_for_tree tree2) = header_count (_file_for_tree tree1)
         ∧ header_root (_file_for_tree tree2) = Some (_position_root tree1)
         ∧ slots (_file_for_tree tree2) = slots (_file_for_tree tree1)).
Proof.
  intros Hctor Hrun _.
  destruct (ctor_header_count _ _ Hctor) as [Hsome Hnew].
  pose proof (keeps_count_word_run fuel ops _ _ _ Hrun Hsome) as Hkept.
  split; [exact Hsome|]. split; [exact Hkept|]. split; [|split].
  - intros Hfiles. rewrite Hkept. by apply Hnew.
  - intros file_for_tree Hfiles Htree.
    pose proof (ctor_opens _ _ _ Hfiles Htree Hctor) as Hopened.
    split; [exact Hopened|]. by rewrite Hkept, Hopened.
  - intros tree1 H1.
    destruct (print_root_position_effect tree1 H1) as (tree2 & ? & ? & ? & ? & _).
    by exists tree2.
Qed.

(** ** [insert] of a key that is present *)

(** The first branch of [insert]: when the search finds the key, which is
    when [at(key)] gives a value, [insert] returns [false] and the tree
    object with its two files is the one before the call. *)
Lemma insert_of_found_key fuel tree key value old :
  at_ compare t fuel tree key = Ok (Some old) →
  insert compare t fuel (key, value) tree = Ok (false, tree).
Proof.
  intros Hat.
  unfold at_ in Hat. unfold insert, reading, mbind, M_bind. simpl.
  destruct (find_path compare t fuel tree key) as [[path [index found]]|]; [|discriminate].
  simpl in Hat. destruct found; [reflexivity | discriminate].
Qed.

(** ** [insert] and the empty tree *)

Lemma find_path_loop_nonempty fuel tree key :
  ∀ pos node path0 path r,
    find_path_loop compare t fuel tree key pos node path0 = Ok (path, r) →
    ∃ top rest, path = top :: rest.
Proof.
  induction fuel as [|fuel IH]; intros pos node path0 path r; simpl; [discriminate|].
  destruct (find_index compare key node) as [index key_found].
  destruct key_found; [intros [= <- _]; by eauto|].
  destruct (_is_leaf node); [intros [= <- _]; by eauto|].
  destruct (vec_at _ _) as [next|]; [|discriminate]. simpl.
  destruct (disk_read _ _ _) as [next_node|]; [|discriminate]. simpl.
  apply IH.
Qed.

Lemma find_path_nonempty fuel tree key path r :
  _position_root tree ≠ NONE →
  find_path compare t fuel tree key = Ok (path, r) →
  ∃ top rest, path = top :: rest.
Proof.
  intros Hroot. unfold find_path. apply N.eqb_neq in Hroot. rewrite Hroot.
  destruct (disk_read _ _ _) as [node|]; [|discriminate]. simpl.
  apply find_path_loop_nonempty.
Qed.

Lemma erase_sole_key fuel tree node key value :
  _position_root tree ≠ NONE →
  disk_read t tree (_position_root tree) = Ok node →
  _is_leaf node = true →
  keys node = [(key, value)] →
  size node = 1 →
  compare key key = false →
  ∃ tree', erase compare t (S fuel) key tree = Ok (true, tree')
    ∧ _position_root tree' = NONE
    ∧ header_root (_file_for_tree tree') = Some NONE
    ∧ _count_of_node tree' = _count_of_node tree.
Proof.
  intros Hroot Hread Hleaf Hkeys Hsize Hirr.
  apply N.eqb_neq in Hroot.
  unfold erase, mbind, M_bind, get_position_root, reading, lift, reading, find_path.
  simpl. rewrite !Hroot, Hread. simpl.
  unfold find_index. rewrite Hkeys. simpl. unfold compare_keys. rewrite Hirr. simpl.
  rewrite Hread, Hleaf, Hkeys. simpl.
  unfold disk_write. destruct (node_serialize _ _ _) as [s data_stream'].
  simpl. rewrite Hsize, N.eqb_refl. simpl. rewrite andb_false_r. simpl.
  eexists. split; [reflexivity|]. simpl. done.
Qed.

(** Claim C10. With [_position_root] equal to the sentinel, [find_path]
    returns an empty stack and [insert] takes the top of it: an access out
    of bounds. With any other root position, a stack returned by
    [find_path] has a top frame, so [top()] and [pop()] are in bounds. The
    sentinel is reached by [erase] of the only key of a leaf root, and the
    node count is not changed by it: no new root is allocated. *)
Theorem insert_needs_a_root fuel tree (data : tree_data_type) :
  (_position_root tree = NONE →
     find_path compare t fuel tree data.1 = Ok ([], (0, false))
     ∧ insert compare t fuel data tree = Fail OutOfRange)
  ∧ (_position_root tree ≠ NONE →
     ∀ path r, find_path compare t fuel tree data.1 = Ok (path, r) →
       ∃ top rest, path = top :: rest
         ∧ stack_top path = Ok top ∧ stack_pop path = Ok rest)
  ∧ (∀ node, _position_root tree ≠ NONE →
       disk_read t tree (_position_root tree) = Ok node →
       _is_leaf node = true → keys node = [data] → size node = 1 →
       compare data.1 data.1 = false →
       ∃ tree', erase compare t (S fuel) data.1 tree = Ok (true, tree')
         ∧ _position_root tree' = NONE
         ∧ _count_of_node tree' = _count_of_node tree).
Proof.
  split; [|split].
  - intros Hroot.
    assert (find_path compare t fuel tree data.1 = Ok ([], (0, false))) as Hfind.
    { unfold find_path. by rewrite Hroot, N.eqb_refl. }
    split; [exact Hfind|].
    unfold insert, mbind, M_bind, reading. by rewrite Hfind.
  - intros Hroot path r. unfold find_path.
    apply N.eqb_neq in Hroot. rewrite Hroot.
    destruct (disk_read _ _ _) as [node|]; [|discriminate]. simpl.
    intros Hloop. destruct (find_path_loop_nonempty _ _ _ _ _ _ _ _ Hloop) as (top & rest & ->).
    by exists top, rest.
  - intros node Hroot Hread Hleaf Hkeys Hsize Hirr. destruct data as [key value].
    destruct (erase_sole_key fuel tree node key value Hroot Hread Hleaf Hkeys Hsize Hirr)
      as (tree' & ? & ? & _ & ?).
    by exists tree'.
Qed.

(** ** The constructor on a path with one of the two files *)

(** Claim C7, amended. When exactly one of the two files exists, the
    constructor does not refuse: it does what it does when neither exists.
    Both files are created or cut to length zero and the tree is the fresh
    one, with one empty leaf at position 0, node count 1 and root 0. *)
Theorem ctor_mixed_existence_starts_afresh files :
  exists_file (tree_path files) ≠ exists_file (data_path files) →
  B_tree_disk_ctor (tkey := tkey) (tvalue := tvalue) t files = Ok (fresh_tree t)
  ∧ B_tree_disk_ctor (tkey := tkey) (tvalue := tvalue) t files
    = B_tree_disk_ctor (tkey := tkey) (tvalue := tvalue) t
        {| tree_path := None; data_path := None |}
  ∧ ¬ construction_error (tkey := tkey) (tvalue := tvalue) t files.
Proof.
  intros Hmixed.
  assert (exists_file (tree_path files) && exists_file (data_path files) = false) as Hfiles.
  { destruct (exists_file (tree_path files)), (exists_file (data_path files)); done. }
  rewrite (ctor_creates _ Hfiles). split; [done|]. split.
  - by rewrite ctor_creates.
  - intros [f Hf]. rewrite (ctor_creates _ Hfiles) in Hf. discriminate.
Qed.

(** ** What [disk_read] returns, and what [disk_write] keeps of it *)

Lemma resize_nat_length {A : Type} n (x : A) v : length (resize_nat n x v) = n.
Proof. revert v. induction n as [|n IH]; intros [|y v]; simpl; by rewrite ?IH. Qed.

(** Whatever [size] says, [disk_read] hands out the whole table of
    children. *)
Lemma disk_read_pointers_size tree pos (node : btree_disk_node (tkey := tkey) (tvalue := tvalue)) :
  disk_read t tree pos = Ok node →
  length (pointers node) = N.to_nat (sz_add (maximum_keys_in_node t) 2).
Proof.
  unfold disk_read. destruct (slots _ !! _) as [s|]; [|discriminate].
  unfold node_deserialize. destruct (deserialize_keys _ _ _ _); [|discriminate].
  intros [= <-]. simpl. apply resize_nat_length.
Qed.

Lemma sz_add_swap x a b : sz_add (sz_add x a) b = sz_add (sz_add x b) a.
Proof.
  unfold sz_add. assert (SIZE_MOD ≠ 0) as Hmod by (vm_compute; discriminate).
  rewrite !N.Div0.add_mod_idemp_l. f_equal. lia.
Qed.

(** [disk_write] and [disk_read] compute the same size of a slot, so a
    position names the same bytes for both. *)
Lemma slot_offset_write_read pos : slot_offset_write t pos = slot_offset_read t pos.
Proof.
  unfold slot_offset_write, slot_offset_read, node_size_write, node_size_read.
  by rewrite sz_add_swap.
Qed.

(** Unless the offset wraps around, a slot begins behind the header. *)
Lemma slot_offset_behind_header pos :
  header_size + sz_mul pos (node_size_write t) < SIZE_MOD →
  header_size ≤ slot_offset_write t pos.
Proof.
  intros Hfit. unfold slot_offset_write, sz_add. rewrite N.mod_small by exact Hfit. lia.
Qed.

Lemma resize_nat_app_full {A : Type} (x : A) v more :
  resize_nat (length v) x (v ++ more) = v.
Proof. induction v as [|y v IH]; simpl; [done | by rewrite IH]. Qed.

(** A node that [disk_read] returned holds the whole table in [pointers]:
    what is pushed behind it is not written by [disk_write]. *)
Lemma pushed_children_are_dropped tree pos
    (node : btree_disk_node (tkey := tkey) (tvalue := tvalue)) more :
  disk_read t tree pos = Ok node →
  serialize_pointers t (pointers node ++ more) = pointers node.
Proof.
  intros Hread. unfold serialize_pointers, vec_resize.
  rewrite <- (disk_read_pointers_size _ _ _ Hread). apply resize_nat_app_full.
Qed.
(** ** The iterator and [find_range] *)

(** The loop of step 4 of [operator++] looks at one frame: it leaves the
    path as it is or pops that frame, and returns. *)
Lemma ascend_one_frame fuel tree frame rest path :
  ascend (tkey := tkey) (tvalue := tvalue) t fuel tree (frame :: rest) = Ok path →
  path = frame :: rest ∨ path = rest.
Proof.
  destruct frame as [parent_pos parent_idx]. simpl.
  destruct (disk_read _ _ _) as [parent|]; [|discriminate]. simpl.
  destruct (parent_idx <? vec_size (keys parent)) eqn:Hlt; [intros [= <-]; by left|].
  apply N.ltb_ge in Hlt. apply N.leb_le in Hlt. rewrite Hlt. intros [= <-]. by right.
Qed.

(** When [upper] is found and [include_upper] is set, [find_range] returns
    the position of [upper] itself as the second iterator. *)
Lemma find_range_upper_included fuel tree lower upper include_lower lo hi path ui :
  find_path compare t fuel tree upper = Ok (path, (ui, true)) →
  find_range compare t fuel tree lower upper include_lower true = Ok (lo, hi) →
  hi = {| _path := path; _index := ui |}.
Proof.
  intros Hupper. unfold find_range.
  destruct (find_path compare t fuel tree lower) as [[lower_path [li lower_found]]|];
    [|discriminate]. simpl.
  match goal with |- context [mbind _ ?m] => destruct m as [it_lo|]; [|discriminate] end.
  simpl. rewrite Hupper. simpl.
  destruct path as [|top rest].
  - unfold find_path in Hupper. destruct (_ =? _); [discriminate|].
    destruct (disk_read _ _ _) as [node|]; [|discriminate]. simpl in Hupper.
    by destruct (find_path_loop_nonempty _ _ _ _ _ _ _ _ Hupper) as (? & ? & ?).
  - simpl. by intros [= _ <-].
Qed.

(** ... and when [include_upper] is not set, it is advanced by one. *)
Lemma find_range_upper_excluded fuel tree lower upper include_lower lo hi path ui :
  _position_root tree ≠ NONE →
  find_path compare t fuel tree upper = Ok (path, (ui, true)) →
  find_range compare t fuel tree lower upper include_lower false = Ok (lo, hi) →
  increment (tkey := tkey) (tvalue := tvalue) t fuel tree {| _path := path; _index := ui |}
  = Ok hi.
Proof.
  intros Hroot Hupper. unfold find_range.
  destruct (find_path compare t fuel tree lower) as [[lower_path [li lower_found]]|];
    [|discriminate]. simpl.
  match goal with |- context [mbind _ ?m] => destruct m as [it_lo|]; [|discriminate] end.
  simpl. rewrite Hupper. simpl.
  destruct (find_path_nonempty _ _ _ _ _ Hroot Hupper) as (top & rest & ->). simpl.
  destruct (increment t fuel tree _) as [it_hi|] eqn:Hincrement; [|discriminate].
  simpl. by intros [= _ <-].
Qed.

(** The first iterator is the position that [find_path] gives for [lower],
    advanced by one exactly when [lower] is found and [include_lower] is not
    set. *)
Lemma find_range_lower fuel tree lower upper include_lower include_upper lo hi path li
    (found : bool) :
  _position_root tree ≠ NONE →
  find_path compare t fuel tree lower = Ok (path, (li, found)) →
  find_range compare t fuel tree lower upper include_lower include_upper = Ok (lo, hi) →
  if found && negb include_lower
  then increment (tkey := tkey) (tvalue := tvalue) t fuel tree
         {| _path := path; _index := li |} = Ok lo
  else lo = {| _path := path; _index := li |}.
Proof.
  intros Hroot Hlower. unfold find_range. rewrite Hlower. simpl.
  destruct (find_path_nonempty _ _ _ _ _ Hroot Hlower) as (top & rest & ->).
  destruct (found && negb include_lower).
  - destruct (increment t fuel tree _) as [it_lo|] eqn:Hincrement; [|discriminate]. simpl.
    destruct (find_path compare t fuel tree upper) as [[upper_path [ui upper_found]]|];
      [|discriminate]. simpl.
    match goal with |- context [mbind _ ?m] => destruct m as [it_hi|]; [|discriminate] end.
    simpl. by intros [= <- _].
  - simpl.
    destruct (find_path compare t fuel tree upper) as [[upper_path [ui upper_found]]|];
      [|discriminate]. simpl.
    match goal with |- context [mbind _ ?m] => destruct m as [it_hi|]; [|discriminate] end.
    simpl. by intros [= <- _].
Qed.
End properties.

(** ** At the concrete tree *)

(** Claim C1, at a tree of three levels (the keys 10, 9, ..., 1 inserted in
    this order, t = 2). The member [begin()] cannot be instantiated, so the
    iteration starts from the first iterator of [find_range(1, 1, true,
    true)], which is at the smallest key. From there the increments visit
    1, ..., 10 in order. The increment after 10 pops the leaf and one
    ancestor and returns: the iterator is at the root frame with index 1,
    where the root has one key. It is not [end()], dereferencing it is out of
    bounds, and the next increment starts again in the leaf at position 0:
    the loop from the first key to [end()] faults. The claim says that the
    ascent goes on until the stack is empty. *)
Theorem iteration_misses_end :
  IntTree.session (IntTree.inserts (IntTree.descending 10))
    = Ok (replicate 10 true, IntTree.three_levels)
  ∧ find_range IntTree.less IntTree.t IntTree.fuel IntTree.three_levels 1%Z 1%Z true true
    = Ok ({| _path := [(0, 0); (2, 0); (7, 0)]; _index := 0 |},
          {| _path := [(0, 0); (2, 0); (7, 0)]; _index := 0 |})
  ∧ IntTree.walk 12 IntTree.three_levels {| _path := [(0, 0); (2, 0); (7, 0)]; _index := 0 |}
    = [(Ok 1%Z, [(0, 0); (2, 0); (7, 0)]);
       (Ok 2%Z, [(0, 1); (2, 0); (7, 0)]);
       (Ok 3%Z, [(2, 0); (7, 0)]);
       (Ok 4%Z, [(5, 0); (2, 1); (7, 0)]);
       (Ok 5%Z, [(2, 1); (7, 0)]);
       (Ok 6%Z, [(4, 0); (2, 2); (7, 0)]);
       (Ok 7%Z, [(7, 0)]);
       (Ok 8%Z, [(3, 0); (6, 0); (7, 1)]);
       (Ok 9%Z, [(6, 0); (7, 1)]);
       (Ok 10%Z, [(1, 0); (6, 1); (7, 1)]);
       (Fail OutOfRange, [(7, 1)]);
       (Ok 1%Z, [(0, 0); (7, 2)])]
  ∧ increment (tkey := Z) (tvalue := Z) IntTree.t IntTree.fuel IntTree.three_levels
      {| _path := [(1, 0); (6, 1); (7, 1)]; _index := 0 |}
    = Ok {| _path := [(7, 1)]; _index := 0 |}
  ∧ iterator_eqb {| _path := [(7, 1)]; _index := 0 |} end_ = false
  ∧ IntTree.view IntTree.three_levels 7 = Ok (1, false, [7%Z], [2; 6; 0; 0; 0])
  ∧ collect (tkey := Z) (tvalue := Z) IntTree.t IntTree.fuel IntTree.three_levels
      {| _path := [(0, 0); (2, 0); (7, 0)]; _index := 0 |} end_
    = Fail OutOfRange.
Proof. repeat apply conj; vm_compute; reflexivity. Qed.

(** Claim C2, at the leaf 1, 2, 3. With [upper = 2] found and
    [include_upper = true] the second iterator is the position of 2 itself,
    not advanced, so the range from [lo] to [hi] holds 1 only; with
    [include_upper = false] it is advanced to 3 and the range holds 1 and 2.
    The claim says that [hi] is advanced when [include_upper] is true. *)
Theorem find_range_upper_bound_inverted :
  IntTree.session (IntTree.inserts [1; 2; 3]%Z) = Ok (replicate 3 true, IntTree.three_keys)
  ∧ IntTree.view IntTree.three_keys 0 = Ok (3, true, [1; 2; 3]%Z, [0; 0; 0; 0; 0])
  ∧ find_range IntTree.less IntTree.t IntTree.fuel IntTree.three_keys 1%Z 2%Z true true
    = Ok ({| _path := [(0, 0)]; _index := 0 |}, {| _path := [(0, 1)]; _index := 1 |})
  ∧ IntTree.range_keys IntTree.three_keys 1 2 true true = Ok [1%Z]
  ∧ find_range IntTree.less IntTree.t IntTree.fuel IntTree.three_keys 1%Z 2%Z true false
    = Ok ({| _path := [(0, 0)]; _index := 0 |}, {| _path := [(0, 2)]; _index := 1 |})
  ∧ IntTree.range_keys IntTree.three_keys 1 2 true false = Ok [1%Z; 2%Z].
Proof. repeat apply conj; vm_compute; reflexivity. Qed.

(** Claim C3, at the tree 1, 2 | 3 | 4. The root, read from disk, is
    internal, has [size = 1] and a vector of five children, the whole table,
    where the claim says two; [check_tree] throws its error on the count of
    children. *)
Theorem disk_read_keeps_whole_table :
  IntTree.session (IntTree.inserts [1; 2; 3; 4]%Z) = Ok (replicate 4 true, IntTree.four_keys)
  ∧ _position_root IntTree.four_keys = 2
  ∧ IntTree.view IntTree.four_keys 2 = Ok (1, false, [3%Z], [0; 1; 0; 0; 0])
  ∧ (node ← disk_read (tkey := Z) (tvalue := Z) IntTree.t IntTree.four_keys 2;
     Ok (vec_size (pointers node), sz_add (size node) 1)) = Ok (5, 2)
  ∧ check_tree IntTree.less IntTree.t IntTree.fuel IntTree.four_keys 2 0
    = Fail (logic_error "Pointers count mismatch in node at position " 2).
Proof. repeat apply conj; vm_compute; reflexivity. Qed.

(** Claim C4, at a tree that was reopened. After the inserts of 1, ..., 4
    the object has allocated three nodes and the header still says one; the
    object constructed on the same files starts from this one. After 6 and 8,
    key 5 is absent, [insert(5, 50)] returns [true] and splits the leaf at
    position 1 into itself and a node allocated at position 1 again; [at(5)]
    then finds nothing, where the claim says 50. *)
Theorem insert_after_reopen_loses_the_key :
  IntTree.session (IntTree.inserts [1; 2; 3; 4]%Z) = Ok (replicate 4 true, IntTree.four_keys)
  ∧ _count_of_node IntTree.four_keys = 3
  ∧ header_count (_file_for_tree IntTree.four_keys) = Some 1
  ∧ IntTree.reopen IntTree.four_keys
    = Ok {| _file_for_tree := _file_for_tree IntTree.four_keys;
            _file_for_key_value := _file_for_key_value IntTree.four_keys;
            _position_root := 2;
            _count_of_node := 1 |}
  ∧ (tree ← IntTree.reopen IntTree.four_keys;
     run_mutations IntTree.less IntTree.t IntTree.fuel (IntTree.inserts [6; 8]%Z) tree)
    = Ok ([true; true], IntTree.reopened)
  ∧ IntTree.view IntTree.reopened 2 = Ok (1, false, [3%Z], [0; 1; 0; 0; 0])
  ∧ IntTree.view IntTree.reopened 1 = Ok (3, true, [4; 6; 8]%Z, [0; 0; 0; 0; 0])
  ∧ at_ IntTree.less IntTree.t IntTree.fuel IntTree.reopened 5%Z = Ok None
  ∧ ∃ tree, insert IntTree.less IntTree.t IntTree.fuel (5, 50)%Z IntTree.reopened = Ok (true, tree)
      ∧ at_ IntTree.less IntTree.t IntTree.fuel tree 5%Z = Ok None
      ∧ IntTree.view tree 2 = Ok (2, false, [3; 6]%Z, [0; 1; 1; 0; 0])
      ∧ IntTree.view tree 1 = Ok (1, true, [8%Z], [0; 0; 0; 0; 0]).
Proof.
  do 8 (split; [vm_compute; reflexivity|]).
  eexists. split; [vm_compute; reflexivity|].
  repeat apply conj; vm_compute; reflexivity.
Qed.

(** The same without reopening: in [merged_and_refilled] key 7 is absent,
    [insert(7, 70)] returns [true] and [at(7)] finds nothing. *)
Lemma insert_then_at_fails_in_one_session :
  fst <$> IntTree.session
            (IntTree.inserts [24; 22; 20; 16; 12; 10; 8; 6; 4; 2]%Z
             ++ IntTree.erases [4; 10; 16]%Z ++ IntTree.inserts [24; 25; 5; 17]%Z)
    = Ok (replicate 17 true)
  ∧ at_ IntTree.less IntTree.t IntTree.fuel IntTree.merged_and_refilled 7%Z = Ok None
  ∧ ∃ tree, insert IntTree.less IntTree.t IntTree.fuel (7, 70)%Z IntTree.merged_and_refilled
              = Ok (true, tree)
      ∧ at_ IntTree.less IntTree.t IntTree.fuel tree 7%Z = Ok None.
Proof.
  do 2 (split; [vm_compute; reflexivity|]).
  eexists. split; [vm_compute; reflexivity|].
  vm_compute; reflexivity.
Qed.

(** Claim C8, at the tree [merged_and_refilled]: ten inserts, three erases
    and four inserts on one object, seventeen calls that return [true]. Key
    25 was inserted by the fifteenth of them and never erased; it is stored
    in the leaf at position 8, the second child of the root, and the
    increments from the first key of [find_range] meet it as the fifth key.
    The root holds its keys in the order 24, 6, 22, so the search for 25
    passes all of them and ends in the leaf at position 0: [at(25)] finds
    nothing, [insert(25, 1)] returns [true], allocates nodes and stores the
    key a second time, in the leaf at position 9. Likewise [insert(7, 70)]
    returns [true], [at(7)] finds nothing, and the same call returns [true]
    again. The claim says that [insert] of a key that is present returns
    [false] and changes nothing. *)
Theorem insert_of_stored_key_returns_true :
  IntTree.session
    (IntTree.inserts [24; 22; 20; 16; 12; 10; 8; 6; 4; 2]%Z
     ++ IntTree.erases [4; 10; 16]%Z ++ IntTree.inserts [24; 25; 5; 17]%Z)
    = Ok (replicate 17 true, IntTree.merged_and_refilled)
  ∧ _position_root IntTree.merged_and_refilled = 2
  ∧ _count_of_node IntTree.merged_and_refilled = 9
  ∧ IntTree.view IntTree.merged_and_refilled 2
    = Ok (3, false, [24; 6; 22]%Z, [0; 8; 5; 0; 0])
  ∧ IntTree.view IntTree.merged_and_refilled 8 = Ok (1, true, [25%Z], [0; 0; 0; 0; 0])
  ∧ find_range IntTree.less IntTree.t IntTree.fuel IntTree.merged_and_refilled 2%Z 2%Z true true
    = Ok ({| _path := [(0, 0); (2, 0)]; _index := 0 |},
          {| _path := [(0, 0); (2, 0)]; _index := 0 |})
  ∧ IntTree.walk 5 IntTree.merged_and_refilled {| _path := [(0, 0); (2, 0)]; _index := 0 |}
    = [(Ok 2%Z, [(0, 0); (2, 0)]);
       (Ok 5%Z, [(0, 1); (2, 0)]);
       (Ok 17%Z, [(0, 2); (2, 0)]);
       (Ok 24%Z, [(2, 0)]);
       (Ok 25%Z, [(8, 0); (2, 1)])]
  ∧ find_path (tvalue := Z) IntTree.less IntTree.t IntTree.fuel IntTree.merged_and_refilled 25%Z
    = Ok ([(0, 3); (2, 3)], (3, false))
  ∧ at_ IntTree.less IntTree.t IntTree.fuel IntTree.merged_and_refilled 25%Z = Ok None
  ∧ (∃ tree, insert IntTree.less IntTree.t IntTree.fuel (25, 1)%Z IntTree.merged_and_refilled
               = Ok (true, tree)
       ∧ _count_of_node tree = 12
       ∧ IntTree.view tree 8 = Ok (1, true, [25%Z], [0; 0; 0; 0; 0])
       ∧ IntTree.view tree 9 = Ok (1, true, [25%Z], [0; 0; 0; 0; 0]))
  ∧ ∃ tree1 tree2,
      insert IntTree.less IntTree.t IntTree.fuel (7, 70)%Z IntTree.merged_and_refilled
      = Ok (true, tree1)
      ∧ at_ IntTree.less IntTree.t IntTree.fuel tree1 7%Z = Ok None
      ∧ insert IntTree.less IntTree.t IntTree.fuel (7, 70)%Z tree1 = Ok (true, tree2).
Proof.
  do 9 (split; [vm_compute; reflexivity|]). split.
  - eexists. split; [vm_compute; reflexivity|].
    repeat apply conj; vm_compute; reflexivity.
  - eexists. eexists. split; [vm_compute; reflexivity|].
    split; vm_compute; reflexivity.
Qed.

(** Claim C5, after the inserts of 18, 17, ..., 1 and [erase] of 1 and 11
    (t = 2, so a node other than the root needs one key). These twenty
    mutations return [true] and the key counts are within the bounds; the
    third child of the node at position 13 is position 0, the first leaf,
    which is also the first child of the node at position 2. [erase(15)]
    returns [true] and takes the predecessor, 2, out of that leaf: afterwards
    the leaf at position 0, first child of the first child of the root, has
    no key. *)
Theorem erase_leaves_empty_leaf :
  minimum_keys_in_node IntTree.t = 1
  ∧ IntTree.session IntTree.before_underflow_run
    = Ok (replicate 20 true, IntTree.before_underflow)
  ∧ key_count_invariant (tkey := Z) (tvalue := Z) IntTree.t IntTree.fuel
      IntTree.before_underflow = Ok true
  ∧ _position_root IntTree.before_underflow = 7
  ∧ IntTree.view IntTree.before_underflow 7 = Ok (2, false, [7; 15]%Z, [2; 13; 6; 0; 0])
  ∧ IntTree.view IntTree.before_underflow 2 = Ok (2, false, [3; 5]%Z, [0; 12; 11; 0; 0])
  ∧ IntTree.view IntTree.before_underflow 13 = Ok (2, false, [9; 13]%Z, [9; 8; 0; 0; 0])
  ∧ IntTree.view IntTree.before_underflow 0 = Ok (1, true, [2%Z], [0; 0; 0; 0; 0])
  ∧ ∃ tree, erase IntTree.less IntTree.t IntTree.fuel 15%Z IntTree.before_underflow
              = Ok (true, tree)
      ∧ _position_root tree = 7
      ∧ IntTree.view tree 7 = Ok (2, false, [7; 2]%Z, [2; 13; 6; 0; 0])
      ∧ IntTree.view tree 2 = Ok (2, false, [3; 5]%Z, [0; 12; 11; 0; 0])
      ∧ IntTree.view tree 0 = Ok (0, true, [], [0; 0; 0; 0; 0])
      ∧ key_count_invariant (tkey := Z) (tvalue := Z) IntTree.t IntTree.fuel tree = Ok false.
Proof.
  do 8 (split; [vm_compute; reflexivity|]).
  eexists. split; [vm_compute; reflexivity|].
  repeat apply conj; vm_compute; reflexivity.
Qed.

(** Claim C6, at the tree of the keys 10, ..., 1 after [erase(5)]: the root
    key 7 lies between L (position 2: key 3, children 0 and 5) and R
    (position 6: key 9, children 3 and 1), both internal with the minimum of
    one key. [erase(7)] leaves L with the keys 3, 9, as the claim says, and
    with the table of children 0, 5, 0, 0, 0: the children 3 and 1 of R are
    not in it, where the claim says that they follow those of L. Key 10, in
    the child at position 1, is no longer found. *)
Theorem erase_merge_loses_right_children :
  IntTree.session (IntTree.inserts (IntTree.descending 10) ++ IntTree.erases [5]%Z)
    = Ok (replicate 11 true, IntTree.before_merge)
  ∧ minimum_keys_in_node IntTree.t = 1
  ∧ _position_root IntTree.before_merge = 7
  ∧ IntTree.view IntTree.before_merge 7 = Ok (1, false, [7%Z], [2; 6; 0; 0; 0])
  ∧ IntTree.view IntTree.before_merge 2 = Ok (1, false, [3%Z], [0; 5; 0; 0; 0])
  ∧ IntTree.view IntTree.before_merge 6 = Ok (1, false, [9%Z], [3; 1; 0; 0; 0])
  ∧ at_ IntTree.less IntTree.t IntTree.fuel IntTree.before_merge 10%Z = Ok (Some 100%Z)
  ∧ ∃ tree, erase IntTree.less IntTree.t IntTree.fuel 7%Z IntTree.before_merge = Ok (true, tree)
      ∧ IntTree.view tree 2 = Ok (2, false, [3; 9]%Z, [0; 5; 0; 0; 0])
      ∧ IntTree.view tree 7 = Ok (0, false, [], [2; 0; 0; 0; 0])
      ∧ _position_root tree = 2
      ∧ at_ IntTree.less IntTree.t IntTree.fuel tree 10%Z = Ok None.
Proof.
  do 7 (split; [vm_compute; reflexivity|]).
  eexists. split; [vm_compute; reflexivity|].
  repeat apply conj; vm_compute; reflexivity.
Qed.

(** Claim C7 as stated fails: on a path where the tree file of the tree
    1, 2, 3 exists and the data file does not, the constructor returns a tree
    object and no error, and the slot of the root, which held three keys,
    holds none. *)
Lemma ctor_mixed_existence_not_rejected :
  exists_file (tree_path IntTree.only_tree_file) = true
  ∧ exists_file (data_path IntTree.only_tree_file) = false
  ∧ at_ IntTree.less IntTree.t IntTree.fuel IntTree.three_keys 2%Z = Ok (Some 20%Z)
  ∧ ¬ construction_error (tkey := Z) (tvalue := Z) IntTree.t IntTree.only_tree_file
  ∧ ∃ tree, B_tree_disk_ctor (tkey := Z) (tvalue := Z) IntTree.t IntTree.only_tree_file = Ok tree
      ∧ slot_size <$> slots (_file_for_tree IntTree.three_keys) !! 16 = Some 3
      ∧ slot_size <$> slots (_file_for_tree tree) !! 16 = Some 0
      ∧ at_ IntTree.less IntTree.t IntTree.fuel tree 2%Z = Ok None.
Proof.
  do 3 (split; [vm_compute; reflexivity|]).
  split.
  - intros [f Hf]. vm_compute in Hf. discriminate.
  - eexists. split; [vm_compute; reflexivity|].
    repeat apply conj; vm_compute; reflexivity.
Qed.

(** ** The general statements at concrete inputs *)

Lemma ctor_mixed_existence_starts_afresh_witness :
  exists_file (tree_path IntTree.only_tree_file) ≠ exists_file (data_path IntTree.only_tree_file)
  ∧ B_tree_disk_ctor (tkey := Z) (tvalue := Z) IntTree.t IntTree.only_tree_file
    = Ok (fresh_tree IntTree.t).
Proof.
  assert (exists_file (tree_path IntTree.only_tree_file)
          ≠ exists_file (data_path IntTree.only_tree_file)) as Hmixed.
  { vm_compute. discriminate. }
  split; [exact Hmixed|].
  exact (proj1 (ctor_mixed_existence_starts_afresh (tkey := Z) (tvalue := Z) IntTree.t
                  IntTree.only_tree_file Hmixed)).
Defined.

Lemma header_count_written_once_witness :
  B_tree_disk_ctor (tkey := Z) (tvalue := Z) IntTree.t IntTree.no_files
    = Ok (fresh_tree IntTree.t)
  ∧ run_mutations IntTree.less IntTree.t IntTree.fuel (IntTree.inserts [1; 2; 3; 4]%Z)
      (fresh_tree IntTree.t)
    = Ok ([true; true; true; true], IntTree.four_keys)
  ∧ slots_in_place IntTree.t (_file_for_tree IntTree.four_keys)
  ∧ _count_of_node IntTree.four_keys = 3
  ∧ header_root (_file_for_tree IntTree.four_keys) = Some 2
  ∧ header_count (_file_for_tree IntTree.four_keys) = Some 1.
Proof.
  assert (B_tree_disk_ctor (tkey := Z) (tvalue := Z) IntTree.t IntTree.no_files
          = Ok (fresh_tree IntTree.t)) as Hctor by (vm_compute; reflexivity).
  assert (run_mutations IntTree.less IntTree.t IntTree.fuel (IntTree.inserts [1; 2; 3; 4]%Z)
            (fresh_tree IntTree.t)
          = Ok ([true; true; true; true], IntTree.four_keys)) as Hrun by (vm_compute; reflexivity).
  assert (slots_in_place IntTree.t (_file_for_tree IntTree.four_keys)) as Hplace
    by (unfold slots_in_place; apply (bool_decide_unpack _); vm_compute; exact I).
  destruct (header_count_written_once IntTree.less IntTree.t IntTree.fuel IntTree.no_files
              (fresh_tree IntTree.t) (IntTree.inserts [1; 2; 3; 4]%Z)
              [true; true; true; true] IntTree.four_keys Hctor Hrun Hplace)
    as (_ & _ & Hnew & _).
  split; [exact Hctor|]. split; [exact Hrun|]. split; [exact Hplace|].
  split; [vm_compute; reflexivity|]. split; [vm_compute; reflexivity|].
  apply Hnew. reflexivity.
Defined.

Lemma insert_needs_a_root_witness :
  (_position_root IntTree.emptied = NONE
   ∧ insert IntTree.less IntTree.t IntTree.fuel (3, 30)%Z IntTree.emptied = Fail OutOfRange)
  ∧ (_position_root IntTree.three_keys ≠ NONE
     ∧ find_path IntTree.less IntTree.t IntTree.fuel IntTree.three_keys 5%Z
       = Ok ([(0, 3)], (3, false))
     ∧ ∃ top rest, [(0, 3)] = top :: rest ∧ stack_top [(0, 3)] = Ok top)
  ∧ (IntTree.view IntTree.one_key 0 = Ok (1, true, [1%Z], [0; 0; 0; 0; 0])
     ∧ ∃ tree, erase IntTree.less IntTree.t IntTree.fuel 1%Z IntTree.one_key = Ok (true, tree)
         ∧ _position_root tree = NONE
         ∧ _count_of_node tree = _count_of_node IntTree.one_key).
Proof.
  split; [|split].
  - assert (_position_root IntTree.emptied = NONE) as Hroot by (vm_compute; reflexivity).
    split; [exact Hroot|].
    exact (proj2 (proj1 (insert_needs_a_root IntTree.less IntTree.t IntTree.fuel
                           IntTree.emptied (3, 30)%Z) Hroot)).
  - assert (_position_root IntTree.three_keys ≠ NONE) as Hroot by (vm_compute; discriminate).
    assert (find_path IntTree.less IntTree.t IntTree.fuel IntTree.three_keys 5%Z
            = Ok ([(0, 3)], (3, false))) as Hfind by (vm_compute; reflexivity).
    split; [exact Hroot|]. split; [exact Hfind|].
    destruct (proj1 (proj2 (insert_needs_a_root IntTree.less IntTree.t IntTree.fuel
                              IntTree.three_keys (5, 50)%Z)) Hroot _ _ Hfind)
      as (top & rest & Hpath & Htop & _).
    exists top, rest. split; [exact Hpath | exact Htop].
  - split; [vm_compute; reflexivity|].
    assert (_position_root IntTree.one_key ≠ NONE) as Hroot by (vm_compute; discriminate).
    assert (disk_read (tkey := Z) (tvalue := Z) IntTree.t IntTree.one_key
              (_position_root IntTree.one_key)
            = Ok {| size := 1; _is_leaf := true; position_in_disk := 0;
                    keys := [(1, 10)%Z]; pointers := [0; 0; 0; 0; 0] |}) as Hread
      by (vm_compute; reflexivity).
    exact (proj2 (proj2 (insert_needs_a_root IntTree.less IntTree.t 63 IntTree.one_key
                           (1, 10)%Z)) _ Hroot Hread eq_refl eq_refl eq_refl eq_refl).
Defined.

(** * The codecs, the node store, the search and the mutations *)

(** ** Words and bytes *)

Lemma to_N_byte_of x : Byte.to_N (byte_of x) = x mod 256.
Proof.
  unfold byte_of. destruct (Byte.of_N (x mod 256)) as [b|] eqn:Hb.
  - by apply Byte.to_of_N.
  - apply Byte.of_N_None_iff in Hb.
    pose proof (N.mod_upper_bound x 256). lia.
Qed.

Lemma byte_of_to_N b : byte_of (Byte.to_N b) = b.
Proof.
  unfold byte_of. pose proof (Byte.to_N_bounded b).
  rewrite N.mod_small by lia. by rewrite Byte.of_to_N.
Qed.

Lemma length_le_bytes n x : length (le_bytes n x) = n.
Proof. revert x. induction n as [|n IH]; intros x; simpl; [done | by rewrite IH]. Qed.

Lemma le_value_le_bytes n x : le_value (le_bytes n x) = x mod 256 ^ N.of_nat n.
Proof.
  revert x. induction n as [|n IH]; intros x.
  - simpl. by rewrite N.mod_1_r.
  - cbn [le_bytes le_value]. rewrite to_N_byte_of, IH, Nat2N.inj_succ, N.pow_succ_r'.
    by rewrite N.Div0.mod_mul_r.
Qed.

Lemma le_value_bound bytes : le_value bytes < 256 ^ N.of_nat (length bytes).
Proof.
  induction bytes as [|b bytes IH]; [simpl; lia|].
  cbn [le_value length]. rewrite Nat2N.inj_succ, N.pow_succ_r'.
  pose proof (Byte.to_N_bounded b). lia.
Qed.

Lemma le_bytes_le_value bytes : le_bytes (length bytes) (le_value bytes) = bytes.
Proof.
  induction bytes as [|b bytes IH]; [done|].
  cbn [le_value length le_bytes]. pose proof (Byte.to_N_bounded b) as Hb.
  assert ((Byte.to_N b + 256 * le_value bytes) / 256 = le_value bytes) as ->.
  { rewrite N.mul_comm, N.div_add by lia. rewrite N.div_small by lia. lia. }
  assert (byte_of (Byte.to_N b + 256 * le_value bytes) = b) as ->.
  { unfold byte_of. rewrite N.mul_comm, N.Div0.mod_add, N.mod_small by lia.
    by rewrite Byte.of_to_N. }
  by rewrite IH.
Qed.

Lemma read_size_t_bytes x rest :
  x < SIZE_MOD → read_size_t (size_t_bytes x ++ rest) = Ok (x, rest).
Proof.
  intros Hx. unfold read_size_t, size_t_bytes, vec_size.
  rewrite length_app, length_le_bytes.
  destruct (8 <=? N.of_nat (8 + length rest)) eqn:Hlen; [|apply N.leb_gt in Hlen; lia].
  rewrite take_app_length', drop_app_length' by (symmetry; apply length_le_bytes).
  rewrite le_value_le_bytes. f_equal. f_equal. apply N.mod_small. exact Hx.
Qed.

Lemma read_size_t_inv stream x rest :
  read_size_t stream = Ok (x, rest) →
  stream = size_t_bytes x ++ rest ∧ x < SIZE_MOD.
Proof.
  unfold read_size_t, vec_size. destruct (8 <=? _) eqn:Hlen; [|discriminate].
  apply N.leb_le in Hlen. intros [= <- <-].
  assert (length (take 8 stream) = 8%nat) as Htake by (rewrite length_take; lia).
  split.
  - unfold size_t_bytes. rewrite <- Htake at 1. rewrite le_bytes_le_value.
    by rewrite take_drop.
  - pose proof (le_value_bound (take 8 stream)) as Hb. rewrite Htake in Hb. exact Hb.
Qed.

Lemma read_size_t_more stream x rest more :
  read_size_t stream = Ok (x, rest) → read_size_t (stream ++ more) = Ok (x, rest ++ more).
Proof.
  intros Hread. destruct (read_size_t_inv _ _ _ Hread) as [-> Hx].
  rewrite <- app_assoc. by apply read_size_t_bytes.
Qed.

(** [read_node_header] reads what [write_node_header] wrote *)
Lemma read_write_node_header size is_leaf pos rest :
  size < SIZE_MOD → pos < SIZE_MOD →
  read_node_header (write_node_header size is_leaf pos ++ rest) = Ok (size, is_leaf, pos, rest).
Proof.
  intros Hsize Hpos. unfold read_node_header, write_node_header.
  rewrite <- !app_assoc. rewrite read_size_t_bytes by exact Hsize.
  cbn [mbind result_bind app]. rewrite read_size_t_bytes by exact Hpos.
  cbn [mbind result_bind]. by destruct is_leaf.
Qed.

Lemma write_words_cons w words : write_words (w :: words) = size_t_bytes w ++ write_words words.
Proof. reflexivity. Qed.

Lemma read_write_words words rest :
  Forall (λ w, w < SIZE_MOD) words →
  read_words (length words) (write_words words ++ rest) = Ok (words, rest).
Proof.
  induction 1 as [|w words Hw _ IH]; [done|].
  rewrite write_words_cons, <- app_assoc. cbn [length read_words].
  rewrite read_size_t_bytes by exact Hw. cbn [mbind result_bind]. by rewrite IH.
Qed.

Lemma length_write_words words : length (write_words words) = (8 * length words)%nat.
Proof.
  induction words as [|w words IH]; [done|].
  rewrite write_words_cons, length_app. unfold size_t_bytes.
  rewrite length_le_bytes. cbn [length]. lia.
Qed.

(** ** The bytes of a slot *)

Section slot_bytes_laws.
Variable t : N.

Lemma slot_decode_encode s rest :
  slot_fits t s → slot_decode t (slot_encode s ++ rest) = Ok (s, rest).
Proof.
  intros (Hsize & Hpos & Hptrs & Hoffs & Hpw & How).
  unfold slot_decode, slot_encode. rewrite <- !app_assoc.
  rewrite read_write_node_header by assumption. cbn [mbind result_bind].
  rewrite <- Hptrs, read_write_words by exact Hpw. cbn [mbind result_bind].
  rewrite <- Hoffs, read_write_words by exact How. cbn [mbind result_bind].
  by destruct s.
Qed.

Lemma maximum_keys_small : 0 < t → t < 2 ^ 58 → maximum_keys_in_node t = 2 * t - 1.
Proof.
  intros Hpos Ht. unfold maximum_keys_in_node, sz_sub, sz_mul, SIZE_MOD.
  assert (2 ^ 58 * 64 = 2 ^ 64) as Hpow by reflexivity.
  rewrite (N.mod_small (2 * t)) by lia.
  rewrite (N.mod_small 1) by lia.
  replace (2 * t + (2 ^ 64 - 1)) with (2 * t - 1 + 1 * 2 ^ 64) by lia.
  rewrite N.Div0.mod_add. apply N.mod_small. lia.
Qed.

Lemma sz_add_small a b : a + b < SIZE_MOD → sz_add a b = a + b.
Proof. intros. by apply N.mod_small. Qed.

Lemma sz_mul_small a b : a * b < SIZE_MOD → sz_mul a b = a * b.
Proof. intros. by apply N.mod_small. Qed.

Ltac sz_small :=
  repeat match goal with
    | |- context [sz_add ?a ?b] => rewrite (sz_add_small a b) by (unfold SIZE_MOD; lia)
    | |- context [sz_mul ?a ?b] => rewrite (sz_mul_small a b) by (unfold SIZE_MOD; lia)
    end.

Lemma node_size_small :
  0 < t → t < 2 ^ 58 → node_size_read t = 32 * t + 25 ∧ node_size_write t = 32 * t + 25.
Proof.
  intros Hpos Ht.
  assert (2 ^ 58 * 64 = 2 ^ 64) as Hpow by reflexivity.
  unfold node_size_read, node_size_write, sizeof_size_t.
  rewrite (maximum_keys_small Hpos Ht). split; sz_small; lia.
Qed.

(** the number of bytes of a slot *)
Lemma length_slot_encode s :
  length (slot_encode s)
  = (17 + 8 * length (slot_pointers s) + 8 * length (slot_offsets s))%nat.
Proof.
  unfold slot_encode, write_node_header, size_t_bytes.
  rewrite !length_app, !length_le_bytes, !length_write_words. simpl. lia.
Qed.

(** X4 ([btree_disk_node::serialize], [deserialize], [write_node_header],
    [read_node_header]): for [0 < t < 2^58] the bytes written to the tree
    file for a node are exactly [node_size] many, [disk_write] and
    [disk_read] agree on [node_size], and reading those bytes gives back the
    size, the leaf flag, the position and the two tables. *)
Theorem slot_layout s rest :
  0 < t → t < 2 ^ 58 → slot_fits t s →
  vec_size (slot_encode s) = node_size_write t
  ∧ node_size_write t = node_size_read t
  ∧ slot_decode t (slot_encode s ++ rest) = Ok (s, rest).
Proof.
  intros Hpos Ht Hfits. pose proof Hfits as (_ & _ & Hptrs & Hoffs & _).
  destruct (node_size_small Hpos Ht) as [Hread Hwrite].
  split; [|split; [congruence | by apply slot_decode_encode]].
  unfold vec_size. rewrite length_slot_encode, Hptrs, Hoffs, Hwrite.
  rewrite (maximum_keys_small Hpos Ht).
  assert (2 ^ 58 * 64 = 2 ^ 64) as Hpow by reflexivity.
  sz_small. lia.
Qed.
End slot_bytes_laws.

(** ** [SerializableInt] *)

Lemma int_bytes_le_bytes data : int_bytes data = le_bytes 4 (Z.to_N (data mod 2 ^ 32)).
Proof.
  unfold int_bytes. cbn [le_bytes]. rewrite !N.Div0.div_div. reflexivity.
Qed.

Lemma int_of_bytes_le_value b0 b1 b2 b3 :
  int_of_bytes b0 b1 b2 b3
  = (let u := Z.of_N (le_value [b0; b1; b2; b3]) in if u <? 2 ^ 31 then u else u - 2 ^ 32)%Z.
Proof.
  unfold int_of_bytes. cbn [le_value].
  replace (Byte.to_N b0 + 256 * (Byte.to_N b1 + 256 * (Byte.to_N b2 + 256 * (Byte.to_N b3 + 256 * 0))))
    with (Byte.to_N b0 + 256 * Byte.to_N b1 + 65536 * Byte.to_N b2 + 16777216 * Byte.to_N b3)
    by lia.
  reflexivity.
Qed.

Lemma int_round_trips (data : Z) :
  (- 2 ^ 31 ≤ data < 2 ^ 31)%Z → round_trips data.
Proof.
  intros Hrange rest. cbn [serialize deserialize SerializableInt].
  rewrite int_bytes_le_bytes. cbn [le_bytes app].
  rewrite int_of_bytes_le_value.
  change [byte_of ?u; byte_of (?u / 256); byte_of (?u / 256 / 256); byte_of (?u / 256 / 256 / 256)]
    with (le_bytes 4 u).
  rewrite le_value_le_bytes. cbn zeta.
  assert (0 ≤ data mod 2 ^ 32 < 2 ^ 32)%Z as Hmod by (apply Z.mod_pos_bound; lia).
  rewrite N.mod_small by (change (256 ^ N.of_nat 4) with (Z.to_N (2 ^ 32)); lia).
  rewrite Z2N.id by lia.
  f_equal. f_equal.
  destruct (Z.ltb_spec (data mod 2 ^ 32) (2 ^ 31)) as [Hlow|Hhigh].
  - destruct (Z.le_gt_cases 0 data) as [Hnonneg|Hneg].
    + apply Z.mod_small. lia.
    + exfalso. assert (data mod 2 ^ 32 = data + 2 ^ 32)%Z; [|lia].
      symmetry. apply (Z.mod_unique _ _ (-1)); lia.
  - destruct (Z.le_gt_cases 0 data) as [Hnonneg|Hneg].
    + exfalso. rewrite Z.mod_small in Hhigh by lia. lia.
    + assert (data mod 2 ^ 32 = data + 2 ^ 32)%Z; [|lia].
      symmetry. apply (Z.mod_unique _ _ (-1)); lia.
Qed.

Lemma int_reads_locally : reads_locally Z.
Proof.
  intros stream x rest more. cbn [deserialize SerializableInt].
  destruct stream as [|b0 [|b1 [|b2 [|b3 stream]]]]; try discriminate.
  by intros [= <- <-].
Qed.

(** X1 ([SerializableInt]): an [int] is read back from the four bytes
    [serialize] wrote, whatever follows them in the stream, and
    [serialize_size] is the number of bytes written. *)
Theorem SerializableInt_round_trip (data : Z) rest :
  (- 2 ^ 31 ≤ data < 2 ^ 31)%Z →
  deserialize (serialize data ++ rest) = Ok (data, rest)
  ∧ vec_size (serialize data) = serialize_size data.
Proof.
  intros Hrange. split; [by apply int_round_trips|]. reflexivity.
Qed.

(** ** [SerializableString] *)

Lemma string_round_trips (s : SerializableString) :
  vec_size (string_data s) < SIZE_MOD → round_trips s.
Proof.
  intros Hsize rest. cbn [serialize deserialize SerializableString_codec].
  rewrite <- app_assoc, read_size_t_bytes by exact Hsize. cbn [mbind result_bind].
  unfold vec_size. rewrite length_app.
  destruct (N.leb_spec (N.of_nat (length (string_data s)))
              (N.of_nat (length (string_data s) + length rest))) as [_|Hlt]; [|lia].
  rewrite Nat2N.id, take_app_length, drop_app_length. by destruct s.
Qed.

Lemma string_reads_locally : reads_locally SerializableString.
Proof.
  intros stream x rest more. cbn [deserialize SerializableString_codec].
  destruct (read_size_t stream) as [[size stream']|] eqn:Hsize; [|discriminate].
  rewrite (read_size_t_more _ _ _ more Hsize). cbn [mbind result_bind].
  unfold vec_size. destruct (N.leb_spec size (N.of_nat (length stream'))) as [Hle|]; [|discriminate].
  intros [= <- <-]. rewrite length_app.
  destruct (N.leb_spec size (N.of_nat (length stream' + length more))) as [_|Hlt]; [|lia].
  rewrite take_app_le, drop_app_le by lia. reflexivity.
Qed.

(** X2 ([SerializableString]): a string is read back from the bytes
    [serialize] wrote (the length as a [size_t], then the characters),
    whatever follows them, and [serialize_size] is the number of bytes
    written, as long as that number fits a [size_t]. *)
Theorem SerializableString_round_trip (s : SerializableString) rest :
  8 + vec_size (string_data s) < SIZE_MOD →
  deserialize (serialize s ++ rest) = Ok (s, rest)
  ∧ vec_size (serialize s) = serialize_size s.
Proof.
  intros Hsize. split.
  - apply string_round_trips. lia.
  - cbn [serialize serialize_size SerializableString_codec]. unfold vec_size, size_t_bytes in *.
    rewrite length_app, length_le_bytes, sz_add_small by lia. lia.
Qed.

(** ** [SerializableVector] *)

Section vector_codec.
Context {T : Type} `{!Serializable T}.

Lemma serialize_elements_cons (elem : T) elems :
  mjoin (serialize <$> elem :: elems) = serialize elem ++ mjoin (serialize <$> elems).
Proof. reflexivity. Qed.

Lemma deserialize_elements_serialized (elems : list T) rest :
  Forall round_trips elems →
  deserialize_elements (length elems) (mjoin (serialize <$> elems) ++ rest) = Ok (elems, rest).
Proof.
  induction 1 as [|elem elems Helem _ IH]; [done|].
  rewrite serialize_elements_cons, <- app_assoc. cbn [length deserialize_elements].
  rewrite Helem. cbn [mbind result_bind]. by rewrite IH.
Qed.

Lemma vector_round_trips (v : SerializableVector T) :
  vec_size (vector_data v) < SIZE_MOD → Forall round_trips (vector_data v) → round_trips v.
Proof.
  intros Hsize Helems rest. cbn [serialize deserialize SerializableVector_codec].
  rewrite <- app_assoc, read_size_t_bytes by exact Hsize. cbn [mbind result_bind].
  unfold vec_size. rewrite Nat2N.id, deserialize_elements_serialized by exact Helems.
  cbn [mbind result_bind]. by destruct v.
Qed.

Lemma deserialize_elements_more sz :
  reads_locally T →
  ∀ stream (elems : list T) rest more,
    deserialize_elements sz stream = Ok (elems, rest) →
    deserialize_elements sz (stream ++ more) = Ok (elems, rest ++ more).
Proof.
  intros Hlocal. induction sz as [|sz IH]; intros stream elems rest more.
  - by intros [= <- <-].
  - cbn [deserialize_elements].
    destruct (deserialize stream) as [[elem stream1]|] eqn:Helem; [|discriminate].
    rewrite (Hlocal _ _ _ more Helem). cbn [mbind result_bind].
    destruct (deserialize_elements sz stream1) as [[elems' stream2]|] eqn:Hrest; [|discriminate].
    rewrite (IH _ _ _ more Hrest). cbn [mbind result_bind]. by intros [= <- <-].
Qed.

Lemma vector_reads_locally : reads_locally T → reads_locally (SerializableVector T).
Proof.
  intros Hlocal stream x rest more. cbn [deserialize SerializableVector_codec].
  destruct (read_size_t stream) as [[sz stream1]|] eqn:Hsz; [|discriminate].
  rewrite (read_size_t_more _ _ _ more Hsz). cbn [mbind result_bind].
  destruct (deserialize_elements (N.to_nat sz) stream1) as [[elems stream2]|] eqn:Helems;
    [|discriminate].
  rewrite (deserialize_elements_more _ Hlocal _ _ _ more Helems). cbn [mbind result_bind].
  by intros [= <- <-].
Qed.

Lemma elements_size_exact (elems : list T) base :
  Forall (λ elem, vec_size (serialize elem) = serialize_size elem) elems →
  base + vec_size (mjoin (serialize <$> elems)) < SIZE_MOD →
  foldl (λ total elem, sz_add total (serialize_size elem)) base elems
  = base + vec_size (mjoin (serialize <$> elems)).
Proof.
  intros Hexact. revert base. induction Hexact as [|elem elems Helem _ IH]; intros base.
  - intros _. unfold vec_size. simpl. lia.
  - rewrite serialize_elements_cons. cbn [foldl]. unfold vec_size in *.
    rewrite length_app, Nat2N.inj_add. intros Hfit.
    rewrite <- Helem, sz_add_small by lia. rewrite IH by lia. lia.
Qed.

(** X3 ([SerializableVector<T>]): when every element is read back from
    its own bytes and its [serialize_size] is exact, so is the vector: the
    count as a [size_t], then the elements, are read back whatever follows,
    and [serialize_size] is the number of bytes written. *)
Theorem SerializableVector_round_trip (v : SerializableVector T) rest :
  Forall round_trips (vector_data v) →
  Forall (λ elem, vec_size (serialize elem) = serialize_size elem) (vector_data v) →
  vec_size (serialize v) < SIZE_MOD →
  vec_size (vector_data v) < SIZE_MOD →
  deserialize (serialize v ++ rest) = Ok (v, rest)
  ∧ vec_size (serialize v) = serialize_size v.
Proof.
  intros Helems Hexact Hfit Hcount. split; [by apply vector_round_trips|].
  cbn [serialize serialize_size SerializableVector_codec] in *. unfold elements_size.
  unfold vec_size, size_t_bytes in *. rewrite length_app, length_le_bytes in *.
  rewrite elements_size_exact; [unfold vec_size; lia | exact Hexact | unfold vec_size; lia].
Qed.
End vector_codec.

(** ** The node store: [disk_write], then [disk_read] *)

Section node_store.
Context {tkey tvalue : Type} `{!Serializable tkey, !Serializable tvalue}.
Variable t : N.

Local Abbreviation node := (btree_disk_node (tkey := tkey) (tvalue := tvalue)).
Local Abbreviation pair := (tree_data_type (tkey := tkey) (tvalue := tvalue)).

Lemma serialize_keys_appends n :
  ∀ (ks : list pair) data, ∃ tail, (serialize_keys n ks data).2 = data ++ tail.
Proof.
  induction n as [|n IH]; intros ks data; cbn [serialize_keys].
  - exists []. simpl. by rewrite app_nil_r.
  - destruct ks as [|kv ks].
    + destruct (IH [] data) as [tail Htail].
      destruct (serialize_keys n [] data) as [offsets data']. simpl in *. by exists tail.
    + destruct (IH ks (data ++ serialize kv.1 ++ serialize kv.2)) as [tail Htail].
      destruct (serialize_keys n ks _) as [offsets data']. simpl in *.
      exists ((serialize kv.1 ++ serialize kv.2) ++ tail). by rewrite Htail, <- app_assoc.
Qed.

Lemma length_serialize_keys n :
  ∀ (ks : list pair) data, length (serialize_keys n ks data).1 = n.
Proof.
  induction n as [|n IH]; intros ks data; cbn [serialize_keys]; [done|].
  destruct ks as [|kv ks].
  - specialize (IH [] data). destruct (serialize_keys n [] data). simpl in *. by rewrite IH.
  - specialize (IH ks (data ++ serialize kv.1 ++ serialize kv.2)).
    destruct (serialize_keys n ks _). simpl in *. by rewrite IH.
Qed.

Lemma read_pair_written (kv : pair) data tail :
  pair_round_trips kv →
  read_pair (data ++ (serialize kv.1 ++ serialize kv.2) ++ tail) (vec_size data) = Ok kv.
Proof.
  intros [Hkey Hvalue]. unfold read_pair, vec_size. rewrite length_app.
  destruct (N.leb_spec (N.of_nat (length data))
              (N.of_nat (length data + length ((serialize kv.1 ++ serialize kv.2) ++ tail))))
    as [_|Hlt]; [|lia].
  rewrite Nat2N.id, drop_app_length, <- app_assoc, Hkey. cbn [mbind result_bind].
  rewrite Hvalue. cbn [mbind result_bind]. by destruct kv.
Qed.

Lemma deserialize_serialized_keys n :
  ∀ (ks : list pair) data more sz acc,
    Forall pair_round_trips ks →
    sz ≤ vec_size acc + N.min (N.of_nat n) (vec_size ks) →
    deserialize_keys (serialize_keys n ks data).1 sz ((serialize_keys n ks data).2 ++ more) acc
    = Ok (acc ++ take (N.to_nat (sz - vec_size acc)) ks).
Proof.
  induction n as [|n IH]; intros ks data more sz acc Hks Hsz.
  - simpl. replace (N.to_nat (sz - vec_size acc)) with 0%nat by lia.
    by rewrite take_0, app_nil_r.
  - cbn [serialize_keys]. destruct ks as [|kv ks].
    + specialize (IH [] data more sz acc Hks).
      destruct (serialize_keys n [] data) as [offsets data'] eqn:Hser. cbn [fst snd] in *.
      cbn [deserialize_keys]. unfold vec_size in Hsz. simpl in Hsz.
      destruct (N.ltb_spec (vec_size acc) sz) as [Hlt|_]; [unfold vec_size in Hlt; lia|].
      apply IH. unfold vec_size. simpl. lia.
    + apply Forall_cons in Hks as [Hkv Hks].
      pose proof (serialize_keys_appends n ks (data ++ serialize kv.1 ++ serialize kv.2))
        as [tail Htail].
      specialize (IH ks (data ++ serialize kv.1 ++ serialize kv.2) more sz).
      destruct (serialize_keys n ks _) as [offsets data'] eqn:Hser. cbn [fst snd] in *.
      cbn [deserialize_keys].
      destruct (N.ltb_spec (vec_size acc) sz) as [Hlt|Hge].
      * subst data'.
        assert (read_pair (((data ++ serialize kv.1 ++ serialize kv.2) ++ tail) ++ more)
                  (vec_size data) = Ok kv) as ->.
        { replace (((data ++ serialize kv.1 ++ serialize kv.2) ++ tail) ++ more)
            with (data ++ (serialize kv.1 ++ serialize kv.2) ++ tail ++ more)
            by (by rewrite <- !app_assoc).
          by apply read_pair_written. }
        cbn [mbind result_bind]. rewrite (IH (acc ++ [kv]) Hks).
        -- f_equal. rewrite <- app_assoc. f_equal. unfold vec_size in *.
           rewrite length_app. simpl.
           replace (N.to_nat (sz - N.of_nat (length acc)))
             with (S (N.to_nat (sz - N.of_nat (length acc + 1)))) by lia.
           reflexivity.
        -- unfold vec_size in *. rewrite length_app. simpl in *. lia.
      * rewrite (IH acc Hks).
        -- f_equal. f_equal. replace (N.to_nat (sz - vec_size acc)) with 0%nat by lia.
           by rewrite !take_0.
        -- lia.
Qed.

Lemma sz_of_resize {A : Type} n (x : A) v : vec_resize (vec_resize v n x) n x = vec_resize v n x.
Proof.
  unfold vec_resize. generalize (N.to_nat n) as k. intros k. revert v.
  induction k as [|k IH]; intros [|y v]; simpl; f_equal; auto.
Qed.

(** a node written at its position is the node read there *)
Lemma disk_read_written (node0 : node) tree tree' :
  Forall pair_round_trips (keys node0) →
  size node0 = vec_size (keys node0) →
  size node0 ≤ sz_add (maximum_keys_in_node t) 1 →
  disk_write t node0 tree = Ok ((), tree') →
  disk_read t tree' (position_in_disk node0)
  = Ok {| size := size node0; _is_leaf := _is_leaf node0;
          position_in_disk := position_in_disk node0; keys := keys node0;
          pointers := vec_resize (pointers node0) (sz_add (maximum_keys_in_node t) 2) 0 |}.
Proof.
  intros Hkeys Hsize Hfit. unfold disk_write, node_serialize.
  pose proof (deserialize_serialized_keys (N.to_nat (sz_add (maximum_keys_in_node t) 1))
                (keys node0) (_file_for_key_value tree) [] (size node0) [] Hkeys) as Hread.
  destruct (serialize_keys _ _ _) as [offsets data'] eqn:Hser. cbn [fst snd] in Hread.
  intros [= <-]. unfold disk_read. cbn [_file_for_tree _file_for_key_value slots write_slot].
  rewrite <- slot_offset_write_read, lookup_insert_eq.
  unfold node_deserialize. cbn [slot_offsets slot_size slot_pointers slot_is_leaf slot_position].
  rewrite app_nil_r in Hread. rewrite Hread.
  - cbn [mbind result_bind app]. unfold serialize_pointers. rewrite sz_of_resize.
    f_equal. f_equal. rewrite Hsize. unfold vec_size. simpl.
    rewrite N.sub_0_r, Nat2N.id. apply firstn_all.
  - unfold vec_size in *. simpl. rewrite N2Nat.id. lia.
Qed.
End node_store.

(** ** Rules for [respects] and [returns] *)

Section respects_rules.
Context (R : relation B_tree_disk) `{!PreOrder R}.

Lemma respects_ret {A : Type} (a : A) : respects R (mret a).
Proof. intros tree a' tree' [= _ <-]. reflexivity. Qed.

Lemma respects_bind {A B : Type} (m : M A) (k : A → M B) :
  respects R m → (∀ a, respects R (k a)) → respects R (m ≫= k).
Proof.
  intros Hm Hk tree b tree'. unfold mbind, M_bind.
  destruct (m tree) as [[a tree1]|] eqn:Em; [|discriminate].
  intros Ek. etrans; [exact (Hm _ _ _ Em) | exact (Hk _ _ _ _ Ek)].
Qed.

Lemma respects_reading {A : Type} (f : B_tree_disk → result A) : respects R (reading f).
Proof.
  intros tree a tree'. unfold reading. destruct (f tree); [|discriminate].
  intros [= _ <-]. reflexivity.
Qed.

Lemma respects_get_position_root : respects R get_position_root.
Proof. intros tree a tree' [= _ <-]. reflexivity. Qed.
End respects_rules.

Lemma returns_ret {A : Type} (P : A → Prop) (a : A) : P a → returns P (mret a).
Proof. intros Ha tree a' tree' [= <- _]. exact Ha. Qed.

Lemma returns_bind {A B : Type} (P : B → Prop) (m : M A) (k : A → M B) :
  (∀ a, returns P (k a)) → returns P (m ≫= k).
Proof.
  intros Hk tree b tree'. unfold mbind, M_bind.
  destruct (m tree) as [[a tree1]|]; [|discriminate]. apply Hk.
Qed.

#[export] Instance same_count_preorder : PreOrder same_count.
Proof. split; [intros tree; by unfold same_count | intros t1 t2 t3; unfold same_count; congruence]. Qed.

#[export] Instance data_grows_preorder : PreOrder data_grows.
Proof. split; [intros tree; by unfold data_grows | intros t1 t2 t3; unfold data_grows; by etrans]. Qed.

#[export] Instance keeps_root_in_header_preorder : PreOrder keeps_root_in_header.
Proof. split; [by intros tree Hroot | intros t1 t2 t3 H12 H23 H1; exact (H23 (H12 H1))]. Qed.

#[export] Instance slots_stay_preorder : PreOrder slots_stay.
Proof.
  split; [by intros tree offset Hslot|].
  intros t1 t2 t3 H12 H23 offset Hslot. exact (H23 _ (H12 _ Hslot)).
Qed.

Create HintDb respects discriminated.

Section primitives.
Context {tkey tvalue : Type} `{!Serializable tkey, !Serializable tvalue}.
Variable t : N.
Local Abbreviation node := (btree_disk_node (tkey := tkey) (tvalue := tvalue)).

Lemma same_count_set_position_root pos : respects same_count (set_position_root pos).
Proof. by intros tree a tree' [= _ <-]. Qed.

Lemma same_count_print_root_position : respects same_count print_root_position.
Proof. by intros tree a tree' [= _ <-]. Qed.

Lemma same_count_disk_write (n : node) : respects same_count (disk_write t n).
Proof.
  intros tree a tree'. unfold disk_write. destruct (node_serialize t n _).
  intros [= _ <-]. reflexivity.
Qed.

Lemma data_grows_set_position_root pos : respects data_grows (set_position_root pos).
Proof. intros tree a tree' [= _ <-]. unfold data_grows. by simpl. Qed.

Lemma data_grows_post_incr : respects data_grows post_incr_count_of_node.
Proof. intros tree a tree' [= _ <-]. unfold data_grows. by simpl. Qed.

Lemma data_grows_print_root_position : respects data_grows print_root_position.
Proof. intros tree a tree' [= _ <-]. unfold data_grows. by simpl. Qed.

Lemma data_grows_disk_write (n : node) : respects data_grows (disk_write t n).
Proof.
  intros tree a tree'. unfold disk_write, node_serialize.
  destruct (serialize_keys_appends (N.to_nat (sz_add (maximum_keys_in_node t) 1)) (keys n)
              (_file_for_key_value tree)) as [tail Htail].
  destruct (serialize_keys _ _ _) as [offsets data']. simpl in Htail.
  intros [= _ <-]. unfold data_grows. simpl. by exists tail.
Qed.

Lemma slots_stay_set_position_root pos : respects slots_stay (set_position_root pos).
Proof. by intros tree a tree' [= _ <-] offset Hslot. Qed.

Lemma slots_stay_post_incr : respects slots_stay post_incr_count_of_node.
Proof. by intros tree a tree' [= _ <-] offset Hslot. Qed.

Lemma slots_stay_print_root_position : respects slots_stay print_root_position.
Proof. by intros tree a tree' [= _ <-] offset Hslot. Qed.

Lemma slots_stay_disk_write (n : node) : respects slots_stay (disk_write t n).
Proof.
  intros tree a tree'. unfold disk_write. destruct (node_serialize t n _) as [s data'].
  intros [= _ <-] offset Hslot. cbn [_file_for_tree slots write_slot].
  destruct (decide (slot_offset_write t (position_in_disk n) = offset)) as [->|Hother].
  - rewrite lookup_insert_eq. by eexists.
  - by rewrite lookup_insert_ne.
Qed.

Lemma root_in_header_post_incr : respects keeps_root_in_header post_incr_count_of_node.
Proof. intros tree a tree' [= _ <-] Hroot. exact Hroot. Qed.

Lemma root_in_header_disk_write (n : node) : respects keeps_root_in_header (disk_write t n).
Proof.
  intros tree a tree'. unfold disk_write. destruct (node_serialize t n _).
  intros [= _ <-]. unfold keeps_root_in_header, root_in_header. simpl. by intros ->.
Qed.

Lemma root_in_header_print_root_position : respects keeps_root_in_header print_root_position.
Proof. intros tree a tree' [= _ <-] _. reflexivity. Qed.

(** the root is moved and the header follows *)
Lemma root_in_header_set_print pos :
  respects keeps_root_in_header (set_position_root pos ≫= λ _, print_root_position).
Proof. intros tree a tree' [= _ <-] _. reflexivity. Qed.

Lemma root_in_header_set_write_print pos (n : node) :
  respects keeps_root_in_header
    (set_position_root pos ≫= λ _, disk_write t n ≫= λ _, print_root_position).
Proof.
  intros tree a tree'. unfold mbind, M_bind, set_position_root, disk_write.
  destruct (node_serialize t n _). intros [= _ <-] _. reflexivity.
Qed.
End primitives.

#[export] Hint Resolve same_count_set_position_root same_count_print_root_position
  same_count_disk_write data_grows_set_position_root data_grows_post_incr
  data_grows_print_root_position data_grows_disk_write root_in_header_post_incr
  root_in_header_disk_write root_in_header_print_root_position root_in_header_set_print
  root_in_header_set_write_print slots_stay_set_position_root slots_stay_post_incr
  slots_stay_print_root_position slots_stay_disk_write : respects.

Ltac respects_step IH :=
  match goal with
  | |- respects _ _ => solve [auto 1 with respects nocore]
  | |- respects _ (mret _) => apply respects_ret; tc_solve
  | |- respects _ (reading _) => apply respects_reading; tc_solve
  | |- respects _ (lift _) => apply respects_reading; tc_solve
  | |- respects _ get_position_root => apply respects_get_position_root; tc_solve
  | |- respects _ (_ ≫= _) => apply respects_bind; [tc_solve | | intros ?]
  | |- respects _ (if ?b then _ else _) => destruct b
  | |- respects _ (match ?x with _ => _ end) => destruct x
  | |- _ => apply IH
  end.

Section mutations.
Context {tkey tvalue : Type} `{!Serializable tkey, !Serializable tvalue}.
Variable compare : tkey → tkey → bool.
Variable t : N.

Lemma data_grows_split_node path :
  respects data_grows (split_node (tkey := tkey) (tvalue := tvalue) t path).
Proof.
  induction path as [|[current_pos i] path IH]; simpl; repeat respects_step IH.
Qed.

Lemma data_grows_rebalance_node path :
  ∀ node index,
    respects data_grows (rebalance_node (tkey := tkey) (tvalue := tvalue) t path node index).
Proof.
  induction path as [|[parent_pos parent_idx] path IH]; intros node index; simpl;
    repeat respects_step IH.
Qed.

Lemma root_in_header_split_node path :
  respects keeps_root_in_header (split_node (tkey := tkey) (tvalue := tvalue) t path).
Proof.
  induction path as [|[current_pos i] path IH]; simpl; repeat respects_step IH.
Qed.

Lemma root_in_header_rebalance_node path :
  ∀ node index,
    respects keeps_root_in_header
      (rebalance_node (tkey := tkey) (tvalue := tvalue) t path node index).
Proof.
  induction path as [|[parent_pos parent_idx] path IH]; intros node index; simpl;
    repeat respects_step IH.
Qed.

Lemma same_count_rebalance_node path :
  ∀ node index,
    respects same_count (rebalance_node (tkey := tkey) (tvalue := tvalue) t path node index).
Proof.
  induction path as [|[parent_pos parent_idx] path IH]; intros node index; simpl;
    repeat respects_step IH.
Qed.

Lemma data_grows_mutation fuel op : respects data_grows (apply_mutation compare t fuel op).
Proof.
  destruct op; simpl; [unfold insert | unfold update | unfold erase].
  - repeat respects_step data_grows_split_node.
  - repeat respects_step I.
  - repeat respects_step data_grows_rebalance_node.
Qed.

Lemma root_in_header_mutation fuel op :
  respects keeps_root_in_header (apply_mutation compare t fuel op).
Proof.
  destruct op; simpl; [unfold insert | unfold update | unfold erase].
  - repeat respects_step root_in_header_split_node.
  - repeat respects_step I.
  - repeat respects_step root_in_header_rebalance_node.
Qed.

Lemma respects_run_mutations (R : relation B_tree_disk) `{!PreOrder R} fuel ops :
  (∀ op, respects R (apply_mutation compare t fuel op)) →
  respects R (run_mutations compare t fuel ops).
Proof.
  intros Hop. induction ops as [|op ops IH]; simpl.
  - apply respects_ret; tc_solve.
  - apply respects_bind; [tc_solve | apply Hop | intros b].
    apply respects_bind; [tc_solve | exact IH | intros bs]. apply respects_ret; tc_solve.
Qed.

Lemma slots_stay_split_node path :
  respects slots_stay (split_node (tkey := tkey) (tvalue := tvalue) t path).
Proof.
  induction path as [|[current_pos i] path IH]; simpl; repeat respects_step IH.
Qed.

Lemma slots_stay_rebalance_node path :
  ∀ node index,
    respects slots_stay (rebalance_node (tkey := tkey) (tvalue := tvalue) t path node index).
Proof.
  induction path as [|[parent_pos parent_idx] path IH]; intros node index; simpl;
    repeat respects_step IH.
Qed.

Lemma slots_stay_mutation fuel op : respects slots_stay (apply_mutation compare t fuel op).
Proof.
  destruct op; simpl; [unfold insert | unfold update | unfold erase].
  - repeat respects_step slots_stay_split_node.
  - repeat respects_step I.
  - repeat respects_step slots_stay_rebalance_node.
Qed.

(** No mutation removes a slot, so when the slots of the file after a run
    are in place, those of the file before it were. *)
Lemma slots_in_place_before fuel ops tree returned tree' :
  run_mutations compare t fuel ops tree = Ok (returned, tree') →
  slots_in_place t (_file_for_tree tree') →
  slots_in_place t (_file_for_tree tree).
Proof.
  intros Hrun Hplace offset s Hslot.
  destruct (respects_run_mutations slots_stay fuel ops (slots_stay_mutation fuel) _ _ _ Hrun
              offset (mk_is_Some _ _ Hslot)) as [s' Hslot'].
  exact (Hplace offset s' Hslot').
Qed.
End mutations.

(** ** The search: [find_index] and [find_path] *)

Section search.
Context {tkey tvalue : Type} `{!Serializable tkey, !Serializable tvalue}.
Variable compare : tkey → tkey → bool.
Variable t : N.
Local Abbreviation node := (btree_disk_node (tkey := tkey) (tvalue := tvalue)).
Local Abbreviation pair := (tree_data_type (tkey := tkey) (tvalue := tvalue)).

Lemma sz_incr_small i : i + 1 < SIZE_MOD → sz_incr i = i + 1.
Proof. intros Hi. unfold sz_incr, sz_add. by rewrite N.mod_small. Qed.

Lemma find_index_from_spec key (ks : list pair) :
  ∀ i0 i found,
    i0 + vec_size ks < SIZE_MOD →
    find_index_from compare key ks i0 = (i, found) →
    ∃ n : nat,
      i = i0 + N.of_nat n ∧ (n ≤ length ks)%nat
      ∧ (∀ j kv, (j < n)%nat → ks !! j = Some kv → compare kv.1 key = true)
      ∧ match ks !! n with
        | Some kv => compare kv.1 key = false ∧ found = negb (compare key kv.1)
        | None => found = false
        end.
Proof.
  induction ks as [|kv ks IH]; intros i0 i found Hsmall; simpl.
  - intros [= <- <-]. exists 0%nat. repeat split; [lia | lia | intros j kv Hj; lia].
  - unfold vec_size in Hsmall. simpl length in Hsmall.
    unfold compare_keys. destruct (compare kv.1 key) eqn:Hlt.
    + intros Hrest. apply IH in Hrest as (n & -> & Hn & Hbefore & Hat).
      * exists (S n). rewrite sz_incr_small by lia. repeat split; [lia | simpl; lia | | exact Hat].
        intros [|j] kv' Hj; simpl; [by intros [= <-] | intros Hkv'].
        apply (Hbefore j); [lia | exact Hkv'].
      * rewrite sz_incr_small by lia. unfold vec_size. lia.
    + intros [= <- <-]. exists 0%nat. repeat split; [lia | simpl; lia | intros j kv' Hj; lia |].
      simpl. by rewrite Hlt.
Qed.

Lemma vec_at_lookup {A : Type} (v : list A) (i : N) (x : A) :
  vec_at v i = Ok x ↔ v !! N.to_nat i = Some x.
Proof.
  unfold vec_at, vec_size. split.
  - destruct (i <? _); [|discriminate]. destruct (v !! N.to_nat i); congruence.
  - intros Hx. pose proof (lookup_lt_Some _ _ _ Hx) as Hlt.
    destruct (N.ltb_spec i (N.of_nat (length v))) as [_|Hge]; [by rewrite Hx | lia].
Qed.

Lemma vec_at_fails {A : Type} (v : list A) (i : N) :
  (∃ f, vec_at v i = Fail f) ↔ v !! N.to_nat i = None.
Proof.
  unfold vec_at, vec_size. split.
  - intros [f Hf]. destruct (N.ltb_spec i (N.of_nat (length v))) as [Hlt|Hge].
    + by destruct (v !! N.to_nat i).
    + apply lookup_ge_None. lia.
  - intros Hx. destruct (i <? _); rewrite ?Hx; by eexists.
Qed.

(** the frame on top of the stack is the node the search stopped in *)
Lemma find_path_loop_top fuel (tree : B_tree_disk) (key : tkey) :
  ∀ pos (current : node) acc path index found,
    disk_read t tree pos = Ok current →
    find_path_loop compare t fuel tree key pos current acc = Ok (path, (index, found)) →
    ∃ top_pos below (top : node),
      path = (top_pos, index) :: below
      ∧ disk_read t tree top_pos = Ok top
      ∧ find_index compare key top = (index, found)
      ∧ (found = false → _is_leaf top = true).
Proof.
  induction fuel as [|fuel IH]; intros pos current acc path index found Hread; simpl;
    [discriminate|].
  destruct (find_index compare key current) as [i f] eqn:Hindex. destruct f.
  - intros [= <- <- <-]. by exists pos, acc, current.
  - destruct (_is_leaf current) eqn:Hleaf.
    + intros [= <- <- <-]. by exists pos, acc, current.
    + destruct (vec_at (pointers current) i) as [next|]; [|discriminate]. simpl.
      destruct (disk_read t tree next) as [next_node|] eqn:Hnext; [|discriminate]. simpl.
      by apply IH.
Qed.

Lemma find_path_top fuel (tree : B_tree_disk) (key : tkey) path index found :
  _position_root tree ≠ NONE →
  find_path compare t fuel tree key = Ok (path, (index, found)) →
  ∃ top_pos below (top : node),
    path = (top_pos, index) :: below
    ∧ disk_read t tree top_pos = Ok top
    ∧ find_index compare key top = (index, found)
    ∧ (found = false → _is_leaf top = true).
Proof.
  intros Hroot. unfold find_path. destruct (N.eqb_spec (_position_root tree) NONE); [done|].
  destruct (disk_read t tree (_position_root tree)) as [root|] eqn:Hread; [|discriminate].
  simpl. by apply find_path_loop_top.
Qed.

Lemma find_path_loop_descent fuel (tree : B_tree_disk) (key : tkey) :
  ∀ pos (current : node) acc path result,
    disk_read t tree pos = Ok current →
    descent_from_root compare t tree key ((pos, 0) :: acc) →
    find_path_loop compare t fuel tree key pos current acc = Ok (path, result) →
    descent_from_root compare t tree key path.
Proof.
  induction fuel as [|fuel IH]; intros pos current acc path result Hread Hacc; simpl;
    [discriminate|].
  destruct (find_index compare key current) as [i f] eqn:Hindex. destruct f.
  - intros [= <- <-]. exact Hacc.
  - destruct (_is_leaf current) eqn:Hleaf.
    + intros [= <- <-]. exact Hacc.
    + destruct (vec_at (pointers current) i) as [next|] eqn:Hnext; [|discriminate]. simpl.
      destruct (disk_read t tree next) as [next_node|] eqn:Hnext_node; [|discriminate]. simpl.
      apply IH; [exact Hnext_node|]. split; [by exists current | exact Hacc].
Qed.
End search.

(** ** Reading depends on the two files and the root only *)

Section readers.
Context {tkey tvalue : Type} `{!Serializable tkey, !Serializable tvalue}.
Variable compare : tkey → tkey → bool.
Variable t : N.
Local Abbreviation node := (btree_disk_node (tkey := tkey) (tvalue := tvalue)).
Local Abbreviation pair := (tree_data_type (tkey := tkey) (tvalue := tvalue)).

Section same.
Variables tree tree' : B_tree_disk.
Hypothesis Hsame : same_files_and_root tree tree'.

Lemma disk_read_same pos :
  disk_read (tkey := tkey) (tvalue := tvalue) t tree' pos = disk_read t tree pos.
Proof. destruct Hsame as (Htree & Hdata & _). unfold disk_read. by rewrite Htree, Hdata. Qed.

Lemma find_path_loop_same fuel key :
  ∀ pos (current : node) acc,
    find_path_loop compare t fuel tree' key pos current acc
    = find_path_loop compare t fuel tree key pos current acc.
Proof.
  induction fuel as [|fuel IH]; intros pos current acc; simpl; [done|].
  destruct (find_index compare key current) as [i [|]]; [done|].
  destruct (_is_leaf current); [done|].
  destruct (vec_at (pointers current) i) as [next|]; [|done]. simpl.
  rewrite disk_read_same. destruct (disk_read t tree next); [|done]. simpl. apply IH.
Qed.

Lemma find_path_same fuel key :
  find_path (tvalue := tvalue) compare t fuel tree' key = find_path compare t fuel tree key.
Proof.
  unfold find_path. destruct Hsame as (_ & _ & ->). destruct (_ =? NONE); [done|].
  rewrite disk_read_same. destruct (disk_read t tree _); [|done]. simpl.
  apply find_path_loop_same.
Qed.

Lemma at_same fuel key :
  at_ (tvalue := tvalue) compare t fuel tree' key = at_ compare t fuel tree key.
Proof.
  unfold at_. rewrite find_path_same.
  destruct (find_path compare t fuel tree key) as [[path [index found]]|]; [|done]. simpl.
  destruct (negb found); [done|]. destruct (stack_top path) as [top|]; [|done]. simpl.
  by rewrite disk_read_same.
Qed.

Lemma leftmost_leaf_same fuel :
  ∀ (succ_node : node) succ_pos succ_path,
    leftmost_leaf t fuel tree' succ_node succ_pos succ_path
    = leftmost_leaf t fuel tree succ_node succ_pos succ_path.
Proof.
  induction fuel as [|fuel IH]; intros succ_node succ_pos succ_path; simpl; [done|].
  destruct (_is_leaf succ_node); [done|].
  destruct (vec_at (pointers succ_node) 0) as [next|]; [|done]. simpl.
  rewrite disk_read_same. destruct (disk_read t tree next); [|done]. simpl. apply IH.
Qed.

Lemma descend_same fuel child_pos path :
  descend (tkey := tkey) (tvalue := tvalue) t fuel tree' child_pos path
  = descend (tkey := tkey) (tvalue := tvalue) t fuel tree child_pos path.
Proof.
  unfold descend. rewrite disk_read_same. destruct (disk_read t tree child_pos); [|done].
  simpl. by rewrite leftmost_leaf_same.
Qed.

Lemma ascend_same fuel path :
  ascend (tkey := tkey) (tvalue := tvalue) t fuel tree' path
  = ascend (tkey := tkey) (tvalue := tvalue) t fuel tree path.
Proof.
  induction path as [|[parent_pos parent_idx] rest IH]; simpl; [done|].
  rewrite disk_read_same. destruct (disk_read t tree parent_pos) as [parent|]; [|done]. simpl.
  destruct (_ <? _); [done|]. destruct (_ <=? _); [done|]. destruct (_ <? _); [|exact IH].
  destruct (vec_at _ _); [|done]. simpl. apply descend_same.
Qed.

Lemma increment_same fuel it :
  increment (tkey := tkey) (tvalue := tvalue) t fuel tree' it
  = increment (tkey := tkey) (tvalue := tvalue) t fuel tree it.
Proof.
  unfold increment. destruct (_path it) as [|[pos idx] rest]; [done|].
  rewrite disk_read_same. destruct (disk_read t tree pos) as [current|]; [|done]. simpl.
  destruct (negb _).
  - destruct (vec_at _ _); [|done]. simpl. by rewrite descend_same.
  - destruct (_ <? _); [done|]. by rewrite ascend_same.
Qed.

Lemma dereference_same it :
  dereference (tkey := tkey) (tvalue := tvalue) t tree' it = dereference t tree it.
Proof.
  unfold dereference. destruct (_path it) as [|[pos idx] rest]; [done|].
  by rewrite disk_read_same.
Qed.

Lemma collect_same fuel :
  ∀ it last,
    collect (tkey := tkey) (tvalue := tvalue) t fuel tree' it last
    = collect (tkey := tkey) (tvalue := tvalue) t fuel tree it last.
Proof.
  induction fuel as [|fuel IH]; intros it last; simpl; [done|].
  destruct (iterator_eqb it last); [done|].
  rewrite dereference_same. destruct (dereference t tree it); [|done]. simpl.
  rewrite increment_same. destruct (increment t (S fuel) tree it); [|done]. simpl.
  by rewrite IH.
Qed.

Lemma find_range_same fuel lower upper include_lower include_upper :
  find_range (tvalue := tvalue) compare t fuel tree' lower upper include_lower include_upper
  = find_range compare t fuel tree lower upper include_lower include_upper.
Proof.
  unfold find_range. rewrite !find_path_same.
  destruct (find_path compare t fuel tree lower) as [[lower_path [li lower_found]]|]; [|done].
  destruct (find_path compare t fuel tree upper) as [[upper_path [ui upper_found]]|];
    simpl; by rewrite ?increment_same.
Qed.
End same.

(** ** Closing and opening again *)

Lemma ctor_root_in_header files tree :
  B_tree_disk_ctor (tkey := tkey) (tvalue := tvalue) t files = Ok tree → root_in_header tree.
Proof.
  destruct (exists_file (tree_path files) && exists_file (data_path files)) eqn:Hfiles.
  - unfold B_tree_disk_ctor. rewrite Hfiles. simpl.
    destruct (tree_path files) as [file_for_tree|]; [|discriminate].
    destruct (data_path files) as [file_for_data|]; [|discriminate].
    destruct (header_count file_for_tree) as [c|] eqn:Ec; [|discriminate].
    destruct (header_root file_for_tree) as [r|] eqn:Er; [|discriminate].
    destruct (disk_read _ _ _); [|discriminate].
    intros [= <-]. exact Er.
  - rewrite (ctor_creates _ _ Hfiles). by intros [= <-].
Qed.

Lemma ctor_reopens tree c (root : node) :
  header_count (_file_for_tree tree) = Some c →
  root_in_header tree →
  disk_read t tree (_position_root tree) = Ok root →
  B_tree_disk_ctor (tkey := tkey) (tvalue := tvalue) t (B_tree_disk_dtor tree)
  = Ok {| _file_for_tree := _file_for_tree tree;
          _file_for_key_value := _file_for_key_value tree;
          _position_root := _position_root tree;
          _count_of_node := c |}.
Proof.
  intros Hc Hroot Hread. unfold B_tree_disk_ctor, B_tree_disk_dtor. simpl.
  rewrite Hc, Hroot.
  set (tree' := {| _file_for_tree := _file_for_tree tree;
                   _file_for_key_value := _file_for_key_value tree;
                   _position_root := _position_root tree; _count_of_node := c |}).
  assert (same_files_and_root tree tree') as Hsame by done.
  by rewrite (disk_read_same tree tree' Hsame), Hread.
Qed.
End readers.

(** ** The flag a mutation returns *)

Ltac returns_step :=
  match goal with
  | |- returns _ (mret _) => apply returns_ret; reflexivity
  | |- returns _ (_ ≫= _) => apply returns_bind; intros ?
  | |- returns _ (if ?b then _ else _) => destruct b
  | |- returns _ (match ?x with _ => _ end) => destruct x
  end.

Section presence.
Context {tkey tvalue : Type} `{!Serializable tkey, !Serializable tvalue}.
Variable compare : tkey → tkey → bool.
Variable t : N.
Local Abbreviation node := (btree_disk_node (tkey := tkey) (tvalue := tvalue)).
Local Abbreviation pair := (tree_data_type (tkey := tkey) (tvalue := tvalue)).

(** [at] answers with a value exactly when [find_path] found the key *)
Lemma at_found fuel tree key (r : option tvalue) :
  at_ compare t fuel tree key = Ok r →
  ∃ path index, find_path compare t fuel tree key = Ok (path, (index, bool_decide (is_Some r))).
Proof.
  unfold at_.
  destruct (find_path compare t fuel tree key) as [[path [index found]]|]; [|discriminate].
  simpl. destruct found; simpl.
  - destruct (stack_top path) as [top|]; [|discriminate]. simpl.
    destruct (disk_read t tree top.1) as [current|]; [|discriminate]. simpl.
    destruct (vec_at (keys current) index) as [kv|]; [|discriminate]. simpl.
    intros [= <-]. by exists path, index.
  - intros [= <-]. by exists path, index.
Qed.

Lemma returns_after_reading {A B : Type} (f : B_tree_disk → result A) (k : A → M B)
    (P : B → Prop) tree a :
  f tree = Ok a → returns P (k a) →
  ∀ b tree', (reading f ≫= k) tree = Ok (b, tree') → P b.
Proof.
  intros Hf Hk b tree'. unfold mbind, M_bind, reading. rewrite Hf. apply Hk.
Qed.

Lemma insert_returns_true fuel (data : pair) path index tree b tree' :
  find_path compare t fuel tree data.1 = Ok (path, (index, false)) →
  insert compare t fuel data tree = Ok (b, tree') → b = true.
Proof.
  intros Hfind Hrun.
  refine (returns_after_reading _ _ (λ b, b = true) tree _ Hfind _ b tree' Hrun).
  simpl. repeat returns_step.
Qed.

Lemma update_returns_true fuel (data : pair) path index tree b tree' :
  find_path compare t fuel tree data.1 = Ok (path, (index, true)) →
  update compare t fuel data tree = Ok (b, tree') → b = true.
Proof.
  intros Hfind Hrun.
  refine (returns_after_reading _ _ (λ b, b = true) tree _ Hfind _ b tree' Hrun).
  simpl. repeat returns_step.
Qed.

Lemma erase_returns_true fuel key path index tree b tree' :
  find_path compare t fuel tree key = Ok (path, (index, true)) →
  erase (tvalue := tvalue) compare t fuel key tree = Ok (b, tree') → b = true.
Proof.
  intros Hfind. unfold erase, mbind at 1, M_bind at 1, get_position_root.
  destruct (_position_root tree =? NONE) eqn:Hroot.
  - unfold find_path in Hfind. by rewrite Hroot in Hfind.
  - intros Hrun.
    refine (returns_after_reading _ _ (λ b, b = true) tree _ Hfind _ b tree' Hrun).
    simpl. repeat returns_step.
Qed.

Lemma update_absent fuel (data : pair) path index tree :
  find_path compare t fuel tree data.1 = Ok (path, (index, false)) →
  update compare t fuel data tree = Ok (false, tree).
Proof. intros Hfind. unfold update, mbind, M_bind, reading. by rewrite Hfind. Qed.

Lemma erase_absent fuel key path index tree :
  find_path (tvalue := tvalue) compare t fuel tree key = Ok (path, (index, false)) →
  erase (tvalue := tvalue) compare t fuel key tree = Ok (false, tree).
Proof.
  intros Hfind. unfold erase, mbind, M_bind, get_position_root, reading.
  destruct (_position_root tree =? NONE); [done|]. by rewrite Hfind.
Qed.
End presence.

(** ** What a write leaves as it was *)

Section frame.
Context {tkey tvalue : Type} `{!Serializable tkey, !Serializable tvalue}.
Variable compare : tkey → tkey → bool.
Variable t : N.
Local Abbreviation node := (btree_disk_node (tkey := tkey) (tvalue := tvalue)).
Local Abbreviation pair := (tree_data_type (tkey := tkey) (tvalue := tvalue)).

Hypothesis Hkey_local : reads_locally tkey.
Hypothesis Hvalue_local : reads_locally tvalue.

Lemma read_pair_more data more pos (kv : pair) :
  read_pair data pos = Ok kv → read_pair (data ++ more) pos = Ok kv.
Proof.
  unfold read_pair, vec_size. rewrite length_app.
  destruct (N.leb_spec pos (N.of_nat (length data))) as [Hle|]; [|discriminate].
  destruct (N.leb_spec pos (N.of_nat (length data + length more))) as [_|Hgt]; [|lia].
  rewrite drop_app_le by lia.
  destruct (deserialize (drop (N.to_nat pos) data)) as [[k rest]|] eqn:Hk; [|discriminate].
  rewrite (Hkey_local _ _ _ more Hk). cbn [mbind result_bind].
  destruct (deserialize rest) as [[v rest']|] eqn:Hv; [|discriminate].
  by rewrite (Hvalue_local _ _ _ more Hv).
Qed.

Lemma deserialize_keys_more offsets sz data more :
  ∀ (acc ks : list pair),
    deserialize_keys offsets sz data acc = Ok ks →
    deserialize_keys offsets sz (data ++ more) acc = Ok ks.
Proof.
  induction offsets as [|pos offsets IH]; intros acc ks; cbn [deserialize_keys]; [done|].
  destruct (vec_size acc <? sz); [|apply IH].
  destruct (read_pair data pos) as [kv|] eqn:Hpair; [|discriminate].
  rewrite (read_pair_more _ more _ _ Hpair). cbn [mbind result_bind]. apply IH.
Qed.

(** a write leaves what is read at the other slots as it was *)
Lemma disk_read_frame (written : node) tree tree' pos (current : node) :
  disk_write t written tree = Ok ((), tree') →
  slot_offset_read t pos ≠ slot_offset_read t (position_in_disk written) →
  disk_read t tree pos = Ok current →
  disk_read t tree' pos = Ok current.
Proof.
  unfold disk_write, node_serialize.
  destruct (serialize_keys_appends (N.to_nat (sz_add (maximum_keys_in_node t) 1))
              (keys written) (_file_for_key_value tree)) as [tail Htail].
  destruct (serialize_keys _ _ _) as [offsets data']. cbn [fst snd] in Htail. subst data'.
  intros [= <-] Hother. unfold disk_read.
  cbn [_file_for_tree _file_for_key_value slots write_slot].
  rewrite slot_offset_write_read, lookup_insert_ne by done.
  destruct (slots (_file_for_tree tree) !! slot_offset_read t pos) as [s|]; [|discriminate].
  unfold node_deserialize.
  destruct (deserialize_keys _ _ _ _) as [ks|] eqn:Hks; [|discriminate].
  by rewrite (deserialize_keys_more _ _ _ tail _ _ Hks).
Qed.

Lemma disk_read_offset tree pos pos' :
  slot_offset_read t pos = slot_offset_read t pos' →
  disk_read (tkey := tkey) (tvalue := tvalue) t tree pos = disk_read t tree pos'.
Proof. unfold disk_read. by intros ->. Qed.

Lemma find_index_from_alike key (ks ks' : list pair) :
  ks.*1 = ks'.*1 → ∀ i, find_index_from compare key ks i = find_index_from compare key ks' i.
Proof.
  revert ks'. induction ks as [|kv ks IH]; intros [|kv' ks'] Hfst i; simpl in *; try done.
  injection Hfst as Hhead Htail. unfold compare_keys. rewrite Hhead.
  destruct (compare kv'.1 key); [by apply IH | done].
Qed.

Lemma find_path_loop_alike fuel tree tree' key :
  (∀ pos (current : node), disk_read t tree pos = Ok current →
     ∃ current', disk_read t tree' pos = Ok current' ∧ routes_alike current current') →
  ∀ pos (current current' : node) acc result,
    routes_alike current current' →
    find_path_loop compare t fuel tree key pos current acc = Ok result →
    find_path_loop compare t fuel tree' key pos current' acc = Ok result.
Proof.
  intros Hreads. induction fuel as [|fuel IH]; intros pos current current' acc result Halike;
    simpl; [done|].
  destruct Halike as (Hkeys & Hleaf & Hpointers). unfold find_index.
  rewrite <- (find_index_from_alike key _ _ Hkeys 0), <- Hleaf, <- Hpointers.
  destruct (find_index_from compare key (keys current) 0) as [i [|]]; [done|].
  destruct (_is_leaf current); [done|].
  destruct (vec_at (pointers current) i) as [next|]; [|discriminate]. simpl.
  destruct (disk_read t tree next) as [next_node|] eqn:Hnext; [|discriminate]. simpl.
  destruct (Hreads _ _ Hnext) as (next_node' & -> & Halike). simpl. by apply IH.
Qed.

Lemma find_path_alike fuel tree tree' key result :
  _position_root tree' = _position_root tree →
  (∀ pos (current : node), disk_read t tree pos = Ok current →
     ∃ current', disk_read t tree' pos = Ok current' ∧ routes_alike current current') →
  find_path compare t fuel tree key = Ok result →
  find_path compare t fuel tree' key = Ok result.
Proof.
  intros Hroot Hreads. unfold find_path. rewrite Hroot. destruct (_ =? NONE); [done|].
  destruct (disk_read t tree _) as [root|] eqn:Hread; [|discriminate]. simpl.
  destruct (Hreads _ _ Hread) as (root' & -> & Halike). simpl.
  by apply find_path_loop_alike.
Qed.

Lemma vec_resize_full {A : Type} (v : list A) n (x : A) :
  length v = N.to_nat n → vec_resize v n x = v.
Proof.
  intros Hlen. unfold vec_resize. rewrite <- Hlen. rewrite <- (app_nil_r v) at 2.
  apply resize_nat_app_full.
Qed.

Lemma disk_write_root (written : node) tree tree' :
  disk_write t written tree = Ok ((), tree') → _position_root tree' = _position_root tree.
Proof. unfold disk_write. destruct (node_serialize _ _ _). by intros [= <-]. Qed.
End frame.

(** ** [update], then [at] *)

Section update_law.
Context {tkey tvalue : Type} `{!Serializable tkey, !Serializable tvalue}.
Variable compare : tkey → tkey → bool.
Variable t : N.
Local Abbreviation node := (btree_disk_node (tkey := tkey) (tvalue := tvalue)).
Local Abbreviation pair := (tree_data_type (tkey := tkey) (tvalue := tvalue)).

Lemma disk_write_total (written : node) tree :
  ∃ tree', disk_write t written tree = Ok ((), tree').
Proof. unfold disk_write. destruct (node_serialize _ _ _). by eexists. Qed.

Lemma sz_add_bound a b : sz_add a b < SIZE_MOD.
Proof. unfold sz_add. apply N.mod_upper_bound. by vm_compute. Qed.

Lemma find_index_found key (current : node) index :
  vec_size (keys current) < SIZE_MOD →
  find_index compare key current = (index, true) →
  ∃ kv, vec_at (keys current) index = Ok kv
        ∧ compare kv.1 key = false ∧ compare key kv.1 = false.
Proof.
  intros Hsmall Hindex. unfold find_index in Hindex.
  apply find_index_from_spec in Hindex as (n & -> & Hn & _ & Hat); [|lia].
  destruct (keys current !! n) as [kv|] eqn:Hkv; [|discriminate].
  destruct Hat as [Hlt Hfound]. exists kv. split; [|split; [exact Hlt|]].
  - apply vec_at_lookup. by rewrite N.add_0_l, Nat2N.id.
  - by destruct (compare key kv.1).
Qed.

(** the top of the path of a found key *)
Lemma find_path_found fuel tree key pos i below index (current : node) :
  find_path compare t fuel tree key = Ok ((pos, i) :: below, (index, true)) →
  disk_read t tree pos = Ok current →
  i = index ∧ find_index compare key current = (index, true).
Proof.
  intros Hfind Hread.
  destruct (N.eqb_spec (_position_root tree) NONE) as [Hnone|Hroot].
  - unfold find_path in Hfind. rewrite Hnone in Hfind. discriminate.
  - apply find_path_top in Hfind as (top_pos & below' & top & [= -> -> ->] & Htop & Hindex & _);
      [|exact Hroot].
    rewrite Hread in Htop. injection Htop as <-. by split.
Qed.

Section written.
Hypothesis Hkey_local : reads_locally tkey.
Hypothesis Hvalue_local : reads_locally tvalue.
Variables (tree tree' : B_tree_disk) (pos : N) (current written : node).
Hypothesis Hread : disk_read t tree pos = Ok current.
Hypothesis Hposition : position_in_disk written = pos.
Hypothesis Hpointers : pointers written = pointers current.
Hypothesis Hsize : size written = vec_size (keys written).
Hypothesis Hfit : size written ≤ sz_add (maximum_keys_in_node t) 1.
Hypothesis Hkeys : Forall pair_round_trips (keys written).
Hypothesis Hwrite : disk_write t written tree = Ok ((), tree').

(** after a node read at [pos] has been written back there, a read gives
    the written node at the slot of [pos] and what it gave before elsewhere *)
Lemma disk_read_after_write other (before : node) :
  disk_read t tree other = Ok before →
  (before = current ∧ disk_read t tree' other = Ok written)
  ∨ (slot_offset_read t other ≠ slot_offset_read t pos ∧ disk_read t tree' other = Ok before).
Proof.
  intros Hother.
  destruct (decide (slot_offset_read t other = slot_offset_read t pos)) as [Halias|Hapart].
  - left. rewrite (disk_read_offset t tree _ _ Halias), Hread in Hother.
    injection Hother as <-. split; [done|].
    rewrite (disk_read_offset t tree' _ _ Halias), <- Hposition.
    rewrite (disk_read_written t written tree tree' Hkeys Hsize Hfit Hwrite).
    rewrite vec_resize_full; [by destruct written|].
    rewrite Hpointers. exact (disk_read_pointers_size _ _ _ _ Hread).
  - right. split; [exact Hapart|].
    apply (disk_read_frame t Hkey_local Hvalue_local written tree); [done | | done].
    by rewrite Hposition.
Qed.
End written.

Lemma insert_fst (ks : list pair) (n : nat) (old new : pair) :
  ks !! n = Some old → new.1 = old.1 → (<[n := new]> ks).*1 = ks.*1.
Proof.
  intros Hold Hnew. rewrite list_fmap_insert, Hnew. apply list_insert_id.
  rewrite list_lookup_fmap. exact (f_equal (fmap fst) Hold).
Qed.
End update_law.

Section update_theorem.
Context {tkey tvalue : Type} `{!Serializable tkey, !Serializable tvalue}.
Variable compare : tkey → tkey → bool.
Variable t : N.
Local Abbreviation node := (btree_disk_node (tkey := tkey) (tvalue := tvalue)).
Local Abbreviation pair := (tree_data_type (tkey := tkey) (tvalue := tvalue)).

Lemma routes_alike_refl (current : node) : routes_alike current current.
Proof. done. Qed.

(** what [at] gives, from what [find_path] gives *)
Lemma at_from_path fuel tree key path index (found : bool) pos i (current : node) :
  find_path compare t fuel tree key = Ok (path, (index, found)) →
  (found = true → stack_top path = Ok (pos, i) ∧ disk_read t tree pos = Ok current) →
  at_ compare t fuel tree key
  = if found then kv ← vec_at (keys current) index; Ok (Some kv.2) else Ok None.
Proof.
  intros Hfind Htop. unfold at_. rewrite Hfind. simpl. destruct found; [|done]. simpl.
  destruct (Htop eq_refl) as [Hstack Hread]. rewrite Hstack. simpl. by rewrite Hread.
Qed.

(** X16 ([update], then [at]): in a tree file whose slots are in place,
    when the key is found in a node that sits at its own position and holds
    as many keys as its [size], all read back from their bytes, [update]
    returns true, [at] then gives the new value, and every key the
    comparator tells apart from the stored key keeps the answer of [at]. *)
Theorem update_then_at fuel tree key value pos i below index (current : node) :
  reads_locally tkey → reads_locally tvalue →
  slots_in_place t (_file_for_tree tree) →
  find_path compare t fuel tree key = Ok ((pos, i) :: below, (index, true)) →
  disk_read t tree pos = Ok current →
  position_in_disk current = pos →
  size current = vec_size (keys current) →
  size current ≤ sz_add (maximum_keys_in_node t) 1 →
  Forall pair_round_trips (keys current) →
  round_trips value →
  ∃ tree' old,
    update compare t fuel (key, value) tree = Ok (true, tree')
    ∧ vec_at (keys current) index = Ok old
    ∧ at_ compare t fuel tree' key = Ok (Some value)
    ∧ ∀ key' r,
        compare old.1 key' = true ∨ compare key' old.1 = true →
        at_ compare t fuel tree key' = Ok r →
        at_ compare t fuel tree' key' = Ok r.
Proof.
  intros Hkey_local Hvalue_local _ Hfind Hread Hposition Hsize Hfit Hkeys Hvalue.
  destruct (find_path_found _ _ _ _ _ _ _ _ _ _ Hfind Hread) as [-> Hindex].
  assert (vec_size (keys current) < SIZE_MOD) as Hsmall.
  { rewrite <- Hsize. pose proof (sz_add_bound (maximum_keys_in_node t) 1). lia. }
  destruct (find_index_found _ _ _ _ Hsmall Hindex) as (old & Hold & Hold_key & Hkey_old).
  pose proof Hold as Hlookup. apply vec_at_lookup in Hlookup.
  set (written := {| size := size current; _is_leaf := _is_leaf current;
                     position_in_disk := position_in_disk current;
                     keys := <[N.to_nat index := (old.1, value)]> (keys current);
                     pointers := pointers current |}).
  destruct (disk_write_total t written tree) as [tree' Hwrite].
  assert (routes_alike current written) as Halike.
  { split; [|done]. symmetry. by apply (insert_fst _ _ old). }
  assert (∀ other (before : node), disk_read t tree other = Ok before →
            (before = current ∧ disk_read t tree' other = Ok written)
            ∨ (slot_offset_read t other ≠ slot_offset_read t pos
               ∧ disk_read t tree' other = Ok before)) as Hreads.
  { apply (disk_read_after_write t Hkey_local Hvalue_local tree tree' pos current written);
      try done.
    - unfold written. simpl. unfold vec_size. by rewrite length_insert.
    - unfold written. simpl. apply Forall_insert; [exact Hkeys|].
      split; simpl; [|exact Hvalue].
      by apply (Forall_lookup_1 _ _ _ _ Hkeys Hlookup). }
  assert (∀ other (before : node), disk_read t tree other = Ok before →
            ∃ after, disk_read t tree' other = Ok after ∧ routes_alike before after)
    as Hroutes.
  { intros other before Hother. destruct (Hreads _ _ Hother) as [[-> Hafter]|[_ Hafter]].
    - by exists written.
    - by exists before. }
  pose proof (disk_write_root _ _ _ _ Hwrite) as Hroot.
  assert (disk_read t tree' pos = Ok written) as Hread'.
  { by destruct (Hreads _ _ Hread) as [[_ Hafter]|[Hne _]]. }
  exists tree', old. split; [|split; [exact Hold|split]].
  - unfold update, mbind, M_bind, reading, lift. simpl. rewrite Hfind. simpl.
    rewrite Hread. simpl. rewrite Hold. simpl. unfold vec_set.
    destruct (N.ltb_spec index (vec_size (keys current))) as [_|Hge].
    + simpl.
      match goal with
      | |- match ?w with _ => _ end = _ => change w with (disk_write t written tree)
      end.
      by rewrite Hwrite.
    + apply lookup_lt_Some in Hlookup. unfold vec_size in Hge. lia.
  - rewrite (at_from_path fuel tree' key _ index true pos index written
               (find_path_alike _ _ _ _ _ _ _ Hroot Hroutes Hfind)); [|by intros _].
    unfold written. simpl.
    assert (vec_at (<[N.to_nat index := (old.1, value)]> (keys current)) index
            = Ok (old.1, value)) as ->; [|done].
    apply vec_at_lookup. apply list_lookup_insert_eq. by apply lookup_lt_Some in Hlookup.
  - intros key' r Hapart Hat.
    destruct (at_found _ _ _ _ _ _ Hat) as (path' & index' & Hfind').
    pose proof (find_path_alike _ _ _ _ _ _ _ Hroot Hroutes Hfind') as Hfind''.
    destruct r as [v'|].
    + rewrite bool_decide_true in Hfind', Hfind'' by done.
      assert (_position_root tree ≠ NONE) as Hnot_empty.
      { intros Hnone. unfold find_path in Hfind'. rewrite Hnone in Hfind'. discriminate. }
      destruct (find_path_top _ _ _ _ _ _ _ _ Hnot_empty Hfind')
        as (top_pos & below' & top & -> & Htop & Hindex' & _).
      rewrite (at_from_path fuel tree key' _ index' true top_pos index' top Hfind') in Hat;
        [|by intros _].
      destruct (Hreads _ _ Htop) as [[-> Hafter]|[_ Hafter]].
      * rewrite (at_from_path fuel tree' key' _ index' true top_pos index' written Hfind'');
          [|by intros _].
        destruct (decide (index' = index)) as [->|Hother].
        -- destruct (find_index_found _ _ _ _ Hsmall Hindex') as (old' & Hold' & H1 & H2).
           rewrite Hold in Hold'. injection Hold' as <-.
           destruct Hapart; congruence.
        -- unfold written. simpl.
           destruct (vec_at (keys current) index') as [kv|] eqn:Hkv; [|discriminate].
           assert (vec_at (<[N.to_nat index := (old.1, value)]> (keys current)) index'
                   = Ok kv) as ->; [|exact Hat].
           apply vec_at_lookup. rewrite list_lookup_insert_ne by lia.
           by apply vec_at_lookup.
      * by rewrite (at_from_path fuel tree' key' _ index' true top_pos index' top Hfind'').
    + rewrite bool_decide_false in Hfind'' by (by intros [? ?]).
      by rewrite (at_from_path fuel tree' key' _ index' false 0 0 current Hfind'').
Qed.
End update_theorem.

(** ** The scan of a node after one insertion *)

Section scan.
Context {tkey tvalue : Type} `{!Serializable tkey, !Serializable tvalue}.
Variable compare : tkey → tkey → bool.
Local Abbreviation pair := (tree_data_type (tkey := tkey) (tvalue := tvalue)).

(** the scan from [i0] is the scan from 0, moved by [i0] *)
Lemma find_index_from_offset key (ks : list pair) :
  ∀ i0, i0 + vec_size ks < SIZE_MOD →
    find_index_from compare key ks i0
    = (i0 + (find_index_from compare key ks 0).1, (find_index_from compare key ks 0).2).
Proof.
  induction ks as [|kv ks IH]; intros i0 Hsmall; simpl.
  - by rewrite N.add_0_r.
  - unfold vec_size in Hsmall. simpl length in Hsmall.
    destruct (compare_keys compare kv.1 key).
    + rewrite (IH (sz_incr i0)), (IH (sz_incr 0)).
      * simpl. rewrite !sz_incr_small by lia. f_equal. lia.
      * rewrite sz_incr_small by lia. unfold vec_size. lia.
      * rewrite sz_incr_small by lia. unfold vec_size. lia.
    + simpl. by rewrite N.add_0_r.
Qed.

Lemma find_index_from_step key (kv : pair) ks :
  1 + vec_size ks < SIZE_MOD →
  find_index_from compare key (kv :: ks) 0
  = if compare kv.1 key
    then (1 + (find_index_from compare key ks 0).1, (find_index_from compare key ks 0).2)
    else (0, negb (compare key kv.1)).
Proof.
  intros Hsmall. simpl. unfold compare_keys. destruct (compare kv.1 key); [|done].
  rewrite find_index_from_offset; rewrite sz_incr_small; try done; lia.
Qed.

Section inserted.
Hypothesis Hirreflexive : ∀ a, compare a a = false.
Hypothesis Htransitive : ∀ a b c, compare a b = true → compare b c = true → compare a c = true.
Variables (key : tkey) (value : tvalue).

Lemma compare_asymmetric a b : compare a b = true → compare b a = false.
Proof.
  intros Hab. destruct (compare b a) eqn:Hba; [|done].
  by rewrite <- (Hirreflexive a), (Htransitive a b a Hab Hba).
Qed.

(** the key is found where it was put *)
Lemma find_index_from_inserted_key (n : nat) :
  ∀ ks : list pair,
    1 + vec_size ks < SIZE_MOD →
    (n ≤ length ks)%nat →
    (∀ j kv, (j < n)%nat → ks !! j = Some kv → compare kv.1 key = true) →
    find_index_from compare key (inserted_at n (key, value) ks) 0 = (N.of_nat n, true).
Proof.
  induction n as [|n IH]; intros ks Hsmall Hn Hbefore.
  - unfold inserted_at. rewrite take_0, drop_0. simpl. unfold compare_keys. simpl.
    by rewrite Hirreflexive.
  - destruct ks as [|kv ks]; [simpl in Hn; lia|].
    unfold vec_size in Hsmall. cbn [length] in Hsmall, Hn.
    change (inserted_at (S n) (key, value) (kv :: ks))
      with (kv :: inserted_at n (key, value) ks).
    rewrite find_index_from_step.
    + rewrite (Hbefore 0%nat kv) by (simpl; done || lia).
      rewrite IH; [cbn [fst snd]; by rewrite Nat2N.inj_succ, N.add_1_l | unfold vec_size; lia | lia |].
      intros j kv' Hj Hkv'. apply (Hbefore (S j)); [lia | exact Hkv'].
    + unfold vec_size, inserted_at.
      rewrite length_app, length_take, length_cons, length_drop.
      unfold tree_data_type in *. lia.
Qed.

(** the scan for another key ends on the same pair, or on none, as before *)
Lemma find_index_from_inserted_other key' (n : nat) :
  compare key key' = true ∨ compare key' key = true →
  ∀ ks : list pair,
    1 + vec_size ks < SIZE_MOD →
    (n ≤ length ks)%nat →
    (∀ j kv, (j < n)%nat → ks !! j = Some kv → compare kv.1 key = true) →
    (∀ kv, ks !! n = Some kv → compare key kv.1 = true) →
    (find_index_from compare key' (inserted_at n (key, value) ks) 0).2
    = (find_index_from compare key' ks 0).2
    ∧ ((find_index_from compare key' ks 0).2 = true →
       inserted_at n (key, value) ks
         !! N.to_nat (find_index_from compare key' (inserted_at n (key, value) ks) 0).1
       = ks !! N.to_nat (find_index_from compare key' ks 0).1).
Proof.
  intros Hapart. induction n as [|n IH]; intros ks Hsmall Hn Hbefore Hat.
  - unfold inserted_at. rewrite take_0, drop_0. cbn [app].
    rewrite find_index_from_step by lia. cbn [fst snd].
    destruct (compare key key') eqn:Hlt.
    + cbn [fst snd]. split; [done|]. intros _. by rewrite N2Nat.inj_add.
    + destruct Hapart as [|Hgt]; [done|]. rewrite Hgt. cbn [fst snd negb].
      destruct ks as [|kv ks]; [done|].
      unfold vec_size in Hsmall. cbn [length] in Hsmall.
      rewrite find_index_from_step by (unfold vec_size; lia).
      pose proof (Hat kv eq_refl) as Hkey_kv.
      assert (compare kv.1 key' = false) as ->.
      { destruct (compare kv.1 key') eqn:Hkv; [|done].
        by rewrite <- (compare_asymmetric _ _ Hkey_kv), (Htransitive _ _ _ Hkv Hgt). }
      cbn [fst snd]. by rewrite (Htransitive _ _ _ Hgt Hkey_kv).
  - destruct ks as [|kv ks]; [simpl in Hn; lia|].
    unfold vec_size in Hsmall. cbn [length] in Hsmall, Hn.
    change (inserted_at (S n) (key, value) (kv :: ks))
      with (kv :: inserted_at n (key, value) ks).
    assert (length (inserted_at n (key, value) ks) = S (length ks)) as Hlength.
    { unfold inserted_at. rewrite length_app, length_take, length_cons, length_drop.
      unfold tree_data_type in *. lia. }
    rewrite !find_index_from_step
      by (unfold vec_size; rewrite ?Hlength; unfold tree_data_type in *; lia).
    destruct (compare kv.1 key'); [|done]. cbn [fst snd].
    destruct (IH ks) as [Hfound Hpair].
    + unfold vec_size. unfold tree_data_type in *. lia.
    + lia.
    + intros j kv' Hj Hkv'. apply (Hbefore (S j)); [lia | exact Hkv'].
    + intros kv' Hkv'. by apply Hat.
    + split; [exact Hfound|]. intros Hf. rewrite !N2Nat.inj_add. by apply Hpair.
Qed.
End inserted.
End scan.

(** ** The search after a leaf was written back *)

Section insert_law.
Context {tkey tvalue : Type} `{!Serializable tkey, !Serializable tvalue}.
Variable compare : tkey → tkey → bool.
Variable t : N.
Local Abbreviation node := (btree_disk_node (tkey := tkey) (tvalue := tvalue)).
Local Abbreviation pair := (tree_data_type (tkey := tkey) (tvalue := tvalue)).

Lemma vec_at_alt {A : Type} (v : list A) i :
  vec_at v i = match v !! N.to_nat i with Some x => Ok x | None => Fail OutOfRange end.
Proof.
  unfold vec_at, vec_size. destruct (N.ltb_spec i (N.of_nat (length v))) as [|Hge]; [done|].
  rewrite (proj2 (lookup_ge_None v (N.to_nat i))); [done | lia].
Qed.

(** the top of the path, whatever the search found *)
Lemma find_path_at_top fuel tree key pos i below index found (current : node) :
  find_path compare t fuel tree key = Ok ((pos, i) :: below, (index, found)) →
  disk_read t tree pos = Ok current →
  i = index ∧ find_index compare key current = (index, found)
  ∧ (found = false → _is_leaf current = true).
Proof.
  intros Hfind Hread.
  destruct (N.eqb_spec (_position_root tree) NONE) as [Hnone|Hroot].
  - unfold find_path in Hfind. rewrite Hnone in Hfind. discriminate.
  - apply find_path_top in Hfind
      as (top_pos & below' & top & [= -> -> ->] & Htop & Hindex & Hleaf); [|exact Hroot].
    rewrite Hread in Htop. injection Htop as <-. by repeat split.
Qed.

Section after_write.
Variables (tree tree' : B_tree_disk) (pos : N) (current written : node).
Hypothesis Hreads :
  ∀ other (before : node), disk_read t tree other = Ok before →
    (before = current ∧ disk_read t tree' other = Ok written)
    ∨ (slot_offset_read t other ≠ slot_offset_read t pos
       ∧ disk_read t tree' other = Ok before).
Hypothesis Hleaf : _is_leaf current = true.
Hypothesis Hleaf' : _is_leaf written = true.

(** the search for a key that ended at [pos] ends, after the write, on the
    written node *)
Lemma find_path_loop_rewritten_key fuel key index' (found' : bool) :
  find_index compare key written = (index', found') →
  (found' = false → _is_leaf written = true) →
  ∀ q (n n' : node) acc below i result,
    disk_read t tree q = Ok n → disk_read t tree' q = Ok n' →
    find_path_loop compare t fuel tree key q n acc = Ok ((pos, i) :: below, result) →
    ∃ top_pos below',
      find_path_loop compare t fuel tree' key q n' acc
      = Ok ((top_pos, index') :: below', (index', found'))
      ∧ disk_read t tree' top_pos = Ok written.
Proof.
  intros Hwritten Hstop.
  induction fuel as [|fuel IH]; intros q n n' acc below i result Hn Hn'; simpl; [done|].
  destruct (Hreads _ _ Hn) as [[-> Hafter]|[Hapart Hafter]];
    rewrite Hafter in Hn'; injection Hn' as <-.
  - intros _. rewrite Hwritten. exists q, acc. split; [|exact Hafter].
    destruct found'; [done|]. by rewrite (Hstop eq_refl).
  - destruct (find_index compare key n) as [m [|]].
    + intros [= Hq _ _]. by rewrite Hq in Hapart.
    + destruct (_is_leaf n).
      * intros [= Hq _ _]. by rewrite Hq in Hapart.
      * destruct (vec_at (pointers n) m) as [next|]; [|discriminate]. simpl.
        destruct (disk_read t tree next) as [next_node|] eqn:Hnext; [|discriminate]. simpl.
        assert (∃ next_node' : node, disk_read t tree' next = Ok next_node')
          as [next_node' Hnext'].
        { destruct (Hreads _ _ Hnext) as [[_ Hread']|[_ Hread']]; eexists; exact Hread'. }
        rewrite Hnext'. simpl. by apply IH.
Qed.

Lemma find_path_loop_inserted_other fuel key' :
  (find_index compare key' written).2 = (find_index compare key' current).2 →
  ((find_index compare key' current).2 = true →
   keys written !! N.to_nat (find_index compare key' written).1
   = keys current !! N.to_nat (find_index compare key' current).1) →
  ∀ q (n n' : node) acc path m f,
    disk_read t tree q = Ok n → disk_read t tree' q = Ok n' →
    find_path_loop compare t fuel tree key' q n acc = Ok (path, (m, f)) →
    ∃ path' m',
      find_path_loop compare t fuel tree' key' q n' acc = Ok (path', (m', f))
      ∧ (f = true →
         ∃ p i i' rest rest' (top top' : node),
           path = (p, i) :: rest ∧ path' = (p, i') :: rest'
           ∧ disk_read t tree p = Ok top ∧ disk_read t tree' p = Ok top'
           ∧ vec_at (keys top') m' = vec_at (keys top) m).
Proof.
  intros Hfound Hpair.
  induction fuel as [|fuel IH]; intros q n n' acc path m f Hn Hn'; simpl; [done|].
  destruct (Hreads _ _ Hn) as [[-> Hafter]|[Hapart Hafter]];
    rewrite Hafter in Hn'; injection Hn' as <-.
  - destruct (find_index compare key' current) as [m0 f0].
    destruct (find_index compare key' written) as [m0' f0']. simpl in Hfound, Hpair.
    subst f0'. rewrite Hleaf, Hleaf'.
    assert (f0 = true → vec_at (keys written) m0' = vec_at (keys current) m0) as Hat.
    { intros Hf0. by rewrite !vec_at_alt, Hpair. }
    destruct f0.
    + intros [= <- <- <-]. eexists _, m0'. split; [done|]. intros _.
      exists q, m0, m0', acc, acc, current, written. repeat split; auto.
    + intros [= <- <- <-]. eexists _, m0'. by split.
  - destruct (find_index compare key' n) as [m0 [|]].
    + intros [= <- <- <-]. eexists _, m0. split; [done|]. intros _.
      exists q, m0, m0, acc, acc, n, n. repeat split; auto.
    + destruct (_is_leaf n).
      * intros [= <- <- <-]. eexists _, m0. by split.
      * destruct (vec_at (pointers n) m0) as [next|]; [|discriminate]. simpl.
        destruct (disk_read t tree next) as [next_node|] eqn:Hnext; [|discriminate]. simpl.
        assert (∃ next_node' : node, disk_read t tree' next = Ok next_node')
        as [next_node' Hnext'].
        { destruct (Hreads _ _ Hnext) as [[_ Hread']|[_ Hread']]; eexists; exact Hread'. }
        rewrite Hnext'. simpl. by apply IH.
Qed.
End after_write.
End insert_law.

(** ** [insert] without a split, then [at] *)

Section insert_theorem.
Context {tkey tvalue : Type} `{!Serializable tkey, !Serializable tvalue}.
Variable compare : tkey → tkey → bool.
Variable t : N.
Local Abbreviation node := (btree_disk_node (tkey := tkey) (tvalue := tvalue)).
Local Abbreviation pair := (tree_data_type (tkey := tkey) (tvalue := tvalue)).

Lemma maximum_keys_bound : maximum_keys_in_node t < SIZE_MOD.
Proof. unfold maximum_keys_in_node, sz_sub. apply N.mod_upper_bound. by vm_compute. Qed.

Lemma find_index_absent key (current : node) index :
  vec_size (keys current) < SIZE_MOD →
  find_index compare key current = (index, false) →
  (N.to_nat index ≤ length (keys current))%nat
  ∧ (∀ j kv, (j < N.to_nat index)%nat → keys current !! j = Some kv →
       compare kv.1 key = true)
  ∧ (∀ kv, keys current !! N.to_nat index = Some kv → compare key kv.1 = true).
Proof.
  intros Hsmall Hindex. unfold find_index in Hindex.
  apply find_index_from_spec in Hindex as (n & -> & Hn & Hbefore & Hat); [|lia].
  rewrite N.add_0_l, Nat2N.id. repeat split; [done | done |].
  intros kv Hkv. rewrite Hkv in Hat. destruct Hat as [_ Hfound].
  by destruct (compare key kv.1).
Qed.

(** X17 ([insert] without a split, then [at]): under a strict order, in
    a tree file whose slots are in place, when the search ends in a leaf
    with room for one more key, [insert] returns true, [at] then gives the
    inserted value, and every key the comparator tells apart from the
    inserted one keeps the answer of [at]. *)
Theorem insert_then_at fuel tree key value pos i below index (current : node) :
  reads_locally tkey → reads_locally tvalue →
  strict_order compare →
  slots_in_place t (_file_for_tree tree) →
  find_path compare t fuel tree key = Ok ((pos, i) :: below, (index, false)) →
  disk_read t tree pos = Ok current →
  position_in_disk current = pos →
  size current = vec_size (keys current) →
  size current < maximum_keys_in_node t →
  maximum_keys_in_node t < NONE →
  Forall pair_round_trips (keys current) →
  round_trips key → round_trips value →
  ∃ tree',
    insert compare t fuel (key, value) tree = Ok (true, tree')
    ∧ at_ compare t fuel tree' key = Ok (Some value)
    ∧ ∀ key' r,
        compare key key' = true ∨ compare key' key = true →
        at_ compare t fuel tree key' = Ok r →
        at_ compare t fuel tree' key' = Ok r.
Proof.
  intros Hkey_local Hvalue_local [Hirreflexive Htransitive] _ Hfind Hread Hposition Hsize
    Hroom Hmax Hkeys Hkey Hvalue.
  destruct (find_path_at_top _ _ _ _ _ _ _ _ _ _ _ Hfind Hread) as (-> & Hindex & Hleaf).
  specialize (Hleaf eq_refl).
  assert (NONE + 1 = SIZE_MOD) as Hnone by (by vm_compute).
  assert (vec_size (keys current) + 2 < SIZE_MOD) as Hsmall by lia.
  assert (vec_size (keys current) < SIZE_MOD) as Hsmall' by lia.
  destruct (find_index_absent _ _ _ Hsmall' Hindex) as (Hn & Hbefore & Hat).
  set (keys' := inserted_at (N.to_nat index) (key, value) (keys current)).
  set (written := {| size := sz_incr (size current); _is_leaf := _is_leaf current;
                     position_in_disk := position_in_disk current;
                     keys := keys';
                     pointers := vec_resize (pointers current)
                                   (sz_add (maximum_keys_in_node t) 2) 0 |}).
  assert (length keys' = S (length (keys current))) as Hlength.
  { unfold keys', inserted_at. rewrite length_app, length_take, length_cons, length_drop.
    unfold tree_data_type in *. lia. }
  assert (sz_incr (size current) = size current + 1) as Hincr
    by (apply sz_incr_small; lia).
  destruct (disk_write_total t written tree) as [tree' Hwrite].
  assert (∀ other (before : node), disk_read t tree other = Ok before →
            (before = current ∧ disk_read t tree' other = Ok written)
            ∨ (slot_offset_read t other ≠ slot_offset_read t pos
               ∧ disk_read t tree' other = Ok before)) as Hreads.
  { apply (disk_read_after_write t Hkey_local Hvalue_local tree tree' pos current written);
      try done.
    - unfold written. cbn [pointers]. apply vec_resize_full.
      exact (disk_read_pointers_size _ _ _ _ Hread).
    - unfold written. cbn [size keys]. rewrite Hincr, Hsize.
      unfold vec_size, tree_data_type in *. rewrite Hlength. lia.
    - unfold written. cbn [size]. rewrite Hincr.
      unfold sz_add. rewrite N.mod_small by lia. lia.
    - unfold written. cbn [keys]. unfold keys', inserted_at.
      apply Forall_app. split; [by apply Forall_take|].
      apply Forall_cons. split; [by split | by apply Forall_drop]. }
  assert (find_index compare key written = (index, true)) as Hindex'.
  { unfold find_index, written. cbn [keys]. unfold keys'.
    rewrite (find_index_from_inserted_key compare Hirreflexive key value (N.to_nat index));
      [by rewrite N2Nat.id | lia | done | done]. }
  pose proof (disk_write_root _ _ _ _ Hwrite) as Hroot.
  assert (disk_read t tree' pos = Ok written) as Hread'.
  { by destruct (Hreads _ _ Hread) as [[_ Hafter]|[Hne _]]. }
  assert (_position_root tree ≠ NONE) as Hnot_empty.
  { intros Habsurd. unfold find_path in Hfind. rewrite Habsurd in Hfind. discriminate. }
  assert (∃ root : node, disk_read t tree (_position_root tree) = Ok root) as [root Hroot_read].
  { unfold find_path in Hfind. destruct (_ =? NONE); [discriminate|].
    destruct (disk_read t tree (_position_root tree)) as [root|]; [by exists root | discriminate]. }
  assert (∃ root' : node, disk_read t tree' (_position_root tree) = Ok root')
    as [root' Hroot_read'].
  { destruct (Hreads _ _ Hroot_read) as [[_ Hafter]|[_ Hafter]]; eexists; exact Hafter. }
  exists tree'. split; [|split].
  - unfold insert, mbind, M_bind, reading, lift. simpl. rewrite Hfind. simpl.
    rewrite Hread. simpl. unfold vec_insert.
    destruct (N.leb_spec index (vec_size (keys current))) as [_|Hgt];
      [|unfold vec_size in Hgt; lia].
    simpl.
    match goal with
    | |- match ?w with _ => _ end = _ => change w with (disk_write t written tree)
    end.
    rewrite Hwrite. rewrite Hincr.
    destruct (N.ltb_spec (maximum_keys_in_node t) (size current + 1)) as [Hsplit|_]; [lia|].
    reflexivity.
  - unfold find_path in Hfind. rewrite (proj2 (N.eqb_neq _ _) Hnot_empty), Hroot_read in Hfind.
    simpl in Hfind.
    destruct (find_path_loop_rewritten_key compare t tree tree' pos current written Hreads
                fuel key index true Hindex' ltac:(done) _ _ _ _ _ _ _
                Hroot_read Hroot_read' Hfind)
      as (top_pos & below' & Hfind' & Htop).
    rewrite (at_from_path compare t fuel tree' key ((top_pos, index) :: below') index true
               top_pos index written).
    + unfold written. cbn [keys]. unfold keys'. rewrite vec_at_alt.
      unfold inserted_at. rewrite lookup_app_r by (rewrite length_take; lia).
      rewrite length_take.
      replace (N.to_nat index - N.to_nat index `min` length (keys current))%nat with 0%nat
        by lia.
      done.
    + unfold find_path. rewrite Hroot, (proj2 (N.eqb_neq _ _) Hnot_empty), Hroot_read'.
      exact Hfind'.
    + by intros _.
  - intros key' r Hapart Hat'.
    assert (1 + vec_size (keys current) < SIZE_MOD) as Hsmall'' by lia.
    destruct (find_index_from_inserted_other compare Hirreflexive Htransitive key value key'
                (N.to_nat index) Hapart (keys current) Hsmall'' Hn Hbefore Hat)
      as [Hfound Hpair].
    destruct (at_found _ _ _ _ _ _ Hat') as (path' & index' & Hfind').
    pose proof Hfind' as Hloop. unfold find_path in Hloop.
    rewrite (proj2 (N.eqb_neq _ _) Hnot_empty), Hroot_read in Hloop. simpl in Hloop.
    destruct (find_path_loop_inserted_other compare t tree tree' pos current written Hreads
                Hleaf Hleaf fuel key' Hfound Hpair _ _ _ _ _ _ _ Hroot_read Hroot_read' Hloop)
      as (path'' & index'' & Hloop' & Hsame).
    assert (find_path compare t fuel tree' key'
            = Ok (path'', (index'', bool_decide (is_Some r)))) as Hfind''.
    { unfold find_path. by rewrite Hroot, (proj2 (N.eqb_neq _ _) Hnot_empty), Hroot_read'. }
    destruct r as [v'|].
    + rewrite bool_decide_true in Hfind', Hfind'', Hsame by done.
      destruct (Hsame eq_refl)
        as (p & j & j' & rest & rest' & top & top' & -> & -> & Htop & Htop' & Hequal).
      rewrite (at_from_path compare t fuel tree key' _ index' true p j top Hfind') in Hat'
        by (by intros _).
      rewrite (at_from_path compare t fuel tree' key' _ index'' true p j' top' Hfind'')
        by (by intros _).
      by rewrite Hequal.
    + rewrite bool_decide_false in Hfind'' by (by intros [? ?]).
      by rewrite (at_from_path compare t fuel tree' key' _ index'' false 0 0 current Hfind'').
Qed.
End insert_theorem.

(** ** [erase] from a leaf, then [at] *)

Section erase_law.
Context {tkey tvalue : Type} `{!Serializable tkey, !Serializable tvalue}.
Variable compare : tkey → tkey → bool.
Variable t : N.
Local Abbreviation node := (btree_disk_node (tkey := tkey) (tvalue := tvalue)).
Local Abbreviation pair := (tree_data_type (tkey := tkey) (tvalue := tvalue)).

Lemma sz_decr_small a : 0 < a → a < SIZE_MOD → sz_decr a = a - 1.
Proof.
  intros Hpositive Hsmall. unfold sz_decr, sz_sub.
  assert (SIZE_MOD = NONE + 1) as Hmod by (by vm_compute).
  rewrite (N.mod_small 1) by lia.
  replace (a + (SIZE_MOD - 1)) with ((a - 1) + 1 * SIZE_MOD) by lia.
  rewrite N.Div0.mod_add. apply N.mod_small. lia.
Qed.

Lemma inserted_at_erased {A : Type} (v : list A) n x :
  v !! n = Some x → inserted_at n x (take n v ++ drop (S n) v) = v.
Proof.
  intros Hx. pose proof (lookup_lt_Some _ _ _ Hx) as Hn. unfold inserted_at.
  rewrite take_app_length', drop_app_length' by (rewrite length_take; lia).
  by apply take_drop_middle.
Qed.

Section ascending.
Hypothesis Htransitive : ∀ a b c, compare a b = true → compare b c = true → compare a c = true.

Lemma ascending_tail (kv : pair) ks : ascending compare (kv :: ks) = true → ascending compare ks = true.
Proof. simpl. destruct ks; [done|]. by intros [_ ?]%andb_true_iff. Qed.

Lemma ascending_head (kv : pair) ks :
  ascending compare (kv :: ks) = true →
  ∀ n e, ks !! n = Some e → compare kv.1 e.1 = true.
Proof.
  revert kv. induction ks as [|next ks IH]; intros kv Hsorted n e; [done|].
  simpl in Hsorted. apply andb_true_iff in Hsorted as [Hnext Hsorted].
  destruct n as [|n]; simpl.
  - by intros [= <-].
  - intros He. apply (Htransitive _ next.1); [exact Hnext|]. by apply (IH next Hsorted n).
Qed.

Lemma ascending_lookup (ks : list pair) :
  ascending compare ks = true →
  ∀ j n a e, (j < n)%nat → ks !! j = Some a → ks !! n = Some e → compare a.1 e.1 = true.
Proof.
  induction ks as [|kv ks IH]; intros Hsorted j n a e Hj; [done|].
  destruct n as [|n]; [lia|]. destruct j as [|j]; simpl.
  - intros [= <-] He. by apply (ascending_head kv ks Hsorted n).
  - apply IH; [by apply (ascending_tail kv) | lia].
Qed.
End ascending.

(** without the pair that held it, the key is not found, at the same index *)
Lemma find_index_from_erased_key key (e : pair) (n : nat) :
  (∀ a b c, compare a b = true → compare b c = true → compare a c = true) →
  (∀ a b c, compare a b = false → compare b c = false → compare a c = false) →
  compare e.1 key = false →
  ∀ ks : list pair,
    1 + vec_size ks < SIZE_MOD →
    (n ≤ length ks)%nat →
    (∀ j kv, (j < n)%nat → ks !! j = Some kv → compare kv.1 key = true) →
    (∀ kv, ks !! n = Some kv → compare e.1 kv.1 = true) →
    find_index_from compare key ks 0 = (N.of_nat n, false).
Proof.
  intros Htransitive Hnegative Hold_key.
  induction n as [|n IH]; intros ks Hsmall Hn Hbefore Hat.
  - destruct ks as [|kv ks]; [done|].
    unfold vec_size in Hsmall. cbn [length] in Hsmall.
    rewrite find_index_from_step by (unfold vec_size; lia).
    pose proof (Hat kv eq_refl) as Hnext.
    assert (compare kv.1 key = false) as ->.
    { destruct (compare kv.1 key) eqn:Hlt; [|done].
      pose proof (Htransitive _ _ _ Hnext Hlt) as Habsurd. congruence. }
    destruct (compare key kv.1) eqn:Hgt; [done|].
    pose proof (Hnegative _ _ _ Hold_key Hgt) as Habsurd. congruence.
  - destruct ks as [|kv ks]; [simpl in Hn; lia|].
    unfold vec_size in Hsmall. cbn [length] in Hsmall, Hn.
    rewrite find_index_from_step by (unfold vec_size; lia).
    rewrite (Hbefore 0%nat kv) by (simpl; done || lia).
    rewrite IH; [cbn [fst snd]; by rewrite Nat2N.inj_succ, N.add_1_l | unfold vec_size; lia
                | lia | | ].
    + intros j kv' Hj Hkv'. apply (Hbefore (S j)); [lia | exact Hkv'].
    + intros kv' Hkv'. by apply Hat.
Qed.
End erase_law.

Section erase_theorem.
Context {tkey tvalue : Type} `{!Serializable tkey, !Serializable tvalue}.
Variable compare : tkey → tkey → bool.
Variable t : N.
Local Abbreviation node := (btree_disk_node (tkey := tkey) (tvalue := tvalue)).
Local Abbreviation pair := (tree_data_type (tkey := tkey) (tvalue := tvalue)).

(** X18 ([erase] from a leaf without underflow, then [at]): under a
    strict weak order, in a tree file whose slots are in place, when the key
    is found in a leaf with ascending keys and more than
    [minimum_keys_in_node] (and more than one) of them, [erase] returns
    true, [at] then finds nothing for the key, and every key the comparator
    tells apart from the erased one keeps the answer of [at]. *)
Theorem erase_then_at fuel tree key pos i below index (current : node) :
  reads_locally tkey → reads_locally tvalue →
  strict_weak_order compare →
  slots_in_place t (_file_for_tree tree) →
  find_path compare t fuel tree key = Ok ((pos, i) :: below, (index, true)) →
  disk_read t tree pos = Ok current →
  position_in_disk current = pos →
  _is_leaf current = true →
  size current = vec_size (keys current) →
  size current ≤ sz_add (maximum_keys_in_node t) 1 →
  minimum_keys_in_node t < size current →
  1 < size current →
  ascending compare (keys current) = true →
  Forall pair_round_trips (keys current) →
  ∃ tree' old,
    erase compare t fuel key tree = Ok (true, tree')
    ∧ vec_at (keys current) index = Ok old
    ∧ at_ compare t fuel tree' key = Ok None
    ∧ ∀ key' r,
        compare old.1 key' = true ∨ compare key' old.1 = true →
        at_ compare t fuel tree key' = Ok r →
        at_ compare t fuel tree' key' = Ok r.
Proof.
  intros Hkey_local Hvalue_local [[Hirreflexive Htransitive] Hnegative] _ Hfind Hread
    Hposition Hleaf Hsize Hfit Hminimum Hmany Hsorted Hkeys.
  destruct (find_path_at_top _ _ _ _ _ _ _ _ _ _ _ Hfind Hread) as (-> & Hindex & _).
  pose proof (sz_add_bound (maximum_keys_in_node t) 1) as Hbound.
  assert (vec_size (keys current) < SIZE_MOD) as Hsmall by lia.
  pose proof Hindex as Hscan. unfold find_index in Hscan.
  apply find_index_from_spec in Hscan as (n & Hn_index & Hn & Hbefore & Hat);
    [|unfold tree_data_type in *; lia].
  rewrite N.add_0_l in Hn_index.
  destruct (keys current !! n) as [old|] eqn:Hold; [|discriminate].
  destruct Hat as [Hold_key Hkey_old].
  assert (compare key old.1 = false) as Hkey_old' by (by destruct (compare key old.1)).
  clear Hkey_old.
  pose proof (lookup_lt_Some _ _ _ Hold) as Hn_lt.
  assert (N.to_nat index = n) as Hnat by lia.
  set (keys' := take n (keys current) ++ drop (S n) (keys current)).
  set (written := with_keys current (sz_decr (size current)) keys').
  assert (S (length keys') = length (keys current)) as Hlength.
  { unfold keys'. rewrite length_app, length_take, length_drop.
    unfold tree_data_type in *. lia. }
  assert (sz_decr (size current) = size current - 1) as Hdecr
    by (apply sz_decr_small; lia).
  assert (∀ j, (j < n)%nat → keys' !! j = keys current !! j) as Hlow.
  { intros j Hj. unfold keys'. rewrite lookup_app_l by (rewrite length_take; lia).
    by apply lookup_take_lt. }
  assert (keys' !! n = keys current !! S n) as Hhigh.
  { unfold keys'. rewrite lookup_app_r by (rewrite length_take; lia).
    rewrite length_take, lookup_drop. f_equal. lia. }
  assert (∀ kv, keys' !! n = Some kv → compare old.1 kv.1 = true) as Hnext.
  { intros kv Hkv. pose proof (eq_trans (eq_sym Hhigh) Hkv) as Hkv'.
    apply (ascending_lookup compare Htransitive _ Hsorted n (S n) old kv); [lia | done | done]. }
  destruct (disk_write_total t written tree) as [tree' Hwrite].
  assert (∀ other (before : node), disk_read t tree other = Ok before →
            (before = current ∧ disk_read t tree' other = Ok written)
            ∨ (slot_offset_read t other ≠ slot_offset_read t pos
               ∧ disk_read t tree' other = Ok before)) as Hreads.
  { apply (disk_read_after_write t Hkey_local Hvalue_local tree tree' pos current written);
      try done.
    - unfold written. cbn [size keys with_keys]. rewrite Hdecr, Hsize.
      unfold vec_size, tree_data_type in *. lia.
    - unfold written. cbn [size with_keys]. lia.
    - unfold written. cbn [keys with_keys]. unfold keys'.
      apply Forall_app. split; [by apply Forall_take | by apply Forall_drop]. }
  assert (find_index compare key written = (index, false)) as Hindex'.
  { unfold find_index, written. cbn [keys with_keys].
    rewrite (find_index_from_erased_key compare key old n Htransitive Hnegative Hold_key);
      [f_equal; lia | unfold vec_size, tree_data_type in *; lia
      | unfold tree_data_type in *; lia | | done].
    intros j kv Hj Hkv. pose proof (eq_trans (eq_sym (Hlow j Hj)) Hkv) as Hkv'.
    by apply (Hbefore j). }
  pose proof (disk_write_root _ _ _ _ Hwrite) as Hroot.
  assert (_position_root tree ≠ NONE) as Hnot_empty.
  { intros Habsurd. unfold find_path in Hfind. rewrite Habsurd in Hfind. discriminate. }
  assert (∃ root : node, disk_read t tree (_position_root tree) = Ok root) as [root Hroot_read].
  { unfold find_path in Hfind. destruct (_ =? NONE); [discriminate|].
    destruct (disk_read t tree (_position_root tree)) as [root|]; [by exists root | discriminate]. }
  assert (∃ root' : node, disk_read t tree' (_position_root tree) = Ok root')
    as [root' Hroot_read'].
  { destruct (Hreads _ _ Hroot_read) as [[_ Hafter]|[_ Hafter]]; eexists; exact Hafter. }
  exists tree', old. split; [|split; [|split]].
  - unfold erase, mbind, M_bind, reading, lift, get_position_root.
    rewrite (proj2 (N.eqb_neq _ _) Hnot_empty), Hfind. simpl.
    rewrite Hread. simpl. rewrite Hleaf. unfold vec_erase.
    destruct (N.ltb_spec index (vec_size (keys current))) as [_|Hge];
      [|unfold vec_size, tree_data_type in *; lia].
    simpl. rewrite Hnat.
    match goal with
    | |- match ?w with _ => _ end = _ => change w with (disk_write t written tree)
    end.
    rewrite Hwrite. rewrite Hdecr.
    destruct (N.ltb_spec (size current - 1) (minimum_keys_in_node t)) as [Hunder|_]; [lia|].
    simpl. destruct (N.eqb_spec (size current - 1) 0) as [Hzero|_]; [lia|].
    rewrite andb_false_r. reflexivity.
  - apply vec_at_lookup. by rewrite Hnat.
  - unfold find_path in Hfind. rewrite (proj2 (N.eqb_neq _ _) Hnot_empty), Hroot_read in Hfind.
    simpl in Hfind.
    destruct (find_path_loop_rewritten_key compare t tree tree' pos current written Hreads
                fuel key index false Hindex' ltac:(done) _ _ _ _ _ _ _
                Hroot_read Hroot_read' Hfind)
      as (top_pos & below' & Hfind' & Htop).
    rewrite (at_from_path compare t fuel tree' key ((top_pos, index) :: below') index false
               top_pos index written); [done | | done].
    unfold find_path. rewrite Hroot, (proj2 (N.eqb_neq _ _) Hnot_empty), Hroot_read'.
    exact Hfind'.
  - intros key' r Hapart Hat'.
    assert (1 + vec_size keys' < SIZE_MOD) as Hsmall'
      by (unfold vec_size, tree_data_type in *; lia).
    destruct (find_index_from_inserted_other compare Hirreflexive Htransitive old.1 old.2 key'
                n Hapart keys' Hsmall' ltac:(unfold tree_data_type in *; lia)) as [Hfound Hpair].
    { intros j kv Hj Hkv. pose proof (eq_trans (eq_sym (Hlow j Hj)) Hkv) as Hkv'.
      apply (ascending_lookup compare Htransitive _ Hsorted j n kv old); [lia | done | done]. }
    { exact Hnext. }
    assert (inserted_at n (old.1, old.2) keys' = keys current) as Hback.
    { unfold keys'. rewrite <- (inserted_at_erased _ _ _ Hold) at 3. by destruct old. }
    rewrite Hback in Hfound, Hpair.
    destruct (at_found _ _ _ _ _ _ Hat') as (path' & index' & Hfind').
    pose proof Hfind' as Hloop. unfold find_path in Hloop.
    rewrite (proj2 (N.eqb_neq _ _) Hnot_empty), Hroot_read in Hloop. simpl in Hloop.
    assert ((find_index compare key' written).2 = (find_index compare key' current).2)
      as Hfound'.
    { unfold find_index, written. cbn [keys with_keys]. by rewrite Hfound. }
    assert ((find_index compare key' current).2 = true →
            keys written !! N.to_nat (find_index compare key' written).1
            = keys current !! N.to_nat (find_index compare key' current).1) as Hpair'.
    { unfold find_index, written. cbn [keys with_keys]. intros Hcurrent.
      symmetry. apply Hpair. by rewrite <- Hfound. }
    destruct (find_path_loop_inserted_other compare t tree tree' pos current written Hreads
                Hleaf Hleaf fuel key' Hfound' Hpair' _ _ _ _ _ _ _
                Hroot_read Hroot_read' Hloop)
      as (path'' & index'' & Hloop' & Hsame).
    assert (find_path compare t fuel tree' key'
            = Ok (path'', (index'', bool_decide (is_Some r)))) as Hfind''.
    { unfold find_path. by rewrite Hroot, (proj2 (N.eqb_neq _ _) Hnot_empty), Hroot_read'. }
    destruct r as [v'|].
    + rewrite bool_decide_true in Hfind', Hfind'', Hsame by done.
      destruct (Hsame eq_refl)
        as (p & j & j' & rest & rest' & top & top' & -> & -> & Htop & Htop' & Hequal).
      rewrite (at_from_path compare t fuel tree key' _ index' true p j top Hfind') in Hat'
        by (by intros _).
      rewrite (at_from_path compare t fuel tree' key' _ index'' true p j' top' Hfind'')
        by (by intros _).
      by rewrite Hequal.
    + rewrite bool_decide_false in Hfind'' by (by intros [? ?]).
      by rewrite (at_from_path compare t fuel tree' key' _ index'' false 0 0 current Hfind'').
Qed.
End erase_theorem.

(** ** [check_tree] and the loop over a leaf *)

Section checks_and_loops.
Context {tkey tvalue : Type} `{!Serializable tkey, !Serializable tvalue}.
Variable compare : tkey → tkey → bool.
Variable t : N.
Local Abbreviation node := (btree_disk_node (tkey := tkey) (tvalue := tvalue)).
Local Abbreviation pair := (tree_data_type (tkey := tkey) (tvalue := tvalue)).

Lemma same_count_update fuel data : respects same_count (update compare t fuel data).
Proof. unfold update. repeat respects_step I. Qed.

Lemma same_count_erase fuel key :
  respects same_count (erase (tvalue := tvalue) compare t fuel key).
Proof. unfold erase. repeat respects_step (same_count_rebalance_node (tkey := tkey) (tvalue := tvalue) t). Qed.

Lemma check_keys_order_result (ks : list pair) :
  ∀ previous pos,
    check_keys_order compare previous ks pos = Ok ()
    ∨ check_keys_order compare previous ks pos
      = Fail (logic_error "Keys order violation in node at position " pos).
Proof.
  induction ks as [|kv ks IH]; intros previous pos; simpl; [by left|].
  destruct (compare_keys compare kv.1 previous.1); [by right | apply IH].
Qed.

Lemma collect_leaf tree pos (leaf : node) index0 :
  disk_read t tree pos = Ok leaf →
  _is_leaf leaf = true →
  vec_size (keys leaf) < SIZE_MOD →
  ∀ (remaining : nat) (idx : nat) fuel,
    (idx + remaining = length (keys leaf))%nat → (0 < remaining)%nat →
    (remaining ≤ fuel)%nat →
    collect (tkey := tkey) (tvalue := tvalue) t fuel tree
      {| _path := [(pos, N.of_nat idx)]; _index := index0 |} end_
    = Ok (drop idx (keys leaf)).
Proof.
  intros Hread Hleaf Hsmall. unfold vec_size in Hsmall.
  induction remaining as [|remaining IH]; intros idx fuel Hidx Hpositive Hfuel; [lia|].
  destruct fuel as [|fuel]; [lia|]. cbn [collect].
  unfold iterator_eqb. cbn [_path end_]. rewrite bool_decide_false by done.
  unfold dereference. cbn [_path]. rewrite Hread. cbn [mbind result_bind].
  destruct (keys leaf !! idx) as [kv|] eqn:Hkv;
    [|apply lookup_ge_None in Hkv; unfold tree_data_type in *; lia].
  rewrite (proj2 (vec_at_lookup _ _ _)) by (by rewrite Nat2N.id).
  cbn [mbind result_bind]. unfold increment. cbn [_path _index]. rewrite Hread.
  cbn [mbind result_bind]. rewrite Hleaf. cbn [negb].
  assert (sz_add (N.of_nat idx) 1 = N.of_nat (S idx)) as ->.
  { unfold sz_add. rewrite N.mod_small by (unfold tree_data_type in *; lia). lia. }
  rewrite (drop_S _ _ _ Hkv).
  destruct (N.ltb_spec (N.of_nat (S idx)) (vec_size (keys leaf))) as [Hmore|Hlast].
  - cbn [mbind result_bind]. rewrite (IH (S idx) fuel); [done | | | lia].
    + unfold tree_data_type in *. lia.
    + unfold vec_size, tree_data_type in *. lia.
  - cbn [ascend mbind result_bind].
    assert (collect (tkey := tkey) (tvalue := tvalue) t fuel tree
              {| _path := []; _index := index0 |} end_ = Ok []) as ->.
    { destruct fuel; cbn [collect]; unfold iterator_eqb; cbn [_path end_];
        by rewrite bool_decide_true. }
    cbn [mbind result_bind]. rewrite drop_ge; [done|].
    unfold vec_size, tree_data_type in *. lia.
Qed.
End checks_and_loops.

(** ** Slots in place *)

Section placement.
Variable t : N.

(** the offset of a position in place is computed without a wrap *)
Lemma slot_offset_in_place pos :
  position_in_place t pos →
  slot_offset_write t pos = header_size + pos * node_size_write t.
Proof.
  unfold position_in_place, slot_offset_write, sz_add, sz_mul. intros Hplace.
  assert (2 ^ 63 < SIZE_MOD) as Hmod by reflexivity.
  rewrite (N.mod_small (pos * _)) by nia. rewrite N.mod_small by nia. reflexivity.
Qed.

(** two positions in place have their slots at two offsets *)
Lemma offsets_apart p q :
  0 < t → t < 2 ^ 58 → p ≠ q →
  position_in_place t p → position_in_place t q →
  slot_offset_read t p ≠ slot_offset_read t q.
Proof.
  intros Hpos Ht Hpq Hp Hq.
  rewrite <- !slot_offset_write_read, (slot_offset_in_place p Hp), (slot_offset_in_place q Hq).
  destruct (node_size_small t Hpos Ht) as [_ Hwrite]. rewrite Hwrite. nia.
Qed.

(** an offset in place is the offset of a position in place *)
Lemma offset_in_place_position offset :
  0 < t → t < 2 ^ 58 →
  offset_in_place t offset = true →
  ∃ pos, position_in_place t pos ∧ offset = slot_offset_write t pos.
Proof.
  intros Hpos Ht. destruct (node_size_small t Hpos Ht) as [_ Hwrite].
  unfold offset_in_place. rewrite !andb_true_iff, N.leb_le, N.eqb_eq, N.leb_le.
  intros [[Hheader Hexact] Hend].
  assert (node_size_write t ≠ 0) as Hsize by lia.
  apply N.Div0.div_exact in Hexact.
  set (pos := (offset - header_size) / node_size_write t) in *.
  assert (position_in_place t pos) as Hplace by (unfold position_in_place; nia).
  exists pos. split; [exact Hplace|]. rewrite (slot_offset_in_place pos Hplace). nia.
Qed.
End placement.

(** ** The store, the search, absent keys, the files, [check_tree], the loops *)

Section behaviour.
Context {tkey tvalue : Type} `{!Serializable tkey, !Serializable tvalue}.
Variable compare : tkey → tkey → bool.
Variable t : N.
Local Abbreviation node := (btree_disk_node (tkey := tkey) (tvalue := tvalue)).
Local Abbreviation pair := (tree_data_type (tkey := tkey) (tvalue := tvalue)).

(** X5 ([disk_write], [disk_read]): a node at a position in place (its
    slot ends within [2^63] bytes, so the offset does not wrap around and
    the seek succeeds), whose [size] is the number of its keys, at most
    [maximum_keys_in_node + 1], and whose keys and values are read back from
    their own bytes, is read back at its position as it was written, with
    the table of children cut or filled with zeros to
    [maximum_keys_in_node + 2] entries. *)
Theorem disk_write_then_read (written : node) tree tree' :
  position_in_place t (position_in_disk written) →
  Forall pair_round_trips (keys written) →
  size written = vec_size (keys written) →
  size written ≤ sz_add (maximum_keys_in_node t) 1 →
  disk_write t written tree = Ok ((), tree') →
  disk_read t tree' (position_in_disk written)
  = Ok {| size := size written; _is_leaf := _is_leaf written;
          position_in_disk := position_in_disk written; keys := keys written;
          pointers := vec_resize (pointers written) (sz_add (maximum_keys_in_node t) 2) 0 |}.
Proof. intros _. apply disk_read_written. Qed.

(** X6 ([disk_write]): for [0 < t < 2^58], writing a node changes no
    node at another position, both positions being in place (their slots end
    within [2^63] bytes, so they do not overlap): what [disk_read] gave
    there, it gives after the write. (The payload is appended to the data
    file, so the codecs must not depend on what follows the bytes they
    read.) *)
Theorem disk_write_keeps_other_nodes (written : node) tree tree' pos (other : node) :
  reads_locally tkey → reads_locally tvalue →
  0 < t → t < 2 ^ 58 →
  position_in_place t pos → position_in_place t (position_in_disk written) →
  pos ≠ position_in_disk written →
  disk_write t written tree = Ok ((), tree') →
  disk_read t tree pos = Ok other →
  disk_read t tree' pos = Ok other.
Proof.
  intros Hkey Hvalue Hpos Ht Hplace Hwritten Hother Hwrite.
  apply (disk_read_frame t Hkey Hvalue written tree tree' pos other Hwrite).
  by apply offsets_apart.
Qed.

(** X7 ([find_index]): the index returned is the first one whose key is
    not less than the searched key (the number of keys if there is none):
    every key before it is less, and [found] says that the searched key is
    not less than the key at the index either. *)
Theorem find_index_lower_bound key (current : node) index found :
  vec_size (keys current) < SIZE_MOD →
  find_index compare key current = (index, found) →
  index ≤ vec_size (keys current)
  ∧ (∀ j kv, j < index → vec_at (keys current) j = Ok kv → compare kv.1 key = true)
  ∧ match vec_at (keys current) index with
    | Ok kv => compare kv.1 key = false ∧ found = negb (compare key kv.1)
    | Fail _ => found = false
    end.
Proof.
  intros Hsmall Hindex. unfold find_index in Hindex.
  apply find_index_from_spec in Hindex as (n & -> & Hn & Hbefore & Hat); [|lia].
  rewrite N.add_0_l. split; [unfold vec_size; lia|]. split.
  - intros j kv Hj Hkv. apply vec_at_lookup in Hkv. apply (Hbefore (N.to_nat j)); [lia | done].
  - rewrite vec_at_alt, Nat2N.id. by destruct (keys current !! n).
Qed.

(** X8 ([find_path]): on a tree with a root, the stack returned has on
    top the node the search stopped in, with the index [find_index] gave
    there, which is the index returned; the search stops without the key only
    in a leaf; and below the top the stack is the chain of internal nodes
    from the root, each with the index of the child that was followed. *)
Theorem find_path_descent fuel tree key path index found :
  _position_root tree ≠ NONE →
  find_path compare t fuel tree key = Ok (path, (index, found)) →
  ∃ pos below (top : node),
    path = (pos, index) :: below
    ∧ disk_read t tree pos = Ok top
    ∧ find_index compare key top = (index, found)
    ∧ (found = false → _is_leaf top = true)
    ∧ descent_from_root (tvalue := tvalue) compare t tree key path.
Proof.
  intros Hroot Hfind.
  destruct (find_path_top _ _ _ _ _ _ _ _ Hroot Hfind)
    as (pos & below & top & -> & Htop & Hindex & Hleaf).
  exists pos, below, top. do 4 (split; [done|]).
  unfold find_path in Hfind. rewrite (proj2 (N.eqb_neq _ _) Hroot) in Hfind.
  destruct (disk_read t tree (_position_root tree)) as [root|] eqn:Hread; [|discriminate].
  simpl in Hfind.
  apply (find_path_loop_descent compare t fuel tree key _ root [] _ (index, found) Hread);
    [by simpl | exact Hfind].
Qed.

(** X9 ([update], [erase]): for a key that [at] does not find, [update]
    and [erase] return false and leave the tree object and both files as
    they were. *)
Theorem absent_key_changes_nothing fuel tree key value :
  at_ compare t fuel tree key = Ok None →
  update compare t fuel (key, value) tree = Ok (false, tree)
  ∧ erase compare t fuel key tree = Ok (false, tree).
Proof.
  intros Hat. destruct (at_found _ _ _ _ _ _ Hat) as (path & index & Hfind).
  rewrite bool_decide_false in Hfind by (by intros [? ?]). split.
  - by apply (update_absent compare t fuel (key, value) path index).
  - by apply (erase_absent compare t fuel key path index).
Qed.

(** X10 (a tree whose root position is [size_t(-1)]): [at] finds
    nothing, [update] and [erase] return false and change nothing,
    [find_range] gives two end iterators, the loop between them meets no
    pair, and [check_tree] at the root accepts. *)
Theorem empty_tree_behaviour fuel tree key value lower upper include_lower include_upper :
  _position_root tree = NONE →
  at_ compare t fuel tree key = Ok None
  ∧ update compare t fuel (key, value) tree = Ok (false, tree)
  ∧ erase compare t fuel key tree = Ok (false, tree)
  ∧ find_range compare t fuel tree lower upper include_lower include_upper = Ok (end_, end_)
  ∧ collect (tkey := tkey) (tvalue := tvalue) t fuel tree end_ end_ = Ok []
  ∧ check_tree (tvalue := tvalue) compare t (S fuel) tree (_position_root tree) 0 = Ok ().
Proof.
  intros Hroot.
  assert (∀ k, find_path (tvalue := tvalue) compare t fuel tree k = Ok ([], (0, false)))
    as Hfind.
  { intros k. unfold find_path. by rewrite Hroot. }
  repeat split.
  - unfold at_. by rewrite Hfind.
  - by apply (update_absent compare t fuel (key, value) [] 0).
  - by apply (erase_absent compare t fuel key [] 0).
  - unfold find_range. by rewrite !Hfind.
  - by destruct fuel.
  - simpl. by rewrite Hroot.
Qed.

(** X11 ([insert], [update], [erase]): the flag of a mutation follows
    what [at] gives for the key before it. For a key that [at] finds,
    [insert] returns false and changes nothing, and [update] and [erase],
    when they return, return true. For a key that [at] does not find,
    [update] and [erase] return false and change nothing, and [insert], when
    it returns, returns true. (A call that writes need not return: [insert]
    on a tree without a root faults.) *)
Theorem returned_flag_reports_presence fuel tree key (r : option tvalue) :
  at_ compare t fuel tree key = Ok r →
  match r with
  | Some _ =>
      (∀ value, insert compare t fuel (key, value) tree = Ok (false, tree))
      ∧ (∀ value b tree', update compare t fuel (key, value) tree = Ok (b, tree') → b = true)
      ∧ (∀ b tree', erase compare t fuel key tree = Ok (b, tree') → b = true)
  | None =>
      (∀ value b tree', insert compare t fuel (key, value) tree = Ok (b, tree') → b = true)
      ∧ (∀ value, update compare t fuel (key, value) tree = Ok (false, tree))
      ∧ erase compare t fuel key tree = Ok (false, tree)
  end.
Proof.
  intros Hat. destruct (at_found _ _ _ _ _ _ Hat) as (path & index & Hfind).
  destruct r as [old|].
  - rewrite bool_decide_true in Hfind by (by eexists). repeat split.
    + intros value. unfold insert, mbind, M_bind, reading. simpl. by rewrite Hfind.
    + intros value b tree'.
      by apply (update_returns_true compare t fuel (key, value) path index).
    + intros b tree'. by apply (erase_returns_true compare t fuel key path index).
  - rewrite bool_decide_false in Hfind by (by intros [? ?]). repeat split.
    + intros value b tree'.
      by apply (insert_returns_true compare t fuel (key, value) path index).
    + intros value. exact (update_absent compare t fuel (key, value) path index tree Hfind).
    + exact (erase_absent compare t fuel key path index tree Hfind).
Qed.

(** X12 ([insert], [update], [erase] through [disk_write]): the data
    file only grows: the file before any run of mutations is a prefix of the
    file after, and a pair that could be read at an offset is read there
    unchanged afterwards. *)
Theorem data_file_append_only fuel ops tree returned tree' :
  reads_locally tkey → reads_locally tvalue →
  run_mutations compare t fuel ops tree = Ok (returned, tree') →
  _file_for_key_value tree `prefix_of` _file_for_key_value tree'
  ∧ ∀ pos (kv : pair),
      read_pair (_file_for_key_value tree) pos = Ok kv →
      read_pair (_file_for_key_value tree') pos = Ok kv.
Proof.
  intros Hkey Hvalue Hrun.
  assert (data_grows tree tree') as [tail Htail].
  { eapply (respects_run_mutations compare t data_grows); [|exact Hrun].
    apply data_grows_mutation. }
  split; [by exists tail|]. intros pos kv. rewrite Htail. by apply read_pair_more.
Qed.

(** X13 (the constructor, [print_root_position]): after construction and
    any run of mutations all of whose slots are in place (the condition on
    the file after the run covers every slot the run wrote, since none is
    removed: no slot reaches into the header), the word at offset
    [sizeof(size_t)] of the tree file is [_position_root]. *)
Theorem header_root_follows_root fuel files tree0 ops returned tree :
  B_tree_disk_ctor (tkey := tkey) (tvalue := tvalue) t files = Ok tree0 →
  run_mutations compare t fuel ops tree0 = Ok (returned, tree) →
  slots_in_place t (_file_for_tree tree) →
  header_root (_file_for_tree tree) = Some (_position_root tree).
Proof.
  intros Hctor Hrun _.
  apply (respects_run_mutations compare t keeps_root_in_header fuel ops
           (root_in_header_mutation compare t fuel) _ _ _ Hrun).
  exact (ctor_root_in_header t files tree0 Hctor).
Qed.

(** X14 ([update], [erase], [rebalance_node]): neither [update] nor
    [erase] changes [_count_of_node]: no position is allocated, and none is
    given back when nodes are merged. *)
Theorem update_and_erase_allocate_nothing fuel (data : pair) key tree b tree' :
  update compare t fuel data tree = Ok (b, tree') ∨ erase compare t fuel key tree = Ok (b, tree') →
  _count_of_node tree' = _count_of_node tree.
Proof.
  intros [Hrun|Hrun].
  - exact (same_count_update compare t fuel data _ _ _ Hrun).
  - exact (same_count_erase compare t fuel key _ _ _ Hrun).
Qed.


(** X19 ([check_tree]): [check_tree] throws [logic_error] at every
    internal node with at most [maximum_keys_in_node] keys that [disk_read]
    returns: such a node has [maximum_keys_in_node + 2] entries in
    [pointers], never [size + 1]. *)
Theorem check_tree_rejects_internal_nodes fuel tree pos depth (current : node) :
  pos ≠ NONE →
  disk_read t tree pos = Ok current →
  _is_leaf current = false →
  size current ≤ maximum_keys_in_node t →
  maximum_keys_in_node t < NONE →
  ∃ what, check_tree compare t (S fuel) tree pos depth = Fail (logic_error what pos).
Proof.
  intros Hpos Hread Hleaf Hsize Hmax. cbn [check_tree].
  rewrite (proj2 (N.eqb_neq _ _) Hpos), Hread. cbn [mbind result_bind].
  destruct (negb (pos =? _position_root tree) && _); [by eexists|].
  assert ((match keys current with
           | [] => Ok ()
           | kv :: ks => check_keys_order compare kv ks pos
           end) = Ok ()
          ∨ (match keys current with
             | [] => Ok ()
             | kv :: ks => check_keys_order compare kv ks pos
             end) = Fail (logic_error "Keys order violation in node at position " pos))
    as [-> | ->].
  { destruct (keys current) as [|kv ks]; [by left | apply check_keys_order_result]. }
  - cbn [mbind result_bind]. rewrite Hleaf. cbn [negb].
    assert ((vec_size (pointers current) =? sz_add (size current) 1) = false) as ->;
      [|by eexists].
    apply N.eqb_neq. unfold vec_size.
    rewrite (disk_read_pointers_size _ _ _ _ Hread), N2Nat.id.
    assert (NONE + 1 = SIZE_MOD) as Hnone by (by vm_compute).
    assert (NONE = 18446744073709551615) as Hvalue by (by vm_compute).
    unfold sz_add. rewrite (N.mod_small (size current + 1)) by lia.
    destruct (N.eq_dec (maximum_keys_in_node t + 2) SIZE_MOD) as [Hwrap|Hfit].
    + rewrite Hwrap, N.Div0.mod_same. lia.
    + rewrite N.mod_small by lia. lia.
  - by eexists.
Qed.

(** the search in a tree whose root is a leaf stops in the root *)
Lemma find_path_leaf_root fuel tree (root : node) key :
  _position_root tree ≠ NONE →
  disk_read t tree (_position_root tree) = Ok root →
  _is_leaf root = true →
  find_path compare t (S fuel) tree key
  = Ok ([(_position_root tree, (find_index compare key root).1)], find_index compare key root).
Proof.
  intros Hroot Hread Hleaf. unfold find_path.
  rewrite (proj2 (N.eqb_neq _ _) Hroot), Hread. cbn [mbind result_bind find_path_loop].
  destruct (find_index compare key root) as [index [|]]; [done|]. by rewrite Hleaf.
Qed.

(** [operator++] in a leaf that has no frame below it *)
Lemma increment_in_leaf_root fuel tree pos (leaf : node) idx index0 :
  disk_read t tree pos = Ok leaf →
  _is_leaf leaf = true →
  increment (tkey := tkey) (tvalue := tvalue) t fuel tree
    {| _path := [(pos, idx)]; _index := index0 |}
  = Ok {| _path := if sz_add idx 1 <? vec_size (keys leaf) then [(pos, sz_add idx 1)] else [];
          _index := index0 |}.
Proof.
  intros Hread Hleaf. unfold increment. cbn [_path _index]. rewrite Hread.
  cbn [mbind result_bind]. rewrite Hleaf. cbn [negb].
  by destruct (sz_add idx 1 <? vec_size (keys leaf)).
Qed.

Lemma collect_from_end fuel tree index0 :
  collect (tkey := tkey) (tvalue := tvalue) t fuel tree {| _path := []; _index := index0 |} end_
  = Ok [].
Proof.
  destruct fuel; cbn [collect]; unfold iterator_eqb; cbn [_path end_];
    by rewrite bool_decide_true.
Qed.

(** X20 ([find_range], [operator++], [operator*], [end] on a root leaf):
    in a tree whose root is a leaf, when [lower] is not greater than every
    key, the loop from the first iterator of [find_range] to [end()] meets
    the pairs of the root from the first key that is not less than [lower],
    in their order; this key is left out when it is equivalent to [lower]
    and [include_lower] is false. *)
Theorem range_to_end_in_leaf_root fuel tree (root : node) lower upper
    include_lower include_upper index found :
  _position_root tree ≠ NONE →
  disk_read t tree (_position_root tree) = Ok root →
  _is_leaf root = true →
  vec_size (keys root) < SIZE_MOD →
  (length (keys root) ≤ fuel)%nat →
  find_index compare lower root = (index, found) →
  index < vec_size (keys root) →
  ∃ lo hi,
    find_range compare t fuel tree lower upper include_lower include_upper = Ok (lo, hi)
    ∧ collect (tkey := tkey) (tvalue := tvalue) t fuel tree lo end_
      = Ok (drop (N.to_nat (if found && negb include_lower then index + 1 else index))
              (keys root)).
Proof.
  intros Hroot Hread Hleaf Hsmall Hfuel Hindex Hless. unfold vec_size in *.
  destruct fuel as [|fuel]; [unfold tree_data_type in *; lia|].
  destruct (find_index compare upper root) as [ui uf] eqn:Hupper.
  unfold find_range.
  rewrite !(find_path_leaf_root fuel tree root _ Hroot Hread Hleaf), Hindex, Hupper.
  cbn [mbind result_bind fst snd].
  repeat rewrite (increment_in_leaf_root _ _ _ root _ _ Hread Hleaf).
  destruct (found && negb include_lower) eqn:Hskip.
  - destruct (uf && negb include_upper); cbn [mbind result_bind];
      (eexists _, _; split; [reflexivity|]).
    all: assert (sz_add index 1 = index + 1) as ->
      by (unfold sz_add; apply N.mod_small; unfold tree_data_type in *; lia).
    all: destruct (N.ltb_spec (index + 1) (vec_size (keys root))) as [Hmore|Hlast];
      unfold vec_size in *.
    all: try (rewrite collect_from_end, drop_ge; [done|]; unfold tree_data_type in *; lia).
    all: rewrite <- (N2Nat.id (index + 1)) at 1.
    all: apply (collect_leaf t tree (_position_root tree) root index Hread Hleaf Hsmall
                  (length (keys root) - N.to_nat (index + 1)) (N.to_nat (index + 1)) (S fuel));
      unfold tree_data_type in *; lia.
  - destruct (uf && negb include_upper); cbn [mbind result_bind];
      (eexists _, _; split; [reflexivity|]).
    all: rewrite <- (N2Nat.id index) at 1.
    all: apply (collect_leaf t tree (_position_root tree) root index Hread Hleaf Hsmall
                  (length (keys root) - N.to_nat index) (N.to_nat index) (S fuel));
      unfold tree_data_type in *; lia.
Qed.

End behaviour.

Section empty_leaf.
Context {tkey tvalue : Type} `{!Serializable tkey, !Serializable tvalue}.
Variable compare : tkey → tkey → bool.
Variable t : N.
Local Abbreviation node := (btree_disk_node (tkey := tkey) (tvalue := tvalue)).
Local Abbreviation pair := (tree_data_type (tkey := tkey) (tvalue := tvalue)).

(** X21 ([find_range], [operator*] on a root leaf without keys, the state
    the constructor leaves): both iterators of [find_range] point at index 0
    of the root, whatever the bounds; they are not [end()]. The loop from
    the first to the second meets nothing; dereferencing one of them reads
    [keys[0]] of an empty vector, and so does the first step of the loop
    from the first to [end()]. *)
Theorem range_in_empty_leaf_root fuel tree (root : node) lower upper
    include_lower include_upper :
  _position_root tree ≠ NONE →
  disk_read t tree (_position_root tree) = Ok root →
  _is_leaf root = true →
  keys root = [] →
  ∃ first,
    find_range compare t (S fuel) tree lower upper include_lower include_upper
    = Ok (first, first)
    ∧ _path first = [(_position_root tree, 0)]
    ∧ iterator_eqb first end_ = false
    ∧ collect (tkey := tkey) (tvalue := tvalue) t fuel tree first first = Ok []
    ∧ dereference (tkey := tkey) (tvalue := tvalue) t tree first = Fail OutOfRange
    ∧ collect (tkey := tkey) (tvalue := tvalue) t (S fuel) tree first end_ = Fail OutOfRange.
Proof.
  intros Hroot Hread Hleaf Hkeys.
  assert (∀ key, find_path compare t (S fuel) tree key
                 = Ok ([(_position_root tree, 0)], (0, false))) as Hfind.
  { intros key. unfold find_path. rewrite (proj2 (N.eqb_neq _ _) Hroot), Hread.
    cbn [mbind result_bind find_path_loop]. unfold find_index. rewrite Hkeys.
    cbn [find_index_from]. by rewrite Hleaf. }
  assert (dereference (tkey := tkey) (tvalue := tvalue) t tree
            {| _path := [(_position_root tree, 0)]; _index := 0 |} = Fail OutOfRange)
    as Hdereference.
  { unfold dereference. cbn [_path]. rewrite Hread. cbn [mbind result_bind]. by rewrite Hkeys. }
  exists {| _path := [(_position_root tree, 0)]; _index := 0 |}.
  split; [unfold find_range; by rewrite !Hfind|]. split; [done|]. split; [done|].
  split; [|split; [exact Hdereference|]].
  - destruct fuel; cbn [collect]; unfold iterator_eqb; by rewrite bool_decide_true.
  - cbn [collect]. unfold iterator_eqb. cbn [_path end_]. rewrite bool_decide_false by done.
    by rewrite Hdereference.
Qed.
End empty_leaf.

(** X22 ([disk_write], [disk_read]: the offset of a slot): for
    [0 < t < 2^58] a position names the same offset for reading and for
    writing, the slot is [32 t + 25] bytes long and begins behind the
    header, and the slot of a smaller position ends before the slot of a
    greater one begins, as long as the greater slot ends within [2^64]
    bytes. *)
Theorem slots_do_not_overlap (t p q : N) :
  0 < t → t < 2 ^ 58 → p < q →
  header_size + (q + 1) * node_size_write t ≤ SIZE_MOD →
  slot_offset_read t p = slot_offset_write t p
  ∧ node_size_write t = 32 * t + 25
  ∧ header_size ≤ slot_offset_write t p
  ∧ slot_offset_write t p + node_size_write t ≤ slot_offset_write t q.
Proof.
  intros Hpos Ht Hpq Hfit. destruct (node_size_small t Hpos Ht) as [Hread Hwrite].
  split; [symmetry; apply slot_offset_write_read|]. split; [exact Hwrite|].
  unfold slot_offset_write, sz_add, sz_mul in *.
  assert (p * node_size_write t < q * node_size_write t) as Hless by nia.
  rewrite (N.mod_small (p * _)), (N.mod_small (q * _)) by nia.
  rewrite !N.mod_small by nia. nia.
Qed.

(** ** [insert] that splits the root leaf *)

Section sorted_nodes.
Context {tkey tvalue : Type} `{!Serializable tkey, !Serializable tvalue}.
Variable compare : tkey → tkey → bool.
Variable t : N.
Local Abbreviation node := (btree_disk_node (tkey := tkey) (tvalue := tvalue)).
Local Abbreviation pair := (tree_data_type (tkey := tkey) (tvalue := tvalue)).

Hypothesis Hirreflexive : ∀ a, compare a a = false.
Hypothesis Htransitive : ∀ a b c, compare a b = true → compare b c = true → compare a c = true.

(** in a node whose keys go up, a stored key is found at its own index *)
Lemma find_index_from_stored (ks : list pair) j kv :
  (∀ i i' a b, (i < i')%nat → ks !! i = Some a → ks !! i' = Some b →
     compare a.1 b.1 = true) →
  vec_size ks < SIZE_MOD →
  ks !! j = Some kv →
  find_index_from compare kv.1 ks 0 = (N.of_nat j, true).
Proof.
  intros Hsorted Hsmall Hkv.
  destruct (find_index_from compare kv.1 ks 0) as [m f] eqn:Hscan.
  apply find_index_from_spec in Hscan as (n & -> & Hn & Hbefore & Hat); [|lia].
  assert (n = j) as ->.
  { destruct (lt_eq_lt_dec n j) as [[Hlt|Heq]|Hgt]; [|done|].
    - pose proof (lookup_lt_Some _ _ _ Hkv) as Hj.
      destruct (lookup_lt_is_Some_2 ks n) as [e He]; [unfold tree_data_type in *; lia|].
      unfold tree_data_type in *. rewrite He in Hat. destruct Hat as [Hnot _].
      pose proof (Hsorted n j e kv Hlt He Hkv). congruence.
    - pose proof (Hbefore j kv Hgt Hkv) as Hself. rewrite Hirreflexive in Hself. done. }
  unfold tree_data_type in *. rewrite Hkv in Hat. destruct Hat as [_ ->].
  by rewrite N.add_0_l, Hirreflexive.
Qed.

Lemma lookup_inserted_at {A : Type} (v : list A) n x j :
  (n ≤ length v)%nat →
  inserted_at n x v !! j
  = if decide (j < n)%nat then v !! j
    else if decide (j = n) then Some x else v !! (j - 1)%nat.
Proof.
  intros Hn. unfold inserted_at. destruct (decide (j < n)%nat) as [Hlt|Hge].
  - rewrite lookup_app_l by (rewrite length_take; lia). by apply lookup_take_lt.
  - rewrite lookup_app_r by (rewrite length_take; lia). rewrite length_take.
    replace (n `min` length v)%nat with n by lia.
    destruct (decide (j = n)) as [->|Hne].
    + by rewrite Nat.sub_diag.
    + replace (j - n)%nat with (S (j - 1 - n)) by lia. simpl. rewrite lookup_drop.
      f_equal. lia.
Qed.

(** the keys still go up after a key was put where [find_index] said *)
Lemma sorted_inserted (ks : list pair) n key value :
  ascending compare ks = true →
  (n ≤ length ks)%nat →
  (∀ j kv, (j < n)%nat → ks !! j = Some kv → compare kv.1 key = true) →
  (∀ kv, ks !! n = Some kv → compare key kv.1 = true) →
  ∀ i i' a b, (i < i')%nat →
    inserted_at n (key, value) ks !! i = Some a →
    inserted_at n (key, value) ks !! i' = Some b →
    compare a.1 b.1 = true.
Proof.
  intros Hsorted Hn Hbefore Hat i i' a b Hlt.
  rewrite !lookup_inserted_at by done.
  pose proof (ascending_lookup compare Htransitive ks Hsorted) as Hup.
  destruct (decide (i < n)%nat) as [Hi|Hi]; destruct (decide (i' < n)%nat) as [Hi'|Hi'].
  - by apply Hup.
  - intros Ha. destruct (decide (i' = n)) as [->|Hne].
    + intros [= <-]. by apply (Hbefore i).
    + intros Hb. apply (Htransitive _ key); [by apply (Hbefore i)|].
      destruct (decide (i' - 1 = n)%nat) as [Heq|Hfar].
      * apply Hat. by rewrite <- Heq.
      * destruct (lookup_lt_is_Some_2 ks n) as [e He].
        { apply lookup_lt_Some in Hb. unfold tree_data_type in *. lia. }
        apply (Htransitive _ e.1); [by apply Hat|].
        apply (Hup n (i' - 1)%nat); [lia | done | done].
  - lia.
  - destruct (decide (i = n)) as [->|Hne]; destruct (decide (i' = n)) as [->|Hne'];
      try lia.
    + intros [= <-] Hb. destruct (decide (i' - 1 = n)%nat) as [Heq|Hfar].
      * apply Hat. by rewrite <- Heq.
      * destruct (lookup_lt_is_Some_2 ks n) as [e He].
        { apply lookup_lt_Some in Hb. unfold tree_data_type in *. lia. }
        apply (Htransitive _ e.1); [by apply Hat|].
        apply (Hup n (i' - 1)%nat); [lia | done | done].
    + intros Ha Hb. apply (Hup (i - 1)%nat (i' - 1)%nat); [lia | done | done].
Qed.
End sorted_nodes.

Section stores.
Context {tkey tvalue : Type} `{!Serializable tkey, !Serializable tvalue}.
Variable t : N.
Local Abbreviation node := (btree_disk_node (tkey := tkey) (tvalue := tvalue)).

(** [disk_read] looks at the slots and at the data file only *)
Lemma disk_read_same_store tree tree' pos :
  slots (_file_for_tree tree') = slots (_file_for_tree tree) →
  _file_for_key_value tree' = _file_for_key_value tree →
  disk_read (tkey := tkey) (tvalue := tvalue) t tree' pos = disk_read t tree pos.
Proof. intros Hslots Hdata. unfold disk_read. by rewrite Hslots, Hdata. Qed.
End stores.

Section split_root.
Context {tkey tvalue : Type} `{!Serializable tkey, !Serializable tvalue}.
Variable compare : tkey → tkey → bool.
Variable t : N.
Local Abbreviation node := (btree_disk_node (tkey := tkey) (tvalue := tvalue)).
Local Abbreviation pair := (tree_data_type (tkey := tkey) (tvalue := tvalue)).

Lemma vec_size_new_node is_leaf :
  vec_size (pointers (new_node (tkey := tkey) (tvalue := tvalue) t is_leaf))
  = sz_add (maximum_keys_in_node t) 2.
Proof.
  unfold new_node, vec_size, vec_resize. cbn [pointers].
  by rewrite resize_nat_length, N2Nat.id.
Qed.

(** [split_node] on a stack with the root leaf only: the lower half stays
    at the position of the leaf, the upper half goes to the next free
    position, the middle key to a new root at the position after it *)
Lemma split_node_root_leaf tree (current : node) pos index middle tree2 tree3 tree4 :
  disk_read t tree pos = Ok current →
  _is_leaf current = true →
  vec_at (keys current) (vec_size (keys current) / 2) = Ok middle →
  sz_add (vec_size (keys current) / 2) 1 ≤ vec_size (keys current) →
  2 ≤ sz_add (maximum_keys_in_node t) 2 →
  disk_write t
    {| size := vec_size (take (N.to_nat (vec_size (keys current) / 2)) (keys current));
       _is_leaf := true;
       position_in_disk := position_in_disk current;
       keys := take (N.to_nat (vec_size (keys current) / 2)) (keys current);
       pointers := vec_resize (pointers current) (sz_add (maximum_keys_in_node t) 2) 0 |}
    {| _file_for_tree := _file_for_tree tree;
       _file_for_key_value := _file_for_key_value tree;
       _position_root := _position_root tree;
       _count_of_node := sz_incr (_count_of_node tree) |} = Ok ((), tree2) →
  disk_write t
    {| size := vec_size (drop (N.to_nat (sz_add (vec_size (keys current) / 2) 1))
                           (keys current));
       _is_leaf := true; position_in_disk := _count_of_node tree;
       keys := drop (N.to_nat (sz_add (vec_size (keys current) / 2) 1)) (keys current);
       pointers := pointers (new_node (tkey := tkey) (tvalue := tvalue) t true) |}
    tree2 = Ok ((), tree3) →
  disk_write t
    {| size := 1; _is_leaf := false; position_in_disk := _count_of_node tree3;
       keys := [middle];
       pointers :=
         vec_resize (<[1%nat := _count_of_node tree]>
                       (<[0%nat := pos]>
                          (pointers (new_node (tkey := tkey) (tvalue := tvalue) t false))))
           (sz_add (maximum_keys_in_node t) 2) 0 |}
    {| _file_for_tree := _file_for_tree tree3;
       _file_for_key_value := _file_for_key_value tree3;
       _position_root := _count_of_node tree3;
       _count_of_node := sz_incr (_count_of_node tree3) |} = Ok ((), tree4) →
  split_node (tkey := tkey) (tvalue := tvalue) t [(pos, index)] tree
  = Ok ((), {| _file_for_tree :=
                 write_header_root (_file_for_tree tree4) (_position_root tree4);
               _file_for_key_value := _file_for_key_value tree4;
               _position_root := _position_root tree4;
               _count_of_node := _count_of_node tree4 |}).
Proof.
  intros Hread Hleaf Hmiddle Hmid Hroom Hwrite2 Hwrite3 Hwrite4.
  cbn [split_node].
  unfold mbind, M_bind, lift, reading, post_incr_count_of_node, set_position_root,
    print_root_position, mret, M_ret.
  cbv beta. rewrite Hread. cbv beta iota. rewrite Hmiddle. cbv beta iota.
  unfold vec_from, vec_erase_from.
  rewrite (proj2 (N.leb_le _ _) Hmid).
  assert (vec_size (keys current) / 2 ≤ vec_size (keys current)) as Hhalf.
  { apply N.Div0.div_le_upper_bound. lia. }
  rewrite (proj2 (N.leb_le _ _) Hhalf), Hleaf. cbv beta iota. cbn [negb].
  cbv beta iota. rewrite Hwrite2. cbn [_is_leaf]. rewrite Hwrite3.
  unfold vec_set. rewrite vec_size_new_node.
  destruct (N.ltb_spec 0 (sz_add (maximum_keys_in_node t) 2)) as [_|Hnone]; [|lia].
  cbv beta iota. unfold vec_size at 1. rewrite length_insert.
  fold (vec_size (pointers (new_node (tkey := tkey) (tvalue := tvalue) t false))).
  rewrite vec_size_new_node.
  destruct (N.ltb_spec 1 (sz_add (maximum_keys_in_node t) 2)) as [_|Hnone]; [|lia].
  cbv beta iota.
  match goal with
  | |- match ?w with _ => _ end = _ =>
      match type of Hwrite4 with ?w' = _ => change w with w' end
  end.
  rewrite Hwrite4. reflexivity.
Qed.
Lemma split_node_root_leaf_runs tree (current : node) pos index middle :
  disk_read t tree pos = Ok current →
  _is_leaf current = true →
  vec_at (keys current) (vec_size (keys current) / 2) = Ok middle →
  sz_add (vec_size (keys current) / 2) 1 ≤ vec_size (keys current) →
  2 ≤ sz_add (maximum_keys_in_node t) 2 →
  ∃ tree2 tree3 tree4,
    disk_write t
      {| size := vec_size (take (N.to_nat (vec_size (keys current) / 2)) (keys current));
         _is_leaf := true;
         position_in_disk := position_in_disk current;
         keys := take (N.to_nat (vec_size (keys current) / 2)) (keys current);
         pointers := vec_resize (pointers current) (sz_add (maximum_keys_in_node t) 2) 0 |}
      {| _file_for_tree := _file_for_tree tree;
         _file_for_key_value := _file_for_key_value tree;
         _position_root := _position_root tree;
         _count_of_node := sz_incr (_count_of_node tree) |} = Ok ((), tree2)
    ∧ disk_write t
        {| size := vec_size (drop (N.to_nat (sz_add (vec_size (keys current) / 2) 1))
                               (keys current));
           _is_leaf := true; position_in_disk := _count_of_node tree;
           keys := drop (N.to_nat (sz_add (vec_size (keys current) / 2) 1)) (keys current);
           pointers := pointers (new_node (tkey := tkey) (tvalue := tvalue) t true) |}
        tree2 = Ok ((), tree3)
    ∧ disk_write t
        {| size := 1; _is_leaf := false; position_in_disk := _count_of_node tree3;
           keys := [middle];
           pointers :=
             vec_resize (<[1%nat := _count_of_node tree]>
                           (<[0%nat := pos]>
                              (pointers (new_node (tkey := tkey) (tvalue := tvalue) t false))))
               (sz_add (maximum_keys_in_node t) 2) 0 |}
        {| _file_for_tree := _file_for_tree tree3;
           _file_for_key_value := _file_for_key_value tree3;
           _position_root := _count_of_node tree3;
           _count_of_node := sz_incr (_count_of_node tree3) |} = Ok ((), tree4)
    ∧ split_node (tkey := tkey) (tvalue := tvalue) t [(pos, index)] tree
      = Ok ((), {| _file_for_tree :=
                     write_header_root (_file_for_tree tree4) (_position_root tree4);
                   _file_for_key_value := _file_for_key_value tree4;
                   _position_root := _position_root tree4;
                   _count_of_node := _count_of_node tree4 |}).
Proof.
  intros Hread Hleaf Hmiddle Hmid Hroom.
  destruct (disk_write_total t
    {| size := vec_size (take (N.to_nat (vec_size (keys current) / 2)) (keys current));
       _is_leaf := true;
       position_in_disk := position_in_disk current;
       keys := take (N.to_nat (vec_size (keys current) / 2)) (keys current);
       pointers := vec_resize (pointers current) (sz_add (maximum_keys_in_node t) 2) 0 |}
    {| _file_for_tree := _file_for_tree tree;
       _file_for_key_value := _file_for_key_value tree;
       _position_root := _position_root tree;
       _count_of_node := sz_incr (_count_of_node tree) |}) as [tree2 Hwrite2].
  destruct (disk_write_total t
    {| size := vec_size (drop (N.to_nat (sz_add (vec_size (keys current) / 2) 1))
                           (keys current));
       _is_leaf := true; position_in_disk := _count_of_node tree;
       keys := drop (N.to_nat (sz_add (vec_size (keys current) / 2) 1)) (keys current);
       pointers := pointers (new_node (tkey := tkey) (tvalue := tvalue) t true) |}
    tree2) as [tree3 Hwrite3].
  destruct (disk_write_total t
    {| size := 1; _is_leaf := false; position_in_disk := _count_of_node tree3;
       keys := [middle];
       pointers :=
         vec_resize (<[1%nat := _count_of_node tree]>
                       (<[0%nat := pos]>
                          (pointers (new_node (tkey := tkey) (tvalue := tvalue) t false))))
           (sz_add (maximum_keys_in_node t) 2) 0 |}
    {| _file_for_tree := _file_for_tree tree3;
       _file_for_key_value := _file_for_key_value tree3;
       _position_root := _count_of_node tree3;
       _count_of_node := sz_incr (_count_of_node tree3) |}) as [tree4 Hwrite4].
  exists tree2, tree3, tree4.
  split; [exact Hwrite2|]. split; [exact Hwrite3|]. split; [exact Hwrite4|].
  by apply (split_node_root_leaf tree current pos index middle tree2 tree3 tree4).
Qed.

(** three nodes written one after the other at three slots are read back *)
Lemma three_writes (lower upper top : node) state1 tree2 tree3 state3 tree4 :
  reads_locally tkey → reads_locally tvalue →
  disk_write t lower state1 = Ok ((), tree2) →
  disk_write t upper tree2 = Ok ((), tree3) →
  slots (_file_for_tree state3) = slots (_file_for_tree tree3) →
  _file_for_key_value state3 = _file_for_key_value tree3 →
  disk_write t top state3 = Ok ((), tree4) →
  stored_well t lower → stored_well t upper → stored_well t top →
  slot_offset_read t (position_in_disk upper) ≠ slot_offset_read t (position_in_disk lower) →
  slot_offset_read t (position_in_disk top) ≠ slot_offset_read t (position_in_disk lower) →
  slot_offset_read t (position_in_disk top) ≠ slot_offset_read t (position_in_disk upper) →
  disk_read t tree4 (position_in_disk lower)
  = Ok (with_pointers lower
          (vec_resize (pointers lower) (sz_add (maximum_keys_in_node t) 2) 0))
  ∧ disk_read t tree4 (position_in_disk upper)
    = Ok (with_pointers upper
            (vec_resize (pointers upper) (sz_add (maximum_keys_in_node t) 2) 0))
  ∧ disk_read t tree4 (position_in_disk top)
    = Ok (with_pointers top
            (vec_resize (pointers top) (sz_add (maximum_keys_in_node t) 2) 0)).
Proof.
  intros Hkey Hvalue Hwrite2 Hwrite3 Hslots Hdata Hwrite4
    (Hl1 & Hl2 & Hl3) (Hu1 & Hu2 & Hu3) (Ht1 & Ht2 & Ht3) Hul Htl Htu.
  pose proof (disk_read_written t lower state1 tree2 Hl1 Hl2 Hl3 Hwrite2) as Hlower2.
  pose proof (disk_read_written t upper tree2 tree3 Hu1 Hu2 Hu3 Hwrite3) as Hupper3.
  pose proof (disk_read_written t top state3 tree4 Ht1 Ht2 Ht3 Hwrite4) as Htop4.
  pose proof (disk_read_frame t Hkey Hvalue upper tree2 tree3 _ _ Hwrite3
                (not_eq_sym Hul) Hlower2) as Hlower3.
  rewrite <- (disk_read_same_store t tree3 state3 _ Hslots Hdata) in Hlower3.
  rewrite <- (disk_read_same_store t tree3 state3 _ Hslots Hdata) in Hupper3.
  split; [|split].
  - exact (disk_read_frame t Hkey Hvalue top state3 tree4 _ _ Hwrite4 (not_eq_sym Htl) Hlower3).
  - exact (disk_read_frame t Hkey Hvalue top state3 tree4 _ _ Hwrite4 (not_eq_sym Htu) Hupper3).
  - exact Htop4.
Qed.
(** the children of the new root *)
Lemma new_root_pointers lower_pos upper_pos :
  2 ≤ sz_add (maximum_keys_in_node t) 2 →
  vec_at
    (vec_resize
       (vec_resize
          (<[1%nat := upper_pos]>
             (<[0%nat := lower_pos]>
                (pointers (new_node (tkey := tkey) (tvalue := tvalue) t false))))
          (sz_add (maximum_keys_in_node t) 2) 0)
       (sz_add (maximum_keys_in_node t) 2) 0) 0 = Ok lower_pos
  ∧ vec_at
      (vec_resize
         (vec_resize
            (<[1%nat := upper_pos]>
               (<[0%nat := lower_pos]>
                  (pointers (new_node (tkey := tkey) (tvalue := tvalue) t false))))
            (sz_add (maximum_keys_in_node t) 2) 0)
         (sz_add (maximum_keys_in_node t) 2) 0) 1 = Ok upper_pos.
Proof.
  intros Hroom. pose proof (vec_size_new_node false) as Hsize. unfold vec_size in Hsize.
  rewrite sz_of_resize, vec_resize_full by (rewrite !length_insert; lia).
  split; apply vec_at_lookup.
  - rewrite list_lookup_insert_ne by done. apply list_lookup_insert_eq. lia.
  - apply list_lookup_insert_eq. rewrite length_insert. lia.
Qed.
End split_root.

Ltac tlia := unfold tree_data_type, vec_size in *; lia.

Section split_theorem.
Context {tkey tvalue : Type} `{!Serializable tkey, !Serializable tvalue}.
Variable compare : tkey → tkey → bool.
Variable t : N.
Local Abbreviation node := (btree_disk_node (tkey := tkey) (tvalue := tvalue)).
Local Abbreviation pair := (tree_data_type (tkey := tkey) (tvalue := tvalue)).

(** the search in a tree of a root with one key over two leaves *)
Lemma at_two_leaves fuel tree (top lower upper : node) lower_pos upper_pos middle :
  (∀ a, compare a a = false) →
  (∀ a b c, compare a b = true → compare b c = true → compare a c = true) →
  _position_root tree ≠ NONE →
  disk_read t tree (_position_root tree) = Ok top →
  disk_read t tree lower_pos = Ok lower →
  disk_read t tree upper_pos = Ok upper →
  keys top = [middle] → _is_leaf top = false →
  vec_at (pointers top) 0 = Ok lower_pos →
  vec_at (pointers top) 1 = Ok upper_pos →
  vec_size (keys lower ++ middle :: keys upper) < SIZE_MOD →
  (∀ i i' a b, (i < i')%nat →
     (keys lower ++ middle :: keys upper) !! i = Some a →
     (keys lower ++ middle :: keys upper) !! i' = Some b →
     compare a.1 b.1 = true) →
  ∀ j kv, (keys lower ++ middle :: keys upper) !! j = Some kv →
    at_ compare t (S (S fuel)) tree kv.1 = Ok (Some kv.2).
Proof.
  intros Hirreflexive Htransitive Hroot Htop Hlower Hupper Hkeys Hleaf Hfirst Hsecond Hsmall
    Hsorted j kv Hkv.
  assert (∀ (ks : list pair) (offset : nat),
            (∀ i e, ks !! i = Some e →
               (keys lower ++ middle :: keys upper) !! (offset + i)%nat = Some e) →
            ∀ i e, ks !! i = Some e →
              find_index_from compare e.1 ks 0 = (N.of_nat i, true)) as Hpart.
  { intros ks offset Hks i e He.
    apply (find_index_from_stored compare Hirreflexive); [| |exact He].
    - intros i1 i2 a b Hlt Ha Hb.
      apply (Hsorted (offset + i1)%nat (offset + i2)%nat); [tlia | by apply Hks | by apply Hks].
    - pose proof (lookup_lt_Some _ _ _ (Hks _ _ He)) as Hbound.
      assert (length ks ≤ length (keys lower ++ middle :: keys upper))%nat as Hlength.
      { destruct (decide (length ks = 0)%nat) as [->|Hne]; [tlia|].
        destruct (lookup_lt_is_Some_2 ks (length ks - 1)) as [last Hlast]; [tlia|].
        pose proof (lookup_lt_Some _ _ _ (Hks _ _ Hlast)). tlia. }
      unfold vec_size in *. tlia. }
  assert (length (keys lower) < length (keys lower ++ middle :: keys upper))%nat as Hmiddle
    by (rewrite length_app; simpl; tlia).
  assert ((keys lower ++ middle :: keys upper) !! length (keys lower) = Some middle)
    as Hat_middle by (by rewrite list_lookup_middle).
  unfold at_, find_path. rewrite (proj2 (N.eqb_neq _ _) Hroot), Htop.
  cbn [mbind result_bind find_path_loop]. unfold find_index at 1. rewrite Hkeys.
  cbn [find_index_from]. unfold compare_keys.
  destruct (lt_eq_lt_dec j (length (keys lower))) as [[Hlt|Heq]|Hgt].
  - (* in the lower leaf *)
    rewrite lookup_app_l in Hkv by exact Hlt.
    assert (compare kv.1 middle.1 = true) as Hbelow.
    { apply (Hsorted j (length (keys lower))); [tlia | | done].
      by rewrite lookup_app_l by exact Hlt. }
    rewrite (compare_asymmetric compare Hirreflexive Htransitive _ _ Hbelow), Hbelow.
    cbn [negb]. rewrite Hleaf, Hfirst. cbn [mbind result_bind]. rewrite Hlower.
    cbn [mbind result_bind]. unfold find_index.
    rewrite (Hpart (keys lower) 0%nat) with (i := j) (e := kv); [| |exact Hkv].
    2: { intros i e He. rewrite lookup_app_l by (by apply lookup_lt_Some in He). exact He. }
    cbn [mbind result_bind negb stack_top fst]. rewrite Hlower. cbn [mbind result_bind].
    rewrite (proj2 (vec_at_lookup _ _ _)) by (by rewrite Nat2N.id). done.
  - (* the middle key *)
    subst j. pose proof (eq_trans (eq_sym Hat_middle) Hkv) as Hsame.
    injection Hsame as <-.
    rewrite Hirreflexive. cbn [mbind result_bind negb stack_top fst]. rewrite Htop. cbn [mbind result_bind].
    rewrite Hkeys. done.
  - (* in the upper leaf *)
    assert (compare middle.1 kv.1 = true) as Habove.
    { by apply (Hsorted (length (keys lower)) j). }
    rewrite Habove. cbn [negb]. rewrite Hleaf.
    assert (sz_incr 0 = 1) as -> by done. rewrite Hsecond. cbn [mbind result_bind].
    rewrite Hupper. cbn [mbind result_bind]. unfold find_index.
    assert (keys upper !! (j - S (length (keys lower)))%nat = Some kv) as Hkv'.
    { rewrite lookup_app_r in Hkv by tlia.
      rewrite lookup_cons_ne_0 in Hkv by tlia.
      etrans; [|exact Hkv]. f_equal. tlia. }
    rewrite (Hpart (keys upper) (S (length (keys lower))))
      with (i := (j - S (length (keys lower)))%nat) (e := kv); [| |exact Hkv'].
    + cbn [mbind result_bind negb stack_top fst]. rewrite Hupper. cbn [mbind result_bind].
      rewrite (proj2 (vec_at_lookup _ _ _)) by (by rewrite Nat2N.id). done.
    + intros i e He. rewrite lookup_app_r by tlia.
      replace (S (length (keys lower)) + i - length (keys lower))%nat with (S i) by tlia.
      exact He.
Qed.
End split_theorem.

Section split_root_theorem.
Context {tkey tvalue : Type} `{!Serializable tkey, !Serializable tvalue}.
Variable compare : tkey → tkey → bool.
Variable t : N.
Local Abbreviation node := (btree_disk_node (tkey := tkey) (tvalue := tvalue)).
Local Abbreviation pair := (tree_data_type (tkey := tkey) (tvalue := tvalue)).

(** [insert] into a full root leaf, in terms of the offsets of the three
    slots that are written *)
Lemma split_of_root_leaf_by_offsets fuel tree key value i index (root : node) :
  reads_locally tkey → reads_locally tvalue →
  strict_order compare →
  0 < t → t < 2 ^ 58 →
  find_path compare t (S (S fuel)) tree key
  = Ok ([(_position_root tree, i)], (index, false)) →
  disk_read t tree (_position_root tree) = Ok root →
  position_in_disk root = _position_root tree →
  size root = vec_size (keys root) →
  size root = maximum_keys_in_node t →
  ascending compare (keys root) = true →
  Forall pair_round_trips (keys root) →
  round_trips key → round_trips value →
  sz_incr (_count_of_node tree) ≠ NONE →
  slot_offset_read t (_count_of_node tree) ≠ slot_offset_read t (_position_root tree) →
  slot_offset_read t (sz_incr (_count_of_node tree))
  ≠ slot_offset_read t (_position_root tree) →
  slot_offset_read t (sz_incr (_count_of_node tree))
  ≠ slot_offset_read t (_count_of_node tree) →
  ∃ tree',
    insert compare t (S (S fuel)) (key, value) tree = Ok (true, tree')
    ∧ _position_root tree' = sz_incr (_count_of_node tree)
    ∧ _count_of_node tree' = sz_incr (sz_incr (_count_of_node tree))
    ∧ ∀ j kv,
        inserted_at (N.to_nat index) (key, value) (keys root) !! j = Some kv →
        at_ compare t (S (S fuel)) tree' kv.1 = Ok (Some kv.2).
Proof.
  intros Hkey_local Hvalue_local [Hirreflexive Htransitive] Hpos Ht Hfind Hread Hposition
    Hsize Hfull Hsorted Hkeys Hkey Hvalue Hnext Hcr Hnr Hnc.
  destruct (find_path_at_top _ _ _ _ _ _ _ _ _ _ _ Hfind Hread) as (-> & Hindex & Hleaf).
  specialize (Hleaf eq_refl).
  pose proof (maximum_keys_small t Hpos Ht) as Hmax.
  assert (2 ^ 58 * 64 = 2 ^ 64) as Hpow by reflexivity.
  assert (SIZE_MOD = 2 ^ 64) as Hmod by reflexivity.
  assert (sz_add (maximum_keys_in_node t) 1 = 2 * t) as Hmax1.
  { rewrite Hmax. unfold sz_add. rewrite N.mod_small by lia. lia. }
  assert (sz_add (maximum_keys_in_node t) 2 = 2 * t + 1) as Hmax2.
  { rewrite Hmax. unfold sz_add. rewrite N.mod_small by lia. lia. }
  assert (vec_size (keys root) = 2 * t - 1) as Hcount by (rewrite <- Hsize, Hfull; exact Hmax).
  assert (vec_size (keys root) < SIZE_MOD) as Hsmall by lia.
  destruct (find_index_absent _ _ _ _ Hsmall Hindex) as (Hn & Hbefore & Hat).
  set (keys' := inserted_at (N.to_nat index) (key, value) (keys root)).
  assert (length keys' = N.to_nat (2 * t)) as Hlength.
  { unfold keys', inserted_at. rewrite length_app, length_take, length_cons, length_drop. tlia. }
  assert (vec_size keys' = 2 * t) as Hcount' by tlia.
  assert (∀ i1 i2 a b, (i1 < i2)%nat → keys' !! i1 = Some a → keys' !! i2 = Some b →
            compare a.1 b.1 = true) as Hsorted'.
  { by apply (sorted_inserted compare Htransitive). }
  assert (Forall pair_round_trips keys') as Hkeys'.
  { unfold keys', inserted_at. apply Forall_app. split; [by apply Forall_take|].
    apply Forall_cons. split; [by split | by apply Forall_drop]. }
  assert (vec_size keys' / 2 = t) as Hhalf.
  { rewrite Hcount'. rewrite N.mul_comm. apply N.div_mul. lia. }
  destruct (lookup_lt_is_Some_2 keys' (N.to_nat t)) as [middle Hmiddle]; [tlia|].
  assert (sz_incr (size root) = 2 * t) as Hincr.
  { rewrite sz_incr_small by lia. lia. }
  (* the leaf with one key too many *)
  set (full := {| size := sz_incr (size root); _is_leaf := _is_leaf root;
                  position_in_disk := position_in_disk root;
                  keys := keys';
                  pointers := vec_resize (pointers root)
                                (sz_add (maximum_keys_in_node t) 2) 0 |}).
  destruct (disk_write_total t full tree) as [tree1 Hwrite1].
  set (node1 := {| size := 2 * t; _is_leaf := true;
                   position_in_disk := _position_root tree;
                   keys := keys'; pointers := pointers root |}).
  assert (disk_read t tree1 (_position_root tree) = Ok node1) as Hread1.
  { assert (size full = vec_size (keys full)) as Hfull_size
      by (unfold full; cbn [size keys]; rewrite Hincr; tlia).
    assert (size full ≤ sz_add (maximum_keys_in_node t) 1) as Hfull_fit
      by (unfold full; cbn [size]; rewrite Hincr, Hmax1; lia).
    pose proof (disk_read_written t full tree tree1 Hkeys' Hfull_size Hfull_fit Hwrite1)
      as Hback.
    replace (position_in_disk full) with (_position_root tree) in Hback
      by (symmetry; exact Hposition).
    rewrite Hback. unfold node1, full. cbn [size _is_leaf position_in_disk keys pointers].
    rewrite Hincr, Hleaf, sz_of_resize, vec_resize_full; [done|].
    exact (disk_read_pointers_size _ _ _ _ Hread). }
  pose proof (same_count_disk_write t full _ _ _ Hwrite1) as Hcount1.
  unfold same_count in Hcount1.
  pose proof (disk_write_root _ _ _ _ Hwrite1) as Hroot1.
  (* the split *)
  destruct (split_node_root_leaf_runs t tree1 node1 (_position_root tree) index middle Hread1)
    as (tree2 & tree3 & tree4 & Hwrite2 & Hwrite3 & Hwrite4 & Hsplit).
  { done. }
  { unfold node1. cbn [keys]. unfold tree_data_type in *. rewrite Hhalf.
    apply vec_at_lookup. exact Hmiddle. }
  { unfold node1. cbn [keys]. unfold tree_data_type in *. rewrite Hhalf, Hcount'.
    unfold sz_add. rewrite N.mod_small by lia. lia. }
  { rewrite Hmax2. lia. }
  unfold node1 in Hwrite2, Hwrite3.
  cbn [keys position_in_disk pointers] in Hwrite2, Hwrite3, Hwrite4.
  unfold tree_data_type in *. rewrite Hhalf in Hwrite2, Hwrite3.
  assert (sz_add t 1 = t + 1) as Hsucc by (unfold sz_add; rewrite N.mod_small by lia; lia).
  rewrite Hsucc, Hcount1 in Hwrite3. rewrite Hcount1 in Hwrite2, Hwrite4.
  pose proof (same_count_disk_write t _ _ _ _ Hwrite2) as Hcount2.
  pose proof (same_count_disk_write t _ _ _ _ Hwrite3) as Hcount3.
  pose proof (same_count_disk_write t _ _ _ _ Hwrite4) as Hcount4.
  pose proof (disk_write_root _ _ _ _ Hwrite4) as Hroot4.
  unfold same_count in Hcount2, Hcount3, Hcount4.
  cbn [_count_of_node _position_root] in Hcount2, Hcount4, Hroot4.
  rewrite Hcount2 in Hcount3. rewrite Hcount3 in Hwrite4, Hcount4, Hroot4.
  assert (take (N.to_nat t) keys' ++ middle :: drop (N.to_nat (t + 1)) keys' = keys')
    as Hjoin.
  { replace (N.to_nat (t + 1)) with (S (N.to_nat t)) by lia. by apply take_drop_middle. }
  (* what is read afterwards *)
  edestruct (three_writes (tkey := tkey) (tvalue := tvalue) t) as (Hlower & Hupper & Htop);
    [exact Hkey_local | exact Hvalue_local | exact Hwrite2 | exact Hwrite3
    | | | exact Hwrite4 | | | | | | |].
  { reflexivity. }
  { reflexivity. }
  { split; [by apply Forall_take|]. split; [reflexivity|]. cbn [size].
    rewrite Hmax1. unfold vec_size. rewrite length_take. tlia. }
  { split; [by apply Forall_drop|]. split; [reflexivity|]. cbn [size].
    rewrite Hmax1. unfold vec_size. rewrite length_drop. tlia. }
  { split; [|split; [reflexivity|cbn [size]; rewrite Hmax1; lia]].
    apply Forall_cons. split; [|constructor].
    exact (Forall_lookup_1 _ _ _ _ Hkeys' Hmiddle). }
  { exact Hcr. }
  { exact Hnr. }
  { exact Hnc. }
  cbn [position_in_disk] in Hlower, Hupper, Htop.
  set (tree5 := {| _file_for_tree :=
                     write_header_root (_file_for_tree tree4) (_position_root tree4);
                   _file_for_key_value := _file_for_key_value tree4;
                   _position_root := _position_root tree4;
                   _count_of_node := _count_of_node tree4 |}) in *.
  assert (∀ pos, disk_read (tkey := tkey) (tvalue := tvalue) t tree5 pos
                 = disk_read t tree4 pos) as Hsame.
  { intros pos. by apply disk_read_same_store. }
  exists tree5. split; [|split; [exact Hroot4|split; [exact Hcount4|]]].
  - unfold insert, mbind, M_bind, lift, reading. cbv beta. cbn [fst snd].
    rewrite Hfind. cbv beta iota.
    cbn [stack_top stack_pop fst]. cbv beta iota. cbn [fst]. rewrite Hread. cbv beta iota.
    unfold vec_insert.
    destruct (N.leb_spec index (vec_size (keys root))) as [_|Hgt]; [|tlia].
    cbv beta iota zeta.
    match goal with
    | |- match ?w with _ => _ end = _ => change w with (disk_write t full tree)
    end.
    rewrite Hwrite1. cbn [size]. rewrite Hincr, Hmax.
    destruct (N.ltb_spec (2 * t - 1) (2 * t)) as [_|Hge]; [|lia].
    rewrite Hsplit. reflexivity.
  - intros j kv Hkv.
    eapply (at_two_leaves compare t fuel tree5) with
      (lower_pos := _position_root tree) (upper_pos := _count_of_node tree)
      (middle := middle) (j := j).
    + exact Hirreflexive.
    + exact Htransitive.
    + unfold tree5. cbn [_position_root]. by rewrite Hroot4.
    + unfold tree5 at 2. cbn [_position_root]. rewrite Hroot4, Hsame. exact Htop.
    + rewrite Hsame. exact Hlower.
    + rewrite Hsame. exact Hupper.
    + reflexivity.
    + reflexivity.
    + unfold with_pointers. cbn [pointers]. apply new_root_pointers. rewrite Hmax2. lia.
    + unfold with_pointers. cbn [pointers]. apply new_root_pointers. rewrite Hmax2. lia.
    + cbn [keys with_pointers]. unfold tree_data_type in *. rewrite Hjoin. tlia.
    + cbn [keys with_pointers]. unfold tree_data_type in *. rewrite Hjoin. exact Hsorted'.
    + cbn [keys with_pointers]. unfold tree_data_type in *. rewrite Hjoin. exact Hkv.
Qed.

(** X23 ([insert] with [split_node] on a full root leaf, then [at]):
    under a strict order, for [0 < t < 2^58], in a tree file whose slots are
    in place, when the root is a leaf with [maximum_keys_in_node] ascending
    keys at a position below [_count_of_node], and the next two free
    positions are in place (their slots end within [2^63] bytes), [insert]
    of an absent key returns true, the new root is at the second of the two
    positions, [_count_of_node] has grown by two, and [at] finds every pair
    of the old root and the inserted one. *)
Theorem insert_splits_root_leaf fuel tree key value i index (root : node) :
  reads_locally tkey → reads_locally tvalue →
  strict_order compare →
  0 < t → t < 2 ^ 58 →
  slots_in_place t (_file_for_tree tree) →
  _position_root tree < _count_of_node tree →
  position_in_place t (_count_of_node tree + 1) →
  find_path compare t (S (S fuel)) tree key
  = Ok ([(_position_root tree, i)], (index, false)) →
  disk_read t tree (_position_root tree) = Ok root →
  position_in_disk root = _position_root tree →
  size root = vec_size (keys root) →
  size root = maximum_keys_in_node t →
  ascending compare (keys root) = true →
  Forall pair_round_trips (keys root) →
  round_trips key → round_trips value →
  ∃ tree',
    insert compare t (S (S fuel)) (key, value) tree = Ok (true, tree')
    ∧ _position_root tree' = _count_of_node tree + 1
    ∧ _count_of_node tree' = _count_of_node tree + 2
    ∧ ∀ j kv,
        inserted_at (N.to_nat index) (key, value) (keys root) !! j = Some kv →
        at_ compare t (S (S fuel)) tree' kv.1 = Ok (Some kv.2).
Proof.
  intros Hkey_local Hvalue_local Horder Hpos Ht _ Hbelow Hplace Hfind Hread Hposition
    Hsize Hfull Hsorted Hkeys Hkey Hvalue.
  destruct (node_size_small t Hpos Ht) as [_ Hwrite].
  assert (SIZE_MOD = 2 ^ 64) as Hmod by reflexivity.
  assert (NONE = 2 ^ 64 - 1) as Hnone by reflexivity.
  assert (_count_of_node tree + 2 < 2 ^ 63) as Hcount.
  { unfold position_in_place in Hplace. rewrite Hwrite in Hplace. nia. }
  assert (sz_incr (_count_of_node tree) = _count_of_node tree + 1) as Hone.
  { unfold sz_incr, sz_add. apply N.mod_small. lia. }
  assert (sz_incr (_count_of_node tree + 1) = _count_of_node tree + 2) as Htwo.
  { unfold sz_incr, sz_add. rewrite N.mod_small by lia. lia. }
  assert (position_in_place t (_count_of_node tree)) as Hplace_count.
  { unfold position_in_place in *. nia. }
  assert (position_in_place t (_position_root tree)) as Hplace_root.
  { unfold position_in_place in *. nia. }
  rewrite <- Htwo, <- Hone.
  apply (split_of_root_leaf_by_offsets fuel tree key value i index root); try done.
  - rewrite Hone. lia.
  - apply (offsets_apart t); [done | done | lia | done | done].
  - rewrite Hone. apply (offsets_apart t); [done | done | lia | done | done].
  - rewrite Hone. apply (offsets_apart t); [done | done | lia | done | done].
Qed.
End split_root_theorem.

(** ** The statements above at concrete inputs *)

Lemma int_pairs_round_trip (ks : list (Z * Z)) :
  IntNodes.int_pairs ks = true → Forall pair_round_trips ks.
Proof.
  unfold IntNodes.int_pairs. induction ks as [|kv ks IH]; simpl; [constructor|].
  intros [[Hkey Hvalue]%andb_true_iff Hrest]%andb_true_iff.
  constructor; [|by apply IH]. unfold IntNodes.is_int in *.
  split; apply int_round_trips; lia.
Qed.

Lemma less_strict_weak_order : strict_weak_order IntTree.less.
Proof. unfold IntTree.less. repeat split; intros; lia. Qed.

(** the slots of a concrete file are in place: by evaluation *)
Ltac slots_evaluated :=
  unfold slots_in_place; apply (bool_decide_unpack _); vm_compute; exact I.

Lemma SerializableInt_round_trip_witness :
  deserialize (serialize 5%Z ++ [x07]) = Ok (5%Z, [x07])
  ∧ vec_size (serialize 5%Z) = serialize_size 5%Z.
Proof. apply (SerializableInt_round_trip 5 [x07]). lia. Defined.

Lemma SerializableString_round_trip_witness :
  deserialize (serialize IntNodes.ab ++ [x07]) = Ok (IntNodes.ab, [x07])
  ∧ vec_size (serialize IntNodes.ab) = serialize_size IntNodes.ab.
Proof. apply (SerializableString_round_trip IntNodes.ab [x07]). reflexivity. Defined.

Lemma SerializableVector_round_trip_witness :
  deserialize (serialize IntNodes.one_two ++ [x07]) = Ok (IntNodes.one_two, [x07])
  ∧ vec_size (serialize IntNodes.one_two) = serialize_size IntNodes.one_two.
Proof.
  apply (SerializableVector_round_trip IntNodes.one_two [x07]).
  - repeat constructor; apply int_round_trips; lia.
  - repeat constructor.
  - reflexivity.
  - reflexivity.
Defined.

Lemma slot_layout_witness :
  vec_size (slot_encode IntNodes.slot_1) = node_size_write IntTree.t
  ∧ node_size_write IntTree.t = node_size_read IntTree.t
  ∧ slot_decode IntTree.t (slot_encode IntNodes.slot_1 ++ [x07]) = Ok (IntNodes.slot_1, [x07]).
Proof.
  apply (slot_layout IntTree.t IntNodes.slot_1 [x07]); [reflexivity | reflexivity |].
  repeat split; try reflexivity; repeat constructor.
Defined.

Lemma disk_write_then_read_witness :
  ∃ tree',
    disk_write IntTree.t IntNodes.leaf_1 (fresh_tree IntTree.t) = Ok ((), tree')
    ∧ disk_read IntTree.t tree' 0 = Ok IntNodes.leaf_1.
Proof.
  destruct (disk_write_total IntTree.t IntNodes.leaf_1 (fresh_tree IntTree.t))
    as [tree' Hwrite].
  exists tree'. split; [exact Hwrite|].
  apply (disk_write_then_read IntTree.t IntNodes.leaf_1 (fresh_tree IntTree.t) tree');
    [vm_compute; discriminate | | reflexivity | vm_compute; discriminate | exact Hwrite].
  apply int_pairs_round_trip. reflexivity.
Defined.

Lemma disk_write_keeps_other_nodes_witness :
  ∃ tree',
    disk_write IntTree.t IntNodes.leaf_at_1 IntTree.three_keys = Ok ((), tree')
    ∧ disk_read IntTree.t tree' 0 = Ok (IntNodes.node_at IntTree.three_keys 0).
Proof.
  destruct (disk_write_total IntTree.t IntNodes.leaf_at_1 IntTree.three_keys)
    as [tree' Hwrite].
  exists tree'. split; [exact Hwrite|].
  apply (disk_write_keeps_other_nodes IntTree.t IntNodes.leaf_at_1 IntTree.three_keys tree');
    [exact int_reads_locally | exact int_reads_locally | reflexivity | reflexivity
    | vm_compute; discriminate | vm_compute; discriminate | vm_compute; discriminate
    | exact Hwrite | vm_compute; reflexivity].
Defined.

Lemma find_index_lower_bound_witness :
  find_index IntTree.less 2%Z (IntNodes.node_at IntTree.three_keys 0) = (1, true)
  ∧ vec_at (keys (IntNodes.node_at IntTree.three_keys 0)) 1 = Ok (2, 20)%Z
  ∧ IntTree.less 1 2 = true.
Proof.
  assert (find_index IntTree.less 2%Z (IntNodes.node_at IntTree.three_keys 0) = (1, true))
    as Hindex by (vm_compute; reflexivity).
  assert (vec_at (keys (IntNodes.node_at IntTree.three_keys 0)) 0 = Ok (1, 10)%Z)
    as Hfirst by (vm_compute; reflexivity).
  destruct (find_index_lower_bound IntTree.less 2%Z (IntNodes.node_at IntTree.three_keys 0)
              1 true ltac:(vm_compute; reflexivity) Hindex) as (_ & Hbefore & _).
  split; [exact Hindex|]. split; [vm_compute; reflexivity|].
  exact (Hbefore 0 (1, 10)%Z ltac:(reflexivity) Hfirst).
Defined.

Lemma find_path_descent_witness :
  find_path (tvalue := Z) IntTree.less IntTree.t IntTree.fuel IntTree.four_keys 4%Z
  = Ok ([(1, 0); (2, 1)], (0, true))
  ∧ descent_from_root (tvalue := Z) IntTree.less IntTree.t IntTree.four_keys 4%Z
      [(1, 0); (2, 1)].
Proof.
  assert (find_path (tvalue := Z) IntTree.less IntTree.t IntTree.fuel IntTree.four_keys 4%Z
          = Ok ([(1, 0); (2, 1)], (0, true))) as Hfind by (vm_compute; reflexivity).
  split; [exact Hfind|].
  destruct (find_path_descent (tvalue := Z) IntTree.less IntTree.t IntTree.fuel IntTree.four_keys 4%Z
              _ _ _ ltac:(vm_compute; discriminate) Hfind)
    as (pos & below & top & _ & _ & _ & _ & Hdescent).
  exact Hdescent.
Defined.

Lemma absent_key_changes_nothing_witness :
  at_ IntTree.less IntTree.t IntTree.fuel IntTree.three_keys 7%Z = Ok None
  ∧ update IntTree.less IntTree.t IntTree.fuel (7, 70)%Z IntTree.three_keys
    = Ok (false, IntTree.three_keys)
  ∧ erase IntTree.less IntTree.t IntTree.fuel 7%Z IntTree.three_keys
    = Ok (false, IntTree.three_keys).
Proof.
  assert (at_ IntTree.less IntTree.t IntTree.fuel IntTree.three_keys 7%Z = Ok None)
    as Hat by (vm_compute; reflexivity).
  split; [exact Hat|].
  exact (absent_key_changes_nothing IntTree.less IntTree.t IntTree.fuel IntTree.three_keys
           7%Z 70%Z Hat).
Defined.

Lemma empty_tree_behaviour_witness :
  _position_root IntTree.emptied = NONE
  ∧ at_ IntTree.less IntTree.t IntTree.fuel IntTree.emptied 1%Z = Ok None
  ∧ find_range IntTree.less IntTree.t IntTree.fuel IntTree.emptied 0%Z 9%Z true true
    = Ok (end_, end_).
Proof.
  assert (_position_root IntTree.emptied = NONE) as Hroot by (vm_compute; reflexivity).
  destruct (empty_tree_behaviour IntTree.less IntTree.t IntTree.fuel IntTree.emptied
              1%Z 10%Z 0%Z 9%Z true true Hroot) as (Hat & _ & _ & Hrange & _).
  split; [exact Hroot|]. split; [exact Hat | exact Hrange].
Defined.

Lemma returned_flag_reports_presence_witness :
  (at_ IntTree.less IntTree.t IntTree.fuel IntTree.three_keys 2%Z = Ok (Some 20%Z)
   ∧ insert IntTree.less IntTree.t IntTree.fuel (2, 99)%Z IntTree.three_keys
     = Ok (false, IntTree.three_keys)
   ∧ (∃ tree', update IntTree.less IntTree.t IntTree.fuel (2, 99)%Z IntTree.three_keys
               = Ok (true, tree'))
   ∧ ∃ tree', erase IntTree.less IntTree.t IntTree.fuel 2%Z IntTree.three_keys
              = Ok (true, tree'))
  ∧ (at_ IntTree.less IntTree.t IntTree.fuel IntNodes.two_keys 5%Z = Ok None
     ∧ (∃ tree', insert IntTree.less IntTree.t IntTree.fuel (5, 50)%Z IntNodes.two_keys
                 = Ok (true, tree'))
     ∧ update IntTree.less IntTree.t IntTree.fuel (5, 50)%Z IntNodes.two_keys
       = Ok (false, IntNodes.two_keys)
     ∧ erase IntTree.less IntTree.t IntTree.fuel 5%Z IntNodes.two_keys
       = Ok (false, IntNodes.two_keys)).
Proof.
  assert (at_ IntTree.less IntTree.t IntTree.fuel IntTree.three_keys 2%Z = Ok (Some 20%Z))
    as Hpresent by (vm_compute; reflexivity).
  assert (at_ IntTree.less IntTree.t IntTree.fuel IntNodes.two_keys 5%Z = Ok None)
    as Habsent by (vm_compute; reflexivity).
  destruct (returned_flag_reports_presence IntTree.less IntTree.t IntTree.fuel
              IntTree.three_keys 2%Z (Some 20%Z) Hpresent) as (Hinsert & Hupdate & Herase).
  destruct (returned_flag_reports_presence IntTree.less IntTree.t IntTree.fuel
              IntNodes.two_keys 5%Z None Habsent) as (Hinsert' & Hupdate' & Herase').
  assert (∃ b tree', update IntTree.less IntTree.t IntTree.fuel (2, 99)%Z IntTree.three_keys
                     = Ok (b, tree')) as (b1 & tree1 & Hrun1)
    by (eexists _, _; vm_compute; reflexivity).
  assert (∃ b tree', erase IntTree.less IntTree.t IntTree.fuel 2%Z IntTree.three_keys
                     = Ok (b, tree')) as (b2 & tree2 & Hrun2)
    by (eexists _, _; vm_compute; reflexivity).
  assert (∃ b tree', insert IntTree.less IntTree.t IntTree.fuel (5, 50)%Z IntNodes.two_keys
                     = Ok (b, tree')) as (b3 & tree3 & Hrun3)
    by (eexists _, _; vm_compute; reflexivity).
  pose proof (Hupdate 99%Z b1 tree1 Hrun1) as Hb1.
  pose proof (Herase b2 tree2 Hrun2) as Hb2.
  pose proof (Hinsert' 50%Z b3 tree3 Hrun3) as Hb3.
  split.
  - split; [exact Hpresent|]. split; [exact (Hinsert 99%Z)|]. split.
    + exists tree1. rewrite Hrun1. by rewrite Hb1.
    + exists tree2. rewrite Hrun2. by rewrite Hb2.
  - split; [exact Habsent|]. split; [|split; [exact (Hupdate' 50%Z) | exact Herase']].
    exists tree3. rewrite Hrun3. by rewrite Hb3.
Defined.

Lemma four_keys_run :
  run_mutations IntTree.less IntTree.t IntTree.fuel (IntTree.inserts [1; 2; 3; 4]%Z)
    (fresh_tree IntTree.t)
  = Ok ([true; true; true; true], IntTree.four_keys).
Proof. vm_compute. reflexivity. Qed.

Lemma data_file_append_only_witness :
  _file_for_key_value (fresh_tree IntTree.t)
    `prefix_of` _file_for_key_value IntTree.four_keys.
Proof.
  exact (proj1 (data_file_append_only IntTree.less IntTree.t IntTree.fuel
                  (IntTree.inserts [1; 2; 3; 4]%Z) (fresh_tree IntTree.t)
                  [true; true; true; true] IntTree.four_keys
                  int_reads_locally int_reads_locally four_keys_run)).
Defined.

Lemma header_root_follows_root_witness :
  header_root (_file_for_tree IntTree.four_keys) = Some (_position_root IntTree.four_keys).
Proof.
  apply (header_root_follows_root (tkey := Z) (tvalue := Z) IntTree.less IntTree.t IntTree.fuel
           IntTree.no_files (fresh_tree IntTree.t) (IntTree.inserts [1; 2; 3; 4]%Z)
           [true; true; true; true] IntTree.four_keys);
    [vm_compute; reflexivity | exact four_keys_run | slots_evaluated].
Defined.

Lemma update_and_erase_allocate_nothing_witness :
  _count_of_node
    (IntNodes.tree_of (erase IntTree.less IntTree.t IntTree.fuel 5%Z IntTree.three_levels))
  = _count_of_node IntTree.three_levels.
Proof.
  apply (update_and_erase_allocate_nothing IntTree.less IntTree.t IntTree.fuel (5, 50)%Z 5%Z
           IntTree.three_levels true).
  right. vm_compute. reflexivity.
Defined.


Lemma update_then_at_witness :
  ∃ tree',
    update IntTree.less IntTree.t IntTree.fuel (2, 99)%Z IntTree.three_keys = Ok (true, tree')
    ∧ at_ IntTree.less IntTree.t IntTree.fuel tree' 2%Z = Ok (Some 99%Z)
    ∧ at_ IntTree.less IntTree.t IntTree.fuel tree' 3%Z = Ok (Some 30%Z).
Proof.
  destruct (update_then_at IntTree.less IntTree.t IntTree.fuel IntTree.three_keys 2%Z 99%Z
              0 1 [] 1 (IntNodes.node_at IntTree.three_keys 0))
    as (tree' & old & Hupdate & Hold & Hat & Hothers).
  - exact int_reads_locally.
  - exact int_reads_locally.
  - slots_evaluated.
  - vm_compute. reflexivity.
  - vm_compute. reflexivity.
  - vm_compute. reflexivity.
  - vm_compute. reflexivity.
  - vm_compute. discriminate.
  - apply int_pairs_round_trip. vm_compute. reflexivity.
  - apply int_round_trips. lia.
  - exists tree'. split; [exact Hupdate|]. split; [exact Hat|].
    apply Hothers; [|vm_compute; reflexivity].
    assert (old = (2, 20)%Z) as -> by (vm_compute in Hold; congruence).
    left. reflexivity.
Defined.

Lemma insert_then_at_witness :
  ∃ tree',
    insert IntTree.less IntTree.t IntTree.fuel (5, 50)%Z IntNodes.two_keys = Ok (true, tree')
    ∧ at_ IntTree.less IntTree.t IntTree.fuel tree' 5%Z = Ok (Some 50%Z)
    ∧ at_ IntTree.less IntTree.t IntTree.fuel tree' 1%Z = Ok (Some 10%Z).
Proof.
  destruct (insert_then_at IntTree.less IntTree.t IntTree.fuel IntNodes.two_keys 5%Z 50%Z
              0 2 [] 2 (IntNodes.node_at IntNodes.two_keys 0))
    as (tree' & Hinsert & Hat & Hothers).
  - exact int_reads_locally.
  - exact int_reads_locally.
  - exact (proj1 less_strict_weak_order).
  - slots_evaluated.
  - vm_compute. reflexivity.
  - vm_compute. reflexivity.
  - vm_compute. reflexivity.
  - vm_compute. reflexivity.
  - vm_compute. reflexivity.
  - vm_compute. reflexivity.
  - apply int_pairs_round_trip. vm_compute. reflexivity.
  - apply int_round_trips. lia.
  - apply int_round_trips. lia.
  - exists tree'. split; [exact Hinsert|]. split; [exact Hat|].
    apply Hothers; [right; reflexivity | vm_compute; reflexivity].
Defined.

Lemma erase_then_at_witness :
  ∃ tree',
    erase IntTree.less IntTree.t IntTree.fuel 2%Z IntTree.three_keys = Ok (true, tree')
    ∧ at_ IntTree.less IntTree.t IntTree.fuel tree' 2%Z = Ok None
    ∧ at_ IntTree.less IntTree.t IntTree.fuel tree' 3%Z = Ok (Some 30%Z).
Proof.
  destruct (erase_then_at IntTree.less IntTree.t IntTree.fuel IntTree.three_keys 2%Z
              0 1 [] 1 (IntNodes.node_at IntTree.three_keys 0))
    as (tree' & old & Herase & Hold & Hat & Hothers).
  - exact int_reads_locally.
  - exact int_reads_locally.
  - exact less_strict_weak_order.
  - slots_evaluated.
  - vm_compute. reflexivity.
  - vm_compute. reflexivity.
  - vm_compute. reflexivity.
  - vm_compute. reflexivity.
  - vm_compute. reflexivity.
  - vm_compute. discriminate.
  - vm_compute. reflexivity.
  - vm_compute. reflexivity.
  - vm_compute. reflexivity.
  - apply int_pairs_round_trip. vm_compute. reflexivity.
  - exists tree'. split; [exact Herase|]. split; [exact Hat|].
    apply Hothers; [|vm_compute; reflexivity].
    assert (old = (2, 20)%Z) as -> by (vm_compute in Hold; congruence).
    left. reflexivity.
Defined.

Lemma check_tree_rejects_internal_nodes_witness :
  IntTree.view IntTree.four_keys 2 = Ok (1, false, [3%Z], [0; 1; 0; 0; 0])
  ∧ ∃ what,
      check_tree IntTree.less IntTree.t (S IntTree.fuel) IntTree.four_keys 2 0
      = Fail (logic_error what 2).
Proof.
  split; [vm_compute; reflexivity|].
  apply (check_tree_rejects_internal_nodes IntTree.less IntTree.t IntTree.fuel
           IntTree.four_keys 2 0 (IntNodes.node_at IntTree.four_keys 2));
    [vm_compute; discriminate | vm_compute; reflexivity | vm_compute; reflexivity
    | vm_compute; discriminate | vm_compute; reflexivity].
Defined.

Lemma range_to_end_in_leaf_root_witness :
  ∃ lo hi,
    find_range IntTree.less IntTree.t IntTree.fuel IntTree.three_keys 2%Z 3%Z false true
    = Ok (lo, hi)
    ∧ collect (tkey := Z) (tvalue := Z) IntTree.t IntTree.fuel IntTree.three_keys lo end_
      = Ok [(3, 30)%Z].
Proof.
  destruct (range_to_end_in_leaf_root IntTree.less IntTree.t IntTree.fuel IntTree.three_keys
              (IntNodes.node_at IntTree.three_keys 0) 2%Z 3%Z false true 1 true)
    as (lo & hi & Hrange & Hcollect);
    [vm_compute; discriminate | vm_compute; reflexivity | vm_compute; reflexivity
    | vm_compute; reflexivity | vm_compute; lia | vm_compute; reflexivity
    | vm_compute; reflexivity |].
  exists lo, hi. split; [exact Hrange|]. rewrite Hcollect. vm_compute. reflexivity.
Defined.

Lemma range_in_empty_leaf_root_witness :
  B_tree_disk_ctor (tkey := Z) (tvalue := Z) IntTree.t IntTree.no_files
  = Ok (fresh_tree IntTree.t)
  ∧ ∃ first,
      find_range IntTree.less IntTree.t IntTree.fuel (fresh_tree IntTree.t) 1%Z 9%Z true true
      = Ok (first, first)
      ∧ iterator_eqb first end_ = false
      ∧ dereference (tkey := Z) (tvalue := Z) IntTree.t (fresh_tree IntTree.t) first
        = Fail OutOfRange.
Proof.
  split; [vm_compute; reflexivity|].
  destruct (range_in_empty_leaf_root IntTree.less IntTree.t 63 (fresh_tree IntTree.t)
              (IntNodes.node_at (fresh_tree IntTree.t) 0) 1%Z 9%Z true true)
    as (first & Hrange & _ & Hdiffer & _ & Hdereference & _);
    [vm_compute; discriminate | vm_compute; reflexivity | vm_compute; reflexivity
    | vm_compute; reflexivity |].
  exists first. split; [exact Hrange|]. split; [exact Hdiffer | exact Hdereference].
Defined.

Lemma slots_do_not_overlap_witness :
  slot_offset_write IntTree.t 0 + node_size_write IntTree.t ≤ slot_offset_write IntTree.t 1
  ∧ node_size_write IntTree.t = 89.
Proof.
  destruct (slots_do_not_overlap IntTree.t 0 1) as (_ & Hsize & _ & Hapart);
    [reflexivity | reflexivity | reflexivity | vm_compute; discriminate |].
  split; [exact Hapart | exact Hsize].
Defined.

Lemma insert_splits_root_leaf_witness :
  ∃ tree',
    insert IntTree.less IntTree.t IntTree.fuel (4, 40)%Z IntTree.three_keys = Ok (true, tree')
    ∧ _position_root tree' = 2
    ∧ at_ IntTree.less IntTree.t IntTree.fuel tree' 4%Z = Ok (Some 40%Z)
    ∧ at_ IntTree.less IntTree.t IntTree.fuel tree' 1%Z = Ok (Some 10%Z).
Proof.
  destruct (insert_splits_root_leaf IntTree.less IntTree.t 62 IntTree.three_keys 4%Z 40%Z
              3 3 (IntNodes.node_at IntTree.three_keys 0))
    as (tree' & Hinsert & Hroot & _ & Hat).
  - exact int_reads_locally.
  - exact int_reads_locally.
  - exact (proj1 less_strict_weak_order).
  - reflexivity.
  - reflexivity.
  - slots_evaluated.
  - vm_compute. reflexivity.
  - vm_compute. discriminate.
  - vm_compute. reflexivity.
  - vm_compute. reflexivity.
  - vm_compute. reflexivity.
  - vm_compute. reflexivity.
  - vm_compute. reflexivity.
  - vm_compute. reflexivity.
  - apply int_pairs_round_trip. vm_compute. reflexivity.
  - apply int_round_trips. lia.
  - apply int_round_trips. lia.
  - exists tree'. split; [exact Hinsert|]. split; [by rewrite Hroot|]. split.
    + apply (Hat 3%nat (4, 40)%Z). vm_compute. reflexivity.
    + apply (Hat 0%nat (1, 10)%Z). vm_compute. reflexivity.
Defined.
